(** * MLMP candidate extraction: a shallow embedding and its properties

    The development follows the TypeScript sources of the menu candidate
    pipeline:

    - [lib/candidates/regex.ts]           (module [TextUtils])
    - [lib/candidates/priceRemoval.ts]    (module [PriceRemoval])
    - [lib/candidates/headers.ts]         (module [Headers])
    - [lib/candidates/entreeLookup.ts]    (module [EntreeLookup])
    - [lib/candidates/extractCandidates.ts] (module [Extract])

    JavaScript strings are sequences of UTF-16 code units, regular
    expressions are interpreted by a backtracking matcher that follows the
    ECMAScript pattern semantics, and the [lastIndex] slot of the shared
    global pattern objects is threaded explicitly as state. Finite numbers
    are modelled by exact rational arithmetic: the rounding of binary
    floating point is not represented, so a comparison can differ from the
    program where the two sides are equal up to rounding (the reference
    square root is the exception: it is correctly rounded). Where the code
    can produce NaN or an infinity (the trained score, the header
    similarity), numbers are of type [jsnum], which has them. *)

From Stdlib Require Import List Bool Arith NArith ZArith QArith Qminmax String Ascii Lia Lqa.
From Stdlib Require Import Sorted Permutation.
Import ListNotations.

Set Implicit Arguments.
Local Open Scope nat_scope.

(* ================================================================== *)
(** * JavaScript strings *)
(* ================================================================== *)

(** A string is its list of UTF-16 code units. *)
Definition jsstring := list N.

Module Utf8.
  (** Source literals are written as ordinary string literals of this file
      (UTF-8 encoded) and decoded to code units. *)
Definition byte (a : ascii) : N := N_of_ascii a.

Definition cont (b : N) : N := N.land b 63.

Fixpoint bytes (s : string) : list N :=
    match s with
    | EmptyString => []
    | String a s' => byte a :: bytes s'
    end.

Fixpoint decode (fuel : nat) (bs : list N) : jsstring :=
    match fuel with
    | O => []
    | S fuel' =>
      match bs with
      | [] => []
      | b0 :: t0 =>
        if (b0 <? 128)%N then b0 :: decode fuel' t0
        else if (b0 <? 224)%N then
          match t0 with
          | b1 :: t1 => (N.shiftl (N.land b0 31) 6 + cont b1)%N :: decode fuel' t1
          | [] => [b0]
          end
        else if (b0 <? 240)%N then
          match t0 with
          | b1 :: b2 :: t2 =>
            (N.shiftl (N.land b0 15) 12 + N.shiftl (cont b1) 6 + cont b2)%N
              :: decode fuel' t2
          | _ => [b0]
          end
        else
          match t0 with
          | b1 :: b2 :: b3 :: t3 =>
            let cp := (N.shiftl (N.land b0 7) 18 + N.shiftl (cont b1) 12
                       + N.shiftl (cont b2) 6 + cont b3)%N in
            let v := (cp - 65536)%N in
            (55296 + N.shiftr v 10)%N :: (56320 + N.land v 1023)%N
              :: decode fuel' t3
          | _ => [b0]
          end
      end
    end.
End Utf8.

(** [js "..."] is the JavaScript string written by the literal. *)
Definition js (s : string) : jsstring :=
  let bs := Utf8.bytes s in Utf8.decode (List.length bs) bs.

Definition chr (s : string) : N := hd 0%N (js s).

Fixpoint str_eqb (a b : jsstring) : bool :=
  match a, b with
  | [], [] => true
  | x :: a', y :: b' => (x =? y)%N && str_eqb a' b'
  | _, _ => false
  end.

Lemma str_eqb_eq a b : str_eqb a b = true <-> a = b.
Proof.
  revert b; induction a as [|x a IH]; intros [|y b]; simpl; split; intros H;
    try congruence; try discriminate.
  - apply andb_true_iff in H as [H1 H2]. apply N.eqb_eq in H1.
    apply IH in H2. congruence.
  - inversion H; subst. rewrite N.eqb_refl. simpl. now apply IH.
Qed.

Lemma str_eqb_refl a : str_eqb a a = true.
Proof. now apply str_eqb_eq. Qed.

(** [Array.prototype.includes] on an array of strings. *)
Definition arr_includes (l : list jsstring) (w : jsstring) : bool :=
  existsb (fun x => str_eqb x w) l.

(** [String.prototype.startsWith]. *)
Fixpoint startsWith (s p : jsstring) : bool :=
  match p, s with
  | [], _ => true
  | c :: p', d :: s' => (c =? d)%N && startsWith s' p'
  | _ :: _, [] => false
  end.

(** [String.prototype.includes]. *)
Fixpoint includes (s p : jsstring) : bool :=
  startsWith s p ||
  match s with
  | [] => false
  | _ :: s' => includes s' p
  end.

(** [String.prototype.slice(a, b)] for in-range non-negative bounds. *)
Definition substring (s : jsstring) (a b : nat) : jsstring :=
  firstn (b - a) (skipn a s).

(* ------------------------------------------------------------------ *)
(** ** Character classes of the pattern language *)

Definition in_range (c lo hi : N) : bool := ((lo <=? c) && (c <=? hi))%N.

Definition is_digit (c : N) : bool := in_range c 48 57.
Definition is_upper_ascii (c : N) : bool := in_range c 65 90.
Definition is_lower_ascii (c : N) : bool := in_range c 97 122.
Definition is_ascii_letter (c : N) : bool := is_upper_ascii c || is_lower_ascii c.

(** [\w]: the ASCII letters, digits and the underscore. *)
Definition is_word (c : N) : bool :=
  is_ascii_letter c || is_digit c || (c =? 95)%N.

(** [\s], also the set removed by [String.prototype.trim]: WhiteSpace and
    LineTerminator of ECMA-262. *)
Definition is_space (c : N) : bool :=
  in_range c 9 13 || (c =? 32)%N || (c =? 160)%N || (c =? 5760)%N
  || in_range c 8192 8202 || (c =? 8232)%N || (c =? 8233)%N
  || (c =? 8239)%N || (c =? 8287)%N || (c =? 12288)%N || (c =? 65279)%N.

(** LineTerminator, excluded by the dot. *)
Definition is_line_terminator (c : N) : bool :=
  (c =? 10)%N || (c =? 13)%N || (c =? 8232)%N || (c =? 8233)%N.

Fixpoint trimStart (s : jsstring) : jsstring :=
  match s with
  | c :: s' => if is_space c then trimStart s' else s
  | [] => []
  end.

Definition trimEnd (s : jsstring) : jsstring := rev (trimStart (rev s)).

(** [String.prototype.trim]. *)
Definition trim (s : jsstring) : jsstring := trimEnd (trimStart s).

(** A class is a union of code-unit ranges, possibly complemented. *)
Record charclass := { cc_neg : bool; cc_ranges : list (N * N) }.

Definition swap_case (c : N) : N :=
  if is_upper_ascii c then (c + 32)%N
  else if is_lower_ascii c then (c - 32)%N else c.

(** Membership. Under the [i] flag ECMA-262 compares canonicalised code
    units; every pattern of the program that carries the flag is written in
    ASCII, and a code unit of 128 or more never canonicalises to an ASCII
    one, so canonical equality amounts to equality up to ASCII case. *)
Definition range_mem (ci : bool) (c : N) (r : N * N) : bool :=
  in_range c (fst r) (snd r)
  || (ci && in_range (swap_case c) (fst r) (snd r)).

Definition class_mem (ci : bool) (k : charclass) (c : N) : bool :=
  xorb (cc_neg k) (existsb (range_mem ci c) (cc_ranges k)).

Definition cls (rs : list (N * N)) : charclass := {| cc_neg := false; cc_ranges := rs |}.
Definition ncls (rs : list (N * N)) : charclass := {| cc_neg := true; cc_ranges := rs |}.
Definition one (c : N) : N * N := (c, c).

Definition r_digit : list (N * N) := [(48, 57)%N].
Definition r_word : list (N * N) := [(65, 90); (97, 122); (48, 57); (95, 95)]%N.
Definition r_space : list (N * N) :=
  [(9, 13); (32, 32); (160, 160); (5760, 5760); (8192, 8202); (8232, 8233);
   (8239, 8239); (8287, 8287); (12288, 12288); (65279, 65279)]%N.
Definition r_line_terminator : list (N * N) :=
  [(10, 10); (13, 13); (8232, 8233)]%N.
(** [[$€£¥]] *)
Definition r_currency : list (N * N) := [(36, 36); (8364, 8364); (163, 163); (165, 165)]%N.

(* ================================================================== *)
(** * Regular expressions *)
(* ================================================================== *)

Inductive regex : Type :=
| Eps                                         (* empty pattern *)
| Cls (k : charclass)                         (* one code unit of a class *)
| Seq (r1 r2 : regex)                         (* r1 r2 *)
| Alt (r1 r2 : regex)                         (* r1 | r2 *)
| Rep (min : nat) (max : option nat) (greedy : bool) (r : regex)
                                              (* r{min,max} and r{min,max}? *)
| Grp (n : nat) (r : regex)                   (* n-th capturing group *)
| Bol                                         (* ^ *)
| Eol                                         (* $ *)
| WordB                                       (* \b *)
| NotBehind (k : charclass)                   (* (?<!k) *)
| NotAhead (k : charclass).                   (* (?!k) *)

(** Matcher state: the end index reached, the code unit before it, the rest
    of the input and the captures (start and end index of each group). *)
Record mstate := {
  ms_pos : nat;
  ms_prev : option N;
  ms_rest : list N;
  ms_caps : list (option (nat * nat))
}.

Definition cont := mstate -> option mstate.

Definition advance (x : mstate) (c : N) (rest : list N) : mstate :=
  {| ms_pos := S (ms_pos x); ms_prev := Some c; ms_rest := rest;
     ms_caps := ms_caps x |}.

Fixpoint set_nth {A} (n : nat) (v : A) (l : list A) : list A :=
  match n, l with
  | _, [] => []
  | O, _ :: t => v :: t
  | S n', h :: t => h :: set_nth n' v t
  end.

Definition set_cap (n : nat) (v : option (nat * nat)) (x : mstate) : mstate :=
  {| ms_pos := ms_pos x; ms_prev := ms_prev x; ms_rest := ms_rest x;
     ms_caps := set_nth n v (ms_caps x) |}.

(** The capturing groups inside a pattern (cleared at each iteration of a
    quantifier). *)
Fixpoint groups (r : regex) : list nat :=
  match r with
  | Seq a b | Alt a b => groups a ++ groups b
  | Rep _ _ _ a => groups a
  | Grp n a => n :: groups a
  | _ => []
  end.

Definition clear_caps (gs : list nat) (x : mstate) : mstate :=
  fold_left (fun y n => set_cap n None y) gs x.

Definition is_word_opt (o : option N) : bool :=
  match o with Some c => is_word c | None => false end.

(** RepeatMatcher of ECMA-262. An iteration that consumes nothing once the
    minimum is reached fails, so every iteration either lowers [min] or
    advances in the input: [fuel] starts above [min] plus the length of the
    rest and is never exhausted. *)
Fixpoint rep_loop (body : mstate -> cont -> option mstate)
    (clear : mstate -> mstate)
    (fuel min : nat) (max : option nat) (greedy : bool)
    (x : mstate) (k : cont) : option mstate :=
  match fuel with
  | O => None
  | S fuel' =>
    match max with
    | Some O => k x
    | _ =>
      let d := fun y : mstate =>
        if (min =? 0) && (ms_pos y =? ms_pos x) then None
        else rep_loop body clear fuel' (pred min) (option_map pred max) greedy y k in
      if negb (min =? 0) then body (clear x) d
      else if greedy then
        match body (clear x) d with
        | Some z => Some z
        | None => k x
        end
      else
        match k x with
        | Some z => Some z
        | None => body (clear x) d
        end
    end
  end.

(** The matcher of a pattern, in continuation-passing style as in the
    language specification; [ci] is the [i] flag. *)
Fixpoint rmatch (ci : bool) (r : regex) (x : mstate) (k : cont) : option mstate :=
  match r with
  | Eps => k x
  | Cls c =>
    match ms_rest x with
    | ch :: rest => if class_mem ci c ch then k (advance x ch rest) else None
    | [] => None
    end
  | Seq r1 r2 => rmatch ci r1 x (fun y => rmatch ci r2 y k)
  | Alt r1 r2 =>
    match rmatch ci r1 x k with
    | Some z => Some z
    | None => rmatch ci r2 x k
    end
  | Rep min max greedy r' =>
    rep_loop (rmatch ci r') (clear_caps (groups r'))
      (S (min + List.length (ms_rest x))) min max greedy x k
  | Grp n r' =>
    rmatch ci r' x (fun y => k (set_cap n (Some (ms_pos x, ms_pos y)) y))
  | Bol => match ms_prev x with None => k x | Some _ => None end
  | Eol => match ms_rest x with [] => k x | _ :: _ => None end
  | WordB =>
    if xorb (is_word_opt (ms_prev x)) (is_word_opt (hd_error (ms_rest x)))
    then k x else None
  | NotBehind c =>
    match ms_prev x with
    | Some ch => if class_mem ci c ch then None else k x
    | None => k x
    end
  | NotAhead c =>
    match ms_rest x with
    | ch :: _ => if class_mem ci c ch then None else k x
    | [] => k x
    end
  end.

(** A regular expression object: its pattern, the number of capturing
    groups and the [i] flag. Whether the object is global matters only for
    [lastIndex], which the callers below handle. *)
Record RegExp := {
  re_src : regex;
  re_groups : nat;
  re_icase : bool
}.

Definition mk_re (r : regex) : RegExp := {| re_src := r; re_groups := 0; re_icase := false |}.
Definition mk_re_i (r : regex) : RegExp := {| re_src := r; re_groups := 0; re_icase := true |}.

(** The result of a successful match: start index, end index, captures. *)
Record MatchResult := {
  m_start : nat;
  m_end : nat;
  m_caps : list (option (nat * nat))
}.

Definition match_here (re : RegExp) (pos : nat) (prev : option N) (rest : list N)
  : option MatchResult :=
  match rmatch (re_icase re) (re_src re)
          {| ms_pos := pos; ms_prev := prev; ms_rest := rest;
             ms_caps := repeat None (S (re_groups re)) |} Some with
  | Some y => Some {| m_start := pos; m_end := ms_pos y; m_caps := ms_caps y |}
  | None => None
  end.

(** The scan of RegExpBuiltinExec: try each index from the current one to
    the end of the input. *)
Fixpoint scan (re : RegExp) (pos : nat) (prev : option N) (rest : list N)
  : option MatchResult :=
  match match_here re pos prev rest with
  | Some m => Some m
  | None =>
    match rest with
    | [] => None
    | c :: rest' => scan re (S pos) (Some c) rest'
    end
  end.

Definition prev_at (s : jsstring) (i : nat) : option N :=
  match i with O => None | S j => nth_error s j end.

(** [exec] from index [i] (not sticky). *)
Definition exec_from (re : RegExp) (s : jsstring) (i : nat) : option MatchResult :=
  if List.length s <? i then None
  else scan re i (prev_at s i) (skipn i s).

(** [re.test(s)] for a pattern object whose [lastIndex] is 0: a regular
    expression literal evaluated in a function body, or a non-global one. *)
Definition re_test (re : RegExp) (s : jsstring) : bool :=
  match exec_from re s 0 with Some _ => true | None => false end.

(** [re.test(s)] on a shared global pattern object: the search starts at
    [lastIndex]; a match stores its end index there, a failure stores 0. *)
Definition test_global (re : RegExp) (s : jsstring) (lastIndex : nat) : bool * nat :=
  match exec_from re s lastIndex with
  | Some m => (true, m_end m)
  | None => (false, 0)
  end.

(** All matches of a global pattern from index 0, as collected by
    [replace], [match] and an [exec] loop: after an empty match the index
    advances by one. *)
Fixpoint all_matches (fuel : nat) (re : RegExp) (s : jsstring) (i : nat)
  : list MatchResult :=
  match fuel with
  | O => []
  | S fuel' =>
    match exec_from re s i with
    | None => []
    | Some m =>
      m :: all_matches fuel' re s
             (if m_end m =? m_start m then S (m_end m) else m_end m)
    end
  end.

Definition matches_of (re : RegExp) (s : jsstring) : list MatchResult :=
  all_matches (S (S (List.length s))) re s 0.

(** [s.replace(re, by)] for a global pattern and a replacement text without
    dollar references. *)
Fixpoint splice (s : jsstring) (p : nat) (ms : list MatchResult) (by_ : jsstring)
  : jsstring :=
  match ms with
  | [] => skipn p s
  | m :: ms' =>
    if p <=? m_start m
    then substring s p (m_start m) ++ by_ ++ splice s (m_end m) ms' by_
    else splice s p ms' by_
  end.

Definition replace_all (re : RegExp) (by_ : jsstring) (s : jsstring) : jsstring :=
  splice s 0 (matches_of re s) by_.

(** [s.match(re)] for a global pattern: the matched substrings (the empty
    list stands for [null]). *)
Definition match_all (re : RegExp) (s : jsstring) : list jsstring :=
  map (fun m => substring s (m_start m) (m_end m)) (matches_of re s).

(** The text captured by group [n] of a match ([None] is [undefined]). *)
Definition capture (s : jsstring) (m : MatchResult) (n : nat) : option jsstring :=
  match nth n (m_caps m) None with
  | Some (a, b) => Some (substring s a b)
  | None => None
  end.

(** [s.split(re)] without limit, for a pattern without capturing groups:
    the splitter is matched stickily at each index [q]; a match that ends
    where the previous piece ended is skipped. *)
Fixpoint split_loop (fuel : nat) (re : RegExp) (s : jsstring) (p q : nat)
  : list jsstring :=
  match fuel with
  | O => [skipn p s]
  | S fuel' =>
    if List.length s <=? q then [skipn p s]
    else
      match match_here re q (prev_at s q) (skipn q s) with
      | None => split_loop fuel' re s p (S q)
      | Some m =>
        let e := Nat.min (m_end m) (List.length s) in
        if e =? p then split_loop fuel' re s p (S q)
        else substring s p q :: split_loop fuel' re s e e
      end
  end.

Definition split (re : RegExp) (s : jsstring) : list jsstring :=
  match s with
  | [] => match match_here re 0 None [] with Some _ => [] | None => [[]] end
  | _ :: _ => split_loop (S (S (2 * List.length s))) re s 0 0
  end.

(* ------------------------------------------------------------------ *)
(** ** Pattern combinators, named after the source syntax *)

Module Re.
Definition ch (c : string) : regex := Cls (cls [one (chr c)]).
Definition lit_js (t : jsstring) : regex :=
    fold_right (fun c r => Seq (Cls (cls [one c])) r) Eps t.
Definition lit (t : string) : regex := lit_js (js t).
Definition seq (rs : list regex) : regex := fold_right Seq Eps rs.
Definition alt (rs : list regex) : regex :=
    match rs with
    | [] => Eps
    | r :: rs' => fold_left Alt rs' r
    end.
Definition opt (r : regex) : regex := Rep 0 (Some 1) true r.        (* r?  *)
Definition star (r : regex) : regex := Rep 0 None true r.           (* r*  *)
Definition plus (r : regex) : regex := Rep 1 None true r.           (* r+  *)
Definition plus_lazy (r : regex) : regex := Rep 1 None false r.     (* r+? *)
Definition star_lazy (r : regex) : regex := Rep 0 None false r.     (* r*? *)
Definition rep (a b : nat) (r : regex) : regex := Rep a (Some b) true r.
Definition d : regex := Cls (cls r_digit).                          (* \d *)
Definition w : regex := Cls (cls r_word).                           (* \w *)
Definition s : regex := Cls (cls r_space).                          (* \s *)
Definition dot : regex := Cls (ncls r_line_terminator).             (* .  *)
Definition currency : regex := Cls (cls r_currency).                (* [$€£¥] *)
Definition dot_comma : regex := Cls (cls [one (chr "."); one (chr ",")]).
  (** [(?:[.,]\d{2})] *)
Definition cents : regex := Seq dot_comma (rep 2 2 d).
Definition not_behind_w : regex := NotBehind (cls r_word).          (* (?<!\w) *)
Definition not_ahead_w : regex := NotAhead (cls r_word).            (* (?!\w) *)
End Re.

(** [/\s+/], the word splitter used throughout. *)
Definition re_spaces : RegExp := mk_re (Re.plus Re.s).

(* ================================================================== *)
(** * Numbers, the runtime library and the program state *)
(* ================================================================== *)

Definition Qnat (n : nat) : Q := inject_Z (Z.of_nat n).
Definition Qltb (a b : Q) : bool := negb (Qle_bool b a).
Definition Qgtb (a b : Q) : bool := Qltb b a.
Definition Qgeb (a b : Q) : bool := Qle_bool b a.
Definition Qis0 (a : Q) : bool := Qeq_bool a 0.
(** [Math.max] and [Math.min]. *)
Definition Math_max (a b : Q) : Q := if Qle_bool a b then b else a.
Definition Math_min (a b : Q) : Q := if Qle_bool a b then a else b.

(** The built-ins whose tables or numeric algorithms are not part of the
    program: Unicode case mapping and the transcendental functions. The
    properties below hold for every implementation of them. *)
Class Runtime := {
  toLowerCase : jsstring -> jsstring;
  toUpperCase : jsstring -> jsstring;
  Math_sqrt : Q -> Q;
  Math_exp : Q -> Q
}.

(** The names under which a plain object ([{}] or an object literal) inherits
    a function from its prototype, and the accessor through which it exposes
    that prototype: reading such a name from an object that does not own it
    yields the inherited member, not [undefined]. *)
Definition inheritedFunctions : list jsstring := map js
  ["constructor"; "hasOwnProperty"; "isPrototypeOf"; "propertyIsEnumerable";
   "toLocaleString"; "toString"; "valueOf"; "__defineGetter__";
   "__defineSetter__"; "__lookupGetter__"; "__lookupSetter__"]%string.

Definition protoName : jsstring := js "__proto__".

Definition inherited (key : jsstring) : bool :=
  arr_includes inheritedFunctions key || str_eqb key protoName.

(** A number as the language has it where the code can leave the finite
    ones: a finite value, one of the two infinities, or NaN. The finite
    values are exact rationals (rounding, overflow and the sign of zero are
    not represented), and the operations follow the arithmetic of the
    language on the other three. *)
Inductive jsnum := Fin (q : Q) | PInf | NInf | NaN.

Definition jneg (a : jsnum) : jsnum :=
  match a with
  | Fin q => Fin (- q)
  | PInf => NInf
  | NInf => PInf
  | NaN => NaN
  end.

Definition jadd (a b : jsnum) : jsnum :=
  match a, b with
  | NaN, _ | _, NaN => NaN
  | Fin x, Fin y => Fin (x + y)
  | PInf, NInf | NInf, PInf => NaN
  | PInf, _ | _, PInf => PInf
  | NInf, _ | _, NInf => NInf
  end.

Definition jsub (a b : jsnum) : jsnum := jadd a (jneg b).

(** An infinity with the sign of [x > 0], or NaN when [x] is zero. *)
Definition signed_inf (positive : bool) (x : Q) : jsnum :=
  match (x ?= 0)%Q with
  | Eq => NaN
  | Gt => if positive then PInf else NInf
  | Lt => if positive then NInf else PInf
  end.

Definition jmul (a b : jsnum) : jsnum :=
  match a, b with
  | NaN, _ | _, NaN => NaN
  | Fin x, Fin y => Fin (x * y)
  | Fin x, PInf | PInf, Fin x => signed_inf true x
  | Fin x, NInf | NInf, Fin x => signed_inf false x
  | PInf, PInf | NInf, NInf => PInf
  | PInf, NInf | NInf, PInf => NInf
  end.

Definition jdiv (a b : jsnum) : jsnum :=
  match a, b with
  | NaN, _ | _, NaN => NaN
  | Fin x, Fin y => if Qis0 y then signed_inf true x else Fin (x / y)
  | Fin _, _ => Fin 0
  | PInf, Fin y => if Qle_bool 0 y then PInf else NInf
  | NInf, Fin y => if Qle_bool 0 y then NInf else PInf
  | _, _ => NaN
  end.

(** [a < b] and [a > b]: false as soon as an operand is NaN. *)
Definition jltb (a b : jsnum) : bool :=
  match a, b with
  | NaN, _ | _, NaN => false
  | Fin x, Fin y => Qltb x y
  | NInf, NInf | PInf, _ | _, NInf => false
  | NInf, _ | _, PInf => true
  end.
Definition jgtb (a b : jsnum) : bool := jltb b a.

(** [a === 0] *)
Definition jis0 (a : jsnum) : bool :=
  match a with Fin q => Qis0 q | _ => false end.

(** [Math.max] and [Math.min] of two numbers: NaN as soon as an argument is
    NaN. *)
Definition jmax (a b : jsnum) : jsnum :=
  match a, b with
  | NaN, _ | _, NaN => NaN
  | _, _ => if jltb a b then b else a
  end.
Definition jmin (a b : jsnum) : jsnum :=
  match a, b with
  | NaN, _ | _, NaN => NaN
  | _, _ => if jltb b a then b else a
  end.

Arguments jneg : simpl never.
Arguments jadd : simpl never.
Arguments jsub : simpl never.
Arguments jmul : simpl never.
Arguments jdiv : simpl never.
Arguments jltb : simpl never.
Arguments jgtb : simpl never.
Arguments jis0 : simpl never.
Arguments jmax : simpl never.
Arguments jmin : simpl never.

(** [Math.exp] and [Math.sqrt] on all numbers, from the functions of the
    runtime on the finite ones. *)
Definition jexp `{Runtime} (a : jsnum) : jsnum :=
  match a with
  | Fin q => Fin (Math_exp q)
  | PInf => PInf
  | NInf => Fin 0
  | NaN => NaN
  end.
Definition jsqrt `{Runtime} (a : jsnum) : jsnum :=
  match a with
  | Fin q => if Qltb q 0 then NaN else Fin (Math_sqrt q)
  | PInf => PInf
  | _ => NaN
  end.

(** The mutable state of the modules: the [lastIndex] of each pattern object
    of the two module-level arrays, and a counter of the calls made to the
    outside world (identifier generation, weight cache reads). *)
Record State := {
  st_comprehensive : nat -> nat;   (* COMPREHENSIVE_PRICE_PATTERNS[i].lastIndex *)
  st_price : nat -> nat;           (* PRICE_PATTERNS[i].lastIndex *)
  st_clock : nat
}.

Definition upd (f : nat -> nat) (i v : nat) : nat -> nat :=
  fun j => if j =? i then v else f j.

Definition zeros : nat -> nat := fun _ => 0.

(** The state of freshly loaded modules. *)
Definition init_state : State :=
  {| st_comprehensive := zeros; st_price := zeros; st_clock := 0 |}.

Definition M (A : Type) : Type := State -> A * State.
Definition ret {A} (a : A) : M A := fun st => (a, st).
Definition bind {A B} (m : M A) (f : A -> M B) : M B :=
  fun st => let (a, st') := m st in f a st'.

Declare Scope monad_scope.
Delimit Scope monad_scope with monad.
Notation "x <- m ;; k" := (bind m (fun x => k))
  (at level 61, m at next level, right associativity) : monad_scope.
Notation "m ;;; k" := (bind m (fun _ => k))
  (at level 61, right associativity) : monad_scope.
Local Open Scope monad_scope.

(** [patterns.some(p => p.test(text))] over shared global pattern objects
    whose [lastIndex] slots are [li i], [li (i+1)], ...: the patterns are
    tested in order until one matches, and each test leaves its mark. *)
Fixpoint some_test (ps : list RegExp) (i : nat) (text : jsstring)
    (li : nat -> nat) : bool * (nat -> nat) :=
  match ps with
  | [] => (false, li)
  | p :: ps' =>
    let (b, e) := test_global p text (li i) in
    if b then (true, upd li i e) else some_test ps' (S i) text (upd li i e)
  end.

(** Short-circuit conjunction and disjunction of effectful operands. *)
Definition andM (a b : M bool) : M bool :=
  x <- a ;; if x then b else ret false.
Definition orM (a b : M bool) : M bool :=
  x <- a ;; if x then ret true else b.

(* ================================================================== *)
(** * Text utilities ([regex.ts]) *)
(* ================================================================== *)

Module TextUtils.
Section WithRuntime.
  Context {RT : Runtime}.

  (** [(?:[.,]\d{2})?] *)
Definition opt_cents : regex := Re.opt Re.cents.

  (** [(?<!\w)(?:[c])\s?\d{1,3}(?:[.,]\d{2})?(?!\w)] *)
Definition symbol_then_number (c : string) : regex :=
    Re.seq [Re.not_behind_w; Re.ch c; Re.opt Re.s; Re.rep 1 3 Re.d; opt_cents;
            Re.not_ahead_w].

Definition PRICE_PATTERNS : list RegExp := [
    (* /(?<!\w)(?:[$])\s?\d{1,3}(?:[.,]\d{2})?(?!\w)/g *)
    mk_re (symbol_then_number "$");
    (* /(?<!\w)(?:[€])\s?\d{1,3}(?:[.,]\d{2})?(?!\w)|(?<!\w)\d{1,3}(?:[.,]\d{2})?\s?[€](?!\w)/g *)
    mk_re (Alt (symbol_then_number "€")
               (Re.seq [Re.not_behind_w; Re.rep 1 3 Re.d; opt_cents; Re.opt Re.s;
                        Re.ch "€"; Re.not_ahead_w]));
    (* /(?<!\w)(?:[£])\s?\d{1,3}(?:[.,]\d{2})?(?!\w)/g *)
    mk_re (symbol_then_number "£");
    (* /(?<!\w)(?:[¥])\s?\d{1,4}(?!\w)/g *)
    mk_re (Re.seq [Re.not_behind_w; Re.ch "¥"; Re.opt Re.s; Re.rep 1 4 Re.d;
                   Re.not_ahead_w]);
    (* /(?<!\w)\d{1,3}(?:[.,]\d{2})(?!\w)/g *)
    mk_re (Re.seq [Re.not_behind_w; Re.rep 1 3 Re.d; Re.cents; Re.not_ahead_w]);
    (* /(?<!\w)\d{1,3}(?:[.,]\d{2})?\s*$/g *)
    mk_re (Re.seq [Re.not_behind_w; Re.rep 1 3 Re.d; opt_cents; Re.star Re.s; Eol])
  ].

Definition SECTION_HEADERS : list jsstring := map js [
    "entrees"; "entrées"; "mains"; "main courses"; "main"; "specialties"; "specialities";
    "plates"; "plats"; "platos"; "secondi"; "secondi piatti"; "piatti principali";
    "a la carte"; "a la carte menu"; "from the grill"; "chef's specials";
    "house specialties"; "signature dishes"; "featured items";
    "plats principaux"; "plats"; "spécialités"; "specialites"; "à la carte";
    "secondi"; "piatti principali"; "specialità"; "specialita"; "alla griglia";
    "platos principales"; "platos"; "especialidades"; "a la carta"
  ]%string.

Definition BLACKLISTED_TERMS : list jsstring := map js [
    "appetizers"; "appetisers"; "starters"; "hors d'oeuvres"; "soups"; "salads";
    "sides"; "side dishes"; "desserts"; "beverages"; "drinks"; "beer";
    "cocktails"; "coffee"; "breakfast"; "lunch";
    "gluten free"; "contains nuts"; "dairy free"; "mild";
    "first course"; "second course"; "third course"; "main course";
    "ask server"
  ]%string.

Definition STOP_WORDS : list jsstring := map js [
    "a"; "an"; "and"; "the"; "of"; "in"; "on"; "at"; "to"; "for"; "with"; "by";
    "from"; "up"; "about"; "into"; "through"; "during"; "before"; "after";
    "above"; "below"; "between"; "among"; "under"; "over"; "around"; "near";
    "le"; "la"; "les"; "un"; "une"; "des"; "du"; "de"; "dans"; "sur"; "avec"; "pour";
    "par"; "sans"; "sous"; "entre"; "chez"; "vers"; "depuis"; "jusqu"; "pendant"
  ]%string.

Definition FRENCH_DESCRIPTIVE_WORDS : list jsstring := map js [
    "avec"; "servi"; "garni"; "frais"; "local"; "bio"; "organique";
    "ail"; "citron"; "beurre"; "pain"; "miettes"; "grillé"; "baguette";
    "assaisonné"; "mariné"; "rôti"; "grillé"; "frit"; "cuit à la vapeur";
    "accompagné"; "arrosé"; "sauté"; "fini"; "garni"; "sauce"; "jus";
    "cuit"; "préparé"; "mélangé"; "haché"; "coupé"; "émincé"; "tranché"
  ]%string.

  (** [containsPrice]: [PRICE_PATTERNS.some(pattern => pattern.test(text))]
      on the shared pattern objects. *)
Definition containsPrice (text : jsstring) : M bool := fun st =>
    let (b, li) := some_test PRICE_PATTERNS 0 text (st_price st) in
    (b, {| st_comprehensive := st_comprehensive st; st_price := li;
           st_clock := st_clock st |}).

Definition isSectionHeader (text : jsstring) : bool :=
    let normalizedText := trim (toLowerCase text) in
    existsb (fun header => includes normalizedText header
                           || includes header normalizedText) SECTION_HEADERS.

  (** [new RegExp(`\\b${escaped term}\\b`, 'i')]: the escaping makes every
      character of the term literal. *)
Definition wordBoundaryRegex (term : jsstring) : RegExp :=
    mk_re_i (Re.seq [WordB; Re.lit_js term; WordB]).

Definition containsBlacklistedTerms (text : jsstring) : bool :=
    let normalizedText := trim (toLowerCase text) in
    match find (fun term => re_test (wordBoundaryRegex term) normalizedText)
               BLACKLISTED_TERMS with
    | Some _ => true
    | None => false
    end.

Definition nonempty (x : jsstring) : bool := 0 <? List.length x.

Definition countMeaningfulWords (text : jsstring) : nat :=
    List.length
      (filter (fun word => nonempty word && negb (arr_includes STOP_WORDS word))
              (split re_spaces (toLowerCase text))).

  (** [(text.match(re) || []).length] for a one-character class. *)
Definition count_class (rs : list (N * N)) (text : jsstring) : nat :=
    List.length (match_all (mk_re (Cls (cls rs))) text).

Definition r_punct : list (N * N) := [one (chr ","); one (chr ";"); one (chr ":")].
Definition r_upper : list (N * N) := [(65, 90)%N].
Definition r_letter : list (N * N) := [(97, 122); (65, 90)]%N.

Definition calculatePunctuationDensity (text : jsstring) : Q :=
    Qnat (count_class r_punct text) / Qnat (Nat.max (List.length text) 1).

Definition isAllCaps (text : jsstring) : bool :=
    str_eqb text (toUpperCase text) && re_test (mk_re (Cls (cls r_upper))) text.

Definition isTitleCase (text : jsstring) : bool :=
    forallb (fun word =>
      (List.length word =? 0)
      || (str_eqb (firstn 1 word) (toUpperCase (firstn 1 word))
          && str_eqb (skipn 1 word) (toLowerCase (skipn 1 word))))
      (split re_spaces text).

Definition calculateLetterRatio (text : jsstring) : Q :=
    Qnat (count_class r_letter text) / Qnat (Nat.max (List.length text) 1).

Definition calculateUppercaseRatio (text : jsstring) : Q :=
    let upperCount := count_class r_upper text in
    let letterCount := count_class r_letter text in
    if 0 <? letterCount then Qnat upperCount / Qnat letterCount else 0.

Definition startsWithArticle (text : jsstring) : bool :=
    let firstWord := hd [] (split re_spaces (trim (toLowerCase text))) in
    arr_includes
      (map js ["a"; "an"; "the"; "le"; "la"; "les"; "un"; "une"; "il"; "lo";
               "la"; "el"; "los"; "las"]%string) firstWord.

Definition endsWithStopWord (text : jsstring) : bool :=
    let words := split re_spaces (trim (toLowerCase text)) in
    arr_includes STOP_WORDS (last words []).

Definition calculateAverageTokenLength (text : jsstring) : Q :=
    let tokens := filter nonempty (split re_spaces text) in
    if List.length tokens =? 0 then 0
    else Qnat (fold_left (fun sum token => sum + List.length token) tokens 0)
         / Qnat (List.length tokens).
End WithRuntime.
End TextUtils.

(* ================================================================== *)
(** * Price normalizer ([priceRemoval.ts]) *)
(* ================================================================== *)

Module PriceRemoval.
  Import TextUtils.

  (** [\d{1,4}(?:[.,]\d{2})?] *)
Definition amount : regex := Seq (Re.rep 1 4 Re.d) opt_cents.

Definition COMPREHENSIVE_PRICE_PATTERNS : list RegExp := [
    (* /[$€£¥]\s?\d{1,4}(?:[.,]\d{2})?/g *)
    mk_re (Re.seq [Re.currency; Re.opt Re.s; amount]);
    (* /\d{1,4}(?:[.,]\d{2})?\s?[$€£¥]/g *)
    mk_re (Re.seq [amount; Re.opt Re.s; Re.currency]);
    (* /\d{1,3}(?:[.,]\d{2})/g *)
    mk_re (Re.seq [Re.rep 1 3 Re.d; Re.cents]);
    (* /\d{1,4}(?:[.,]\d{2})?\s*$/g *)
    mk_re (Re.seq [amount; Re.star Re.s; Eol]);
    (* /^\s*\d{1,4}(?:[.,]\d{2})?\s+/g *)
    mk_re (Re.seq [Bol; Re.star Re.s; amount; Re.plus Re.s]);
    (* /\d{1,4}(?:[.,]\d{2})?\s*(?:euros?|dollars?|cents?|pounds?|yen)/gi *)
    mk_re_i (Re.seq [amount; Re.star Re.s;
                     Re.alt [Seq (Re.lit "euro") (Re.opt (Re.ch "s"));
                             Seq (Re.lit "dollar") (Re.opt (Re.ch "s"));
                             Seq (Re.lit "cent") (Re.opt (Re.ch "s"));
                             Seq (Re.lit "pound") (Re.opt (Re.ch "s"));
                             Re.lit "yen"]]);
    (* /(?<!\w)\d{3,4}(?!\w)/g *)
    mk_re (Re.seq [Re.not_behind_w; Re.rep 3 4 Re.d; Re.not_ahead_w]);
    (* /\d{1,4}\s*[.,]\s*\d{2}/g *)
    mk_re (Re.seq [Re.rep 1 4 Re.d; Re.star Re.s; Re.dot_comma; Re.star Re.s;
                   Re.rep 2 2 Re.d]);
    (* /\bmarket\s+price\b/gi *)
    mk_re_i (Re.seq [WordB; Re.lit "market"; Re.plus Re.s; Re.lit "price"; WordB])
  ].

  (** The literal [/\bmarket\s+price\b/gi] written in function bodies: a new
      object at each evaluation. *)
Definition re_market_price : RegExp :=
    mk_re_i (Re.seq [WordB; Re.lit "market"; Re.plus Re.s; Re.lit "price"; WordB]).
  (** [/\b\d{3,4}\b/g] *)
Definition re_standalone_3_4 : RegExp :=
    mk_re (Re.seq [WordB; Re.rep 3 4 Re.d; WordB]).
  (** [/\b\d{2,4}\b/] *)
Definition re_standalone_2_4 : RegExp :=
    mk_re (Re.seq [WordB; Re.rep 2 4 Re.d; WordB]).
  (** [/[$€£¥]/] *)
Definition re_currency : RegExp := mk_re Re.currency.

Definition set_comprehensive (li : nat -> nat) (st : State) : State :=
    {| st_comprehensive := li; st_price := st_price st; st_clock := st_clock st |}.

  (** [cleanedText.replace(pattern, '')] on a shared global pattern: the
      replacement itself starts from index 0 and leaves [lastIndex] at 0. *)
Fixpoint replace_each (ps : list RegExp) (i : nat) (text : jsstring)
      (li : nat -> nat) : jsstring * (nat -> nat) :=
    match ps with
    | [] => (text, li)
    | p :: ps' => replace_each ps' (S i) (replace_all p [] text) (upd li i 0)
    end.

Definition removeAllPrices (text : jsstring) : M jsstring := fun st =>
    let (cleanedText, li) :=
      replace_each COMPREHENSIVE_PRICE_PATTERNS 0 text (st_comprehensive st) in
    let cleanedText := replace_all re_standalone_3_4 [] cleanedText in
    let cleanedText := replace_all re_currency [] cleanedText in
    let cleanedText := trim (replace_all re_spaces (js " ") cleanedText) in
    (cleanedText, set_comprehensive li st).

Definition containsAnyPrice (text : jsstring) : M bool := fun st =>
    let (b, li) := some_test COMPREHENSIVE_PRICE_PATTERNS 0 text (st_comprehensive st) in
    (b || re_test re_market_price text, set_comprehensive li st).

  (** [text.match(pattern)] on each shared pattern resets its [lastIndex]. *)
Fixpoint match_each (ps : list RegExp) (i : nat) (text : jsstring)
      (li : nat -> nat) : list jsstring * (nat -> nat) :=
    match ps with
    | [] => ([], li)
    | p :: ps' =>
      let (rest, li') := match_each ps' (S i) text (upd li i 0) in
      (match_all p text ++ rest, li')
    end.

Definition extractAllPrices (text : jsstring) : M (list jsstring) := fun st =>
    let (prices, li) :=
      match_each COMPREHENSIVE_PRICE_PATTERNS 0 text (st_comprehensive st) in
    (prices ++ match_all re_market_price text, set_comprehensive li st).

Definition validateNoPrices (text : jsstring) : M bool :=
    hasPrices <- containsAnyPrice text ;;
    let hasStandaloneNumbers := re_test re_standalone_2_4 text in
    let hasCurrencySymbols := re_test re_currency text in
    let hasMarketPrice := re_test re_market_price text in
    ret (negb hasPrices && negb hasStandaloneNumbers && negb hasCurrencySymbols
         && negb hasMarketPrice).

  (** [/[^\w\s\-'&]/g] *)
Definition re_not_name_char : RegExp :=
    mk_re (Cls (ncls (r_word ++ r_space
                      ++ [one (chr "-"); one (chr "'"); one (chr "&")]))).

  (** [normalizeTextWithPriceRemoval]: the prices, then the punctuation and
      the digits are removed, the white space normalised before and after. *)
Definition normalizeTextWithPriceRemoval (text : jsstring) : M jsstring :=
    normalized <- removeAllPrices text ;;
    ret (trim (replace_all re_spaces (js " ")
                 (replace_all (mk_re Re.d) []
                    (replace_all re_not_name_char []
                       (replace_all re_spaces (js " ") (trim normalized)))))).
End PriceRemoval.

(* ================================================================== *)
(** * Header and structure detector ([headers.ts]) *)
(* ================================================================== *)

Module Headers.
  Import TextUtils.

Record SectionHeader := {
    h_text : jsstring;
    h_confidence : jsnum;
    h_lineIndex : nat
  }.

  (** The value of a property of a word vector: a count, or a value that is
      not a number. The vector is a plain object, so reading a name that it
      does not own yields the member that objects inherit under that name,
      when there is one: a function for eleven names, the prototype object
      for [__proto__]. Adding 1 to such a value gives a text, which is what
      the update then stores, and in a product it counts as NaN. *)
Inductive Entry := Count (n : nat) | NotNumber.

  (** A word-frequency vector: the own properties of the object, in
      insertion order. (The engine lists index-like names first; the sums
      below do not depend on the order.) *)
Definition WordVector := list (jsstring * Entry).

Fixpoint get (v : WordVector) (key : jsstring) : option Entry :=
    match v with
    | [] => None
    | (k, e) :: v' => if str_eqb k key then Some e else get v' key
    end.

Fixpoint set (v : WordVector) (key : jsstring) (e : Entry) : WordVector :=
    match v with
    | [] => [(key, e)]
    | (k, m) :: v' => if str_eqb k key then (k, e) :: v' else (k, m) :: set v' key e
    end.

  (** [v[key] || 0] *)
Definition get0 (v : WordVector) (key : jsstring) : Entry :=
    match get v key with
    | Some e => e
    | None => if inherited key then NotNumber else Count 0
    end.

  (** [value + 1] *)
Definition plus1 (e : Entry) : Entry :=
    match e with
    | Count n => Count (n + 1)
    | NotNumber => NotNumber
    end.

  (** The operand of a product. *)
Definition numberOf (e : Entry) : jsnum :=
    match e with
    | Count n => Fin (Qnat n)
    | NotNumber => NaN
    end.

  (** [vector[word] = (vector[word] || 0) + 1]: the assignment to
      [__proto__] goes to the inherited setter, which ignores a value that
      is not an object; any other name becomes an own property. *)
Definition countWord (vector : WordVector) (word : jsstring) : WordVector :=
    if str_eqb word protoName then vector
    else set vector word (plus1 (get0 vector word)).

Definition createWordVector (words : list jsstring) : WordVector :=
    fold_left countWord words [].

  (** [new Set([...keys1, ...keys2])]: first occurrences, in order. *)
Fixpoint dedup (seen l : list jsstring) : list jsstring :=
    match l with
    | [] => []
    | k :: l' => if arr_includes seen k then dedup seen l'
                 else k :: dedup (k :: seen) l'
    end.

Definition calculateDotProduct (vector1 vector2 : WordVector) : jsnum :=
    let allKeys := dedup [] (map fst vector1 ++ map fst vector2) in
    fold_left (fun dotProduct key =>
                 jadd dotProduct
                      (jmul (numberOf (get0 vector1 key)) (numberOf (get0 vector2 key))))
              allKeys (Fin 0).

  Section WithRuntime.
  Context {RT : Runtime}.

Definition calculateMagnitude (vector : WordVector) : jsnum :=
    jsqrt (fold_left (fun sum kv =>
                        jadd sum (jmul (numberOf (snd kv)) (numberOf (snd kv))))
                     vector (Fin 0)).

Definition words_of (str : jsstring) : list jsstring :=
    filter nonempty (split re_spaces str).

Definition calculateSimilarity (str1 str2 : jsstring) : jsnum :=
    let words1 := words_of str1 in
    let words2 := words_of str2 in
    if (List.length words1 =? 0) || (List.length words2 =? 0) then Fin 0
    else
      let vector1 := createWordVector words1 in
      let vector2 := createWordVector words2 in
      let dotProduct := calculateDotProduct vector1 vector2 in
      let magnitude1 := calculateMagnitude vector1 in
      let magnitude2 := calculateMagnitude vector2 in
      if jis0 magnitude1 || jis0 magnitude2 then Fin 0
      else jdiv dotProduct (jmul magnitude1 magnitude2).

  (** [/[^\w\s]/g] *)
Definition re_punctuation : RegExp := mk_re (Cls (ncls (r_word ++ r_space))).

Definition normalizeText (text : jsstring) : jsstring :=
    replace_all re_spaces (js " ")
      (replace_all re_punctuation [] (trim (toLowerCase text))).

  (** [/[$€£¥]\s?\d|^\d+[.,]\d{2}$/] *)
Definition re_hasPrice : RegExp :=
    mk_re (Alt (Re.seq [Re.currency; Re.opt Re.s; Re.d])
               (Re.seq [Bol; Re.plus Re.d; Re.dot_comma; Re.rep 2 2 Re.d; Eol])).

Definition foodWords : list jsstring := map js
    ["chicken"; "beef"; "pork"; "fish"; "salmon"; "pasta"; "pizza"; "soup";
     "salad"; "bread"; "rice"; "noodles"]%string.

Definition maxSimilarityOf (normalizedLine : jsstring) : jsnum :=
    fold_left (fun maxSimilarity header =>
                 jmax maxSimilarity (calculateSimilarity normalizedLine header))
              SECTION_HEADERS (Fin 0).

Definition penaltyOf (hasPrice isShort containsFoodWords : bool) : Q :=
    ((if hasPrice then 5 # 10 else 0)
     + (if negb isShort then 3 # 10 else 0)
     + (if containsFoodWords then 4 # 10 else 0))%Q.

Definition calculateHeaderConfidence (line : jsstring) : jsnum :=
    let normalizedLine := normalizeText line in
    let maxSimilarity := maxSimilarityOf normalizedLine in
    let hasPrice := re_test re_hasPrice line in
    let wordCount := List.length (words_of normalizedLine) in
    let isShort := wordCount <=? 4 in
    let containsFoodWords := existsb (fun word => includes normalizedLine word) foodWords in
    jmax (Fin 0) (jsub maxSimilarity (Fin (penaltyOf hasPrice isShort containsFoodWords))).

  (** The loop of [detectSectionHeaders], from line index [i]. *)
Fixpoint detect_from (i : nat) (lines : list jsstring) : list SectionHeader :=
    match lines with
    | [] => []
    | l :: rest =>
      let line := trim l in
      if List.length line =? 0 then detect_from (S i) rest
      else
        let confidence := calculateHeaderConfidence line in
        if jgtb confidence (Fin (5 # 10))
        then {| h_text := line; h_confidence := confidence; h_lineIndex := i |}
             :: detect_from (S i) rest
        else detect_from (S i) rest
    end.

Definition detectSectionHeaders (lines : list jsstring) : list SectionHeader :=
    detect_from 0 lines.

  (** The loop of [findNearestHeaderAbove]; [minDistance = None] stands for
      [Infinity]. *)
Fixpoint nearest_loop (lineIndex maxDistance : nat) (headers : list SectionHeader)
      (nearestHeader : option SectionHeader) (minDistance : option nat)
    : option SectionHeader :=
    match headers with
    | [] => nearestHeader
    | header :: rest =>
      if h_lineIndex header <? lineIndex then
        let distance := lineIndex - h_lineIndex header in
        if (distance <=? maxDistance)
           && match minDistance with None => true | Some m => distance <? m end
        then nearest_loop lineIndex maxDistance rest (Some header) (Some distance)
        else nearest_loop lineIndex maxDistance rest nearestHeader minDistance
      else nearest_loop lineIndex maxDistance rest nearestHeader minDistance
    end.

Definition findNearestHeaderAbove (lineIndex : nat) (headers : list SectionHeader)
      (maxDistance : nat) : option SectionHeader :=
    nearest_loop lineIndex maxDistance headers None None.

Definition entreeKeywords : list jsstring := map js
    ["entree"; "entrées"; "mains"; "main courses"; "secondi"; "piatti principali";
     "plats principaux"; "platos principales"]%string.

Definition isUnderEntreeHeader (lineIndex : nat) (headers : list SectionHeader) : bool :=
    match findNearestHeaderAbove lineIndex headers 10 with
    | None => false
    | Some nearestHeader =>
      let headerText := toLowerCase (h_text nearestHeader) in
      existsb (fun keyword => includes headerText keyword) entreeKeywords
    end.
  End WithRuntime.
End Headers.

(* ================================================================== *)
(** * Entree lookup ([entreeLookup.ts]) *)
(* ================================================================== *)

Module EntreeLookup.
  Import TextUtils.

Inductive MatchType := exact | partial | fuzzy.

Record EntreeMatch := {
    id : jsstring;
    name : jsstring;
    normalized_name : jsstring;
    category : option jsstring;
    popularity_score : option Q;
    confidence_boost : Q;
    match_type : MatchType
  }.

  (** A row of the [common_entrees] table. *)
Record Row := {
    row_id : jsstring;
    row_entree_name : jsstring;
    row_category : option jsstring;
    row_popularity_score : option Q
  }.

  (** What awaiting a query of the store yields: the promise rejects, or it
      resolves to a [{ data, error }] pair. *)
Inductive Reply (A : Type) : Type :=
  | Rejected
  | Resolved (data : option A) (error : bool).
  Arguments Rejected {A}.
  Arguments Resolved {A} data error.

Inductive Client := serviceClient | regularClient.

  (** The external dictionary store, as seen through the client library. *)
Record Store := {
    (** [createServiceClient()] returns rather than throws *)
    createServiceClient_ok : bool;
    (** [await import('../supabase')] resolves *)
    import_ok : bool;
    (** [from('common_entrees').select('count').limit(1)] *)
    testQuery : Client -> Reply unit;
    (** [.select('*').ilike('entree_name', normalized).limit(1).single()] *)
    exactQuery : Client -> jsstring -> Reply Row;
    (** [.select('*').or(...ilike...).limit(5)] *)
    partialQuery : Client -> jsstring -> Reply (list Row);
    (** [.select('*').limit(20)] *)
    fuzzyQuery : Client -> Reply (list Row)
  }.

  (** [Math.min(a, b, c)] on lengths. *)
Definition min3 (a b c : nat) : nat := Nat.min (Nat.min a b) c.

  (** One row of the distance matrix: [prev] is row [i-1] from column [j-1],
      [left] is [matrix[i][j-1]], [c2] is [str2.charAt(i-1)]. *)
Fixpoint lev_row (c2 : N) (str1 : jsstring) (prev : list nat) (left : nat)
    : list nat :=
    match str1, prev with
    | c1 :: str1', diag :: ((up :: _) as prev') =>
      let v := if (c2 =? c1)%N then diag
               else min3 (diag + 1) (left + 1) (up + 1) in
      v :: lev_row c2 str1' prev' v
    | _, _ => []
    end.

Fixpoint lev_rows (str1 str2 : jsstring) (i : nat) (prev : list nat) : list nat :=
    match str2 with
    | [] => prev
    | c2 :: str2' => lev_rows str1 str2' (S i) (S i :: lev_row c2 str1 prev (S i))
    end.

Definition levenshteinDistance (str1 str2 : jsstring) : nat :=
    last (lev_rows str1 str2 0 (seq 0 (S (List.length str1)))) 0.

Definition calculatePartialMatchScore (text1 text2 : jsstring) : Q :=
    let longer := if List.length text2 <? List.length text1 then text1 else text2 in
    let shorter := if List.length text2 <? List.length text1 then text2 else text1 in
    if List.length longer =? 0 then 1%Q
    else
      let distance := levenshteinDistance longer shorter in
      ((Qnat (List.length longer) - Qnat distance) / Qnat (List.length longer))%Q.

Definition calculateWordSimilarity (word1 word2 : jsstring) : Q :=
    let distance := levenshteinDistance word1 word2 in
    let maxLength := Nat.max (List.length word1) (List.length word2) in
    if maxLength =? 0 then 1%Q
    else ((Qnat maxLength - Qnat distance) / Qnat maxLength)%Q.

Definition long_words (text : jsstring) : list jsstring :=
    filter (fun w => 2 <? List.length w) (split re_spaces text).

Definition bestMatchOf (word1 : jsstring) (words2 : list jsstring) : Q :=
    fold_left (fun bestMatch word2 =>
                 Math_max bestMatch (calculateWordSimilarity word1 word2))
              words2 0%Q.

Definition calculateFuzzyMatchScore (text1 text2 : jsstring) : Q :=
    if (List.length text1 =? 0) || (List.length text2 =? 0) then 0%Q
    else
      let words1 := long_words text1 in
      let words2 := long_words text2 in
      if (List.length words1 =? 0) || (List.length words2 =? 0) then 0%Q
      else
        let '(totalScore, matchCount) :=
          fold_left (fun acc word1 =>
                       let bestMatch := bestMatchOf word1 words2 in
                       ((fst acc + bestMatch)%Q,
                        if Qgtb bestMatch (7 # 10) then S (snd acc) else snd acc))
                    words1 (0%Q, 0) in
        let avgSimilarity := (totalScore / Qnat (List.length words1))%Q in
        let matchRatio := (Qnat matchCount / Qnat (List.length words1))%Q in
        (avgSimilarity * (7 # 10) + matchRatio * (3 # 10))%Q.

  (** [rows.reduce((best, current) => score(current) > score(best) ? current : best)] *)
Definition best_by (score : Row -> Q) (first : Row) (rest : list Row) : Row :=
    fold_left (fun best current =>
                 if Qgtb (score current) (score best) then current else best)
              rest first.

Definition mkMatch (r : Row) (boost : Q) (t : MatchType) : EntreeMatch :=
    {| id := row_id r; name := row_entree_name r;
       normalized_name := row_entree_name r;
       category := row_category r; popularity_score := row_popularity_score r;
       confidence_boost := boost; match_type := t |}.

  (** The outcome of the body of the [try] block: an exception, or the value
      returned. *)
Inductive Outcome (A : Type) : Type :=
  | Threw
  | Returned (a : A).
  Arguments Threw {A}.
  Arguments Returned {A} a.

  Section WithRuntime.
  Context {RT : Runtime}.

  (** [text.toLowerCase().replace(/[^\w\s]/g, '').trim()] *)
Definition normalize (text : jsstring) : jsstring :=
    trim (replace_all Headers.re_punctuation [] (toLowerCase text)).

  (** Step 3 of the lookup. *)
Definition fuzzyStep (db : Store) (supabase : Client) (normalized : jsstring)
    : Outcome (option EntreeMatch) :=
    let words := long_words normalized in
    if 0 <? List.length words then
      match fuzzyQuery db supabase with
      | Rejected => Threw
      | Resolved (Some (first :: rest)) false =>
        let bestFuzzyMatch :=
          best_by (fun r => calculateFuzzyMatchScore normalized (row_entree_name r))
                  first rest in
        let fuzzyScore :=
          calculateFuzzyMatchScore normalized (row_entree_name bestFuzzyMatch) in
        if Qgtb fuzzyScore (6 # 10)
        then Returned (Some (mkMatch bestFuzzyMatch (7 # 10) fuzzy))
        else Returned None
      | Resolved _ _ => Returned None
      end
    else Returned None.

  (** Step 2 of the lookup, falling through to step 3. *)
Definition partialStep (db : Store) (supabase : Client) (normalized : jsstring)
    : Outcome (option EntreeMatch) :=
    match partialQuery db supabase normalized with
    | Rejected => Threw
    | Resolved (Some (first :: rest)) false =>
      let bestMatch :=
        best_by (fun r => calculatePartialMatchScore normalized (row_entree_name r))
                first rest in
      let matchScore := calculatePartialMatchScore normalized (row_entree_name bestMatch) in
      if Qgtb matchScore (7 # 10)
      then Returned (Some (mkMatch bestMatch (8 # 10) partial))
      else fuzzyStep db supabase normalized
    | Resolved _ _ => fuzzyStep db supabase normalized
    end.

  (** The body of the [try] block of [findEntreeMatch]. *)
Definition findEntreeMatch_try (db : Store) (text : jsstring)
    : Outcome (option EntreeMatch) :=
    match (if createServiceClient_ok db then Some serviceClient
           else if import_ok db then Some regularClient else None) with
    | None => Threw
    | Some supabase =>
      let normalized := normalize text in
      match testQuery db supabase with
      | Rejected => Threw
      | Resolved _ true => Returned None
      | Resolved _ false =>
        match exactQuery db supabase normalized with
        | Rejected => Threw
        | Resolved (Some exactMatch) false =>
          Returned (Some (mkMatch exactMatch (95 # 100) exact))
        | Resolved _ _ => partialStep db supabase normalized
        end
      end
    end.

  (** [findEntreeMatch]: the [catch] clause turns any exception into [null]. *)
Definition findEntreeMatch (db : Store) (text : jsstring) : option EntreeMatch :=
    match findEntreeMatch_try db text with
    | Threw => None
    | Returned r => r
    end.

  (** The [Map] of [findEntreeMatches]: its entries in insertion order;
      [set] on a key already present replaces the value in place. *)
Definition ResultMap := list (jsstring * option EntreeMatch).

Fixpoint map_get (results : ResultMap) (key : jsstring) : option (option EntreeMatch) :=
    match results with
    | [] => None
    | (k, v) :: rest => if str_eqb k key then Some v else map_get rest key
    end.

Fixpoint map_set (results : ResultMap) (key : jsstring) (value : option EntreeMatch)
    : ResultMap :=
    match results with
    | [] => [(key, value)]
    | (k, v) :: rest =>
      if str_eqb k key then (k, value) :: rest else (k, v) :: map_set rest key value
    end.

  (** [texts.slice(a, b)] for indices within range order. *)
Definition slice {A} (l : list A) (a b : nat) : list A := firstn (b - a) (skipn a l).

Definition batchSize : nat := 10.

  (** The loop over the batches, from index [i]. [findEntreeMatch] catches
      every exception, so no promise of a batch rejects, and
      [batchResults[index]] is the result for [batch[index]]. *)
Fixpoint batches_loop (fuel : nat) (db : Store) (texts : list jsstring) (i : nat)
      (results : ResultMap) : ResultMap :=
    match fuel with
    | O => results
    | S fuel' =>
      if i <? List.length texts then
        let batch := slice texts i (i + batchSize) in
        let batchResults := map (findEntreeMatch db) batch in
        let results :=
          fold_left (fun results ti =>
                       map_set results (fst ti) (nth (snd ti) batchResults None))
                    (combine batch (seq 0 (List.length batch))) results in
        batches_loop fuel' db texts (i + batchSize) results
      else results
    end.

  (** [findEntreeMatches]: the index grows by [batchSize] at each turn, so
      the loop ends within [texts.length] turns. *)
Definition findEntreeMatches (db : Store) (texts : list jsstring) : ResultMap :=
    batches_loop (S (List.length texts)) db texts 0 [].
  End WithRuntime.
End EntreeLookup.

(* ================================================================== *)
(** * Candidate extractor and confidence scorer ([extractCandidates.ts]) *)
(* ================================================================== *)

Module Extract.
  Import TextUtils PriceRemoval Headers EntreeLookup.

Record OcrBoundingBox := { x : Q; y : Q; w : Q; h : Q }.

Record OcrWord := {
    word_text : jsstring;
    word_bbox : OcrBoundingBox;
    word_confidence : Q
  }.

  (** The code guards every use of [bbox], so the field is optional here. *)
Record OcrLine := {
    line_text : jsstring;
    line_bbox : option OcrBoundingBox;
    line_words : list OcrWord;
    line_confidence : Q
  }.

Record CandidateFeatures := {
    tokenCount : Q;
    hasDigits : Q;
    hasCurrency : Q;
    f_isAllCaps : Q;
    f_isTitleCase : Q;
    priceSameLine : Q;
    priceNextLines1to3 : Q;
    underEntreeHeader : Q;
    punctDensity : Q;
    nextLineDescription : Q;
    prevLineHeader : Q;
    uppercaseRatio : Q;
    lettersRatio : Q;
    avgTokenLen : Q;
    f_startsWithArticle : Q;
    endsWithStop : Q;
    fontSizeRatio : Q;
    f_confidence : Q
  }.

Record Candidate := {
    c_id : jsstring;
    c_page : Q;
    c_text : jsstring;
    c_bbox : option OcrBoundingBox;
    c_headerContext : option jsstring;
    c_priceContext : list jsstring;
    c_features : CandidateFeatures;
    c_confidence : jsnum;
    c_databaseMatch : option EntreeMatch
  }.

  (** The trained weights: a mapping from feature name to weight, as the
      entries of the object. *)
Definition TrainedWeights := list (jsstring * jsnum).

  (** What a run receives from outside: the identifiers produced by
      [uuidv4], the content of the weight cache at each read (a refresh may
      land between two reads) and the dictionary store. *)
Record World := {
    uuidv4 : nat -> jsstring;
    trainedWeightsCache : nat -> option TrainedWeights;
    store : Store
  }.

Definition tick : M nat := fun st =>
    (st_clock st,
     {| st_comprehensive := st_comprehensive st; st_price := st_price st;
        st_clock := S (st_clock st) |}).

  (** A number used as a condition. *)
Definition truthy (q : Q) : bool := negb (Qis0 q).
Definition flag (b : bool) : Q := if b then 1 else 0.

  (** [features[key] || 0] as the operand of a product: the feature of that
      name; for a name that the object literal inherits, the inherited
      member, which is not a number; [undefined || 0] otherwise. *)
Definition feature (f : CandidateFeatures) (key : jsstring) : jsnum :=
    let named k := str_eqb key (js k) in
    if named "tokenCount"%string then Fin (tokenCount f)
    else if named "hasDigits"%string then Fin (hasDigits f)
    else if named "hasCurrency"%string then Fin (hasCurrency f)
    else if named "isAllCaps"%string then Fin (f_isAllCaps f)
    else if named "isTitleCase"%string then Fin (f_isTitleCase f)
    else if named "priceSameLine"%string then Fin (priceSameLine f)
    else if named "priceNextLines1to3"%string then Fin (priceNextLines1to3 f)
    else if named "underEntreeHeader"%string then Fin (underEntreeHeader f)
    else if named "punctDensity"%string then Fin (punctDensity f)
    else if named "nextLineDescription"%string then Fin (nextLineDescription f)
    else if named "prevLineHeader"%string then Fin (prevLineHeader f)
    else if named "uppercaseRatio"%string then Fin (uppercaseRatio f)
    else if named "lettersRatio"%string then Fin (lettersRatio f)
    else if named "avgTokenLen"%string then Fin (avgTokenLen f)
    else if named "startsWithArticle"%string then Fin (f_startsWithArticle f)
    else if named "endsWithStop"%string then Fin (endsWithStop f)
    else if named "fontSizeRatio"%string then Fin (fontSizeRatio f)
    else if named "confidence"%string then Fin (f_confidence f)
    else if inherited key then NaN
    else Fin 0.

Definition boostOf (databaseMatch : option EntreeMatch) : Q :=
    match databaseMatch with
    | Some m => confidence_boost m
    | None => 0
    end.

  Section WithRuntime.
  Context {RT : Runtime}.

  Local Open Scope Q_scope.

Definition calculateTrainedConfidenceScore (features : CandidateFeatures)
      (weights : TrainedWeights) (databaseMatch : option EntreeMatch) : jsnum :=
    let score := Fin ((1 # 10) + boostOf databaseMatch) in
    let score :=
      fold_left (fun score kw =>
                   let featureValue := feature features (fst kw) in
                   jadd score (jmul featureValue (snd kw)))
                weights score in
    let normalizedScore := jdiv (Fin 1) (jadd (Fin 1) (jexp (jneg score))) in
    jmax (Fin 0) (jmin (Fin 1) normalizedScore).

  (** The heuristic part of [calculateConfidenceScore]. *)
Definition heuristicScore (features : CandidateFeatures)
      (databaseMatch : option EntreeMatch) : Q :=
    let score := (1 # 10) + boostOf databaseMatch in
    let score :=
      if Qgeb (tokenCount features) 2 && Qle_bool (tokenCount features) 6
      then score + (3 # 10)
      else if Qeq_bool (tokenCount features) 1 || Qgtb (tokenCount features) 8
           then score - (2 # 10) else score in
    let score := if truthy (priceSameLine features) then score + (2 # 10) else score in
    let score := if truthy (priceNextLines1to3 features) then score + (15 # 100) else score in
    let score := if truthy (underEntreeHeader features) then score + (25 # 100) else score in
    let score := if truthy (f_isTitleCase features) then score + (2 # 10) else score in
    let score := if truthy (f_isAllCaps features) then score + (35 # 100) else score in
    let score :=
      if Qgtb (fontSizeRatio features) (15 # 10) then score + (35 # 100)
      else if Qgtb (fontSizeRatio features) (13 # 10) then score + (3 # 10)
      else if Qgtb (fontSizeRatio features) (11 # 10) then score + (2 # 10)
      else if Qgtb (fontSizeRatio features) 1 then score + (15 # 100)
      else if Qltb (fontSizeRatio features) (8 # 10) then score - (15 # 100)
      else score in
    let score := if truthy (hasDigits features) then score - (3 # 10) else score in
    let score := if truthy (hasCurrency features) then score - (2 # 10) else score in
    let score := if Qgtb (punctDensity features) (1 # 10) then score - (15 # 100) else score in
    let score := if truthy (nextLineDescription features) then score + (1 # 10) else score in
    let score := if Qltb (lettersRatio features) (7 # 10) then score - (2 # 10) else score in
    Math_max 0 (Math_min 1 score).

  Local Close Scope Q_scope.

  (** [getTrainedModelWeights]: whatever the branch taken, the value
      returned is the current content of the module-level cache. *)
Definition getTrainedModelWeights (W : World) : M (option TrainedWeights) :=
    k <- tick ;; ret (trainedWeightsCache W k).

Definition calculateConfidenceScore (W : World) (features : CandidateFeatures)
      (databaseMatch : option EntreeMatch) : M jsnum :=
    trainedWeights <- getTrainedModelWeights W ;;
    match trainedWeights with
    | Some weights => ret (calculateTrainedConfidenceScore features weights databaseMatch)
    | None => ret (Fin (heuristicScore features databaseMatch))
    end.

  (* ---------------------------------------------------------------- *)
  (** ** Visual hierarchy *)

Definition has_height (l : OcrLine) : option Q :=
    match line_bbox l with
    | Some b => if truthy (h b) && Qgtb (h b) 0 then Some (h b) else None
    | None => None
    end.

Fixpoint somes {A} (l : list (option A)) : list A :=
    match l with
    | [] => []
    | Some a :: l' => a :: somes l'
    | None :: l' => somes l'
    end.

Definition Qsum (l : list Q) : Q := fold_left Qplus l 0%Q.

Definition calculateFontSizeRatio (line : OcrLine) (allLines : list OcrLine) : Q :=
    match line_bbox line with
    | None => 1
    | Some bbox =>
      if negb (truthy (h bbox)) then 1
      else
        let heights := somes (map has_height allLines) in
        if List.length heights =? 0 then 1
        else
          let avgHeight := (Qsum heights / Qnat (List.length heights))%Q in
          (h bbox / avgHeight)%Q
    end.

  (** [isBoldText]. The product [avgConfidence * 0.8] is exact here; the
      program rounds it, which can matter only when the confidence of the
      line equals the exact product. *)
Definition isBoldText (line : OcrLine) (allLines : list OcrLine) : bool :=
    if negb (truthy (line_confidence line)) then false
    else
      let confidences := map line_confidence allLines in
      if List.length confidences =? 0 then false
      else
        let avgConfidence := (Qsum confidences / Qnat (List.length confidences))%Q in
        let fontSizeRatio := calculateFontSizeRatio line allLines in
        let isLowConfidence := Qltb (line_confidence line) (avgConfidence * (8 # 10))%Q in
        let isLargerFont := Qgtb fontSizeRatio (11 # 10) in
        isLowConfidence || isLargerFont.

  (** The characters of [\s\-'&] *)
Definition r_joiners : list (N * N) :=
    r_space ++ [one (chr "-"); one (chr "'"); one (chr "&")].
  (** The characters of [A-ZÀÁÂÃÄÅÆÇÈÉÊËÌÍÎÏÐÑÒÓÔÕÖØÙÚÛÜÝÞ] *)
Definition r_upper_accented : list (N * N) :=
    (65, 90)%N :: map one (js "ÀÁÂÃÄÅÆÇÈÉÊËÌÍÎÏÐÑÒÓÔÕÖØÙÚÛÜÝÞ").

Definition isAllCapsText (text : jsstring) : bool :=
    (* /[\s\-'&]/g *)
    let cleanText := replace_all (mk_re (Cls (cls r_joiners))) [] text in
    (0 <? List.length cleanText)
    && str_eqb cleanText (toUpperCase cleanText)
    && re_test (mk_re (Cls (cls r_upper_accented))) cleanText.

Definition bbox_y (l : OcrLine) : option Q :=
    match line_bbox l with
    | Some b => if truthy (y b) then Some (y b) else None
    | None => None
    end.

  (** [previous.bbox.y + previous.bbox.h] when both are set and non-zero. *)
Definition bbox_bottom (l : OcrLine) : option Q :=
    match line_bbox l with
    | Some b => if truthy (y b) && truthy (h b) then Some (y b + h b)%Q else None
    | None => None
    end.

  (** The loop over consecutive lines of [calculateSpacingScore]. *)
Fixpoint spacing_loop (previous : OcrLine) (rest : list OcrLine)
      (totalSpacing : Q) (spacingCount : nat) : Q * nat :=
    match rest with
    | [] => (totalSpacing, spacingCount)
    | current :: rest' =>
      match bbox_y current, bbox_bottom previous with
      | Some cy, Some pb =>
        let spacing := (cy - pb)%Q in
        if Qgtb spacing 0
        then spacing_loop current rest' (totalSpacing + spacing)%Q (S spacingCount)
        else spacing_loop current rest' totalSpacing spacingCount
      | _, _ => spacing_loop current rest' totalSpacing spacingCount
      end
    end.

  (** [lineIndex] is [allLines.indexOf(line)]: the line objects of a page are
      pairwise distinct, so it is the index the line was read at. *)
Definition calculateSpacingScore (line : OcrLine) (lineIndex : nat)
      (allLines : list OcrLine) : Q :=
    match bbox_y line with
    | None => 0
    | Some ly =>
      match lineIndex with
      | O => 0
      | S prevIndex =>
        match nth_error allLines prevIndex with
        | None => 0
        | Some prevLine =>
          match bbox_bottom prevLine with
          | None => 0
          | Some pb =>
            let spacingAbove := (ly - pb)%Q in
            let '(totalSpacing, spacingCount) :=
              match allLines with
              | [] => (0%Q, 0)
              | first :: rest => spacing_loop first rest 0%Q 0
              end in
            if spacingCount =? 0 then 0
            else
              let avgSpacing := (totalSpacing / Qnat spacingCount)%Q in
              let spacingRatio := (spacingAbove / avgSpacing)%Q in
              if Qgtb spacingRatio 2 then 2 # 10
              else if Qgtb spacingRatio (15 # 10) then 15 # 100
              else if Qgtb spacingRatio (12 # 10) then 1 # 10
              else 0
          end
        end
      end
    end.

  (** [nearbyLines.some(l => l !== line && containsAnyPrice(l.text))]: the
      lines at indices [from], [from+1], ..., skipping index [lineIndex]. *)
Fixpoint nearby_some (lineIndex from : nat) (nearbyLines : list OcrLine) : M bool :=
    match nearbyLines with
    | [] => ret false
    | l :: rest =>
      if from =? lineIndex then nearby_some lineIndex (S from) rest
      else orM (containsAnyPrice (line_text l)) (nearby_some lineIndex (S from) rest)
    end.

Definition calculateVisualHierarchyScore (line : OcrLine) (lineIndex : nat)
      (allLines : list OcrLine) : M Q :=
    let score := if isAllCapsText (line_text line) then (5 # 10)%Q else 0%Q in
    let fontSizeRatio := calculateFontSizeRatio line allLines in
    let score :=
      (if Qgtb fontSizeRatio (15 # 10) then score + (4 # 10)
       else if Qgtb fontSizeRatio (13 # 10) then score + (35 # 100)
       else if Qgtb fontSizeRatio (11 # 10) then score + (25 # 100)
       else if Qgtb fontSizeRatio 1 then score + (15 # 100)
       else score)%Q in
    let score := if isBoldText line allLines then (score + (3 # 10))%Q else score in
    hasPriceOnLine <- containsAnyPrice (line_text line) ;;
    let score := if hasPriceOnLine then (score + (3 # 10))%Q else score in
    let from := Nat.max 0 (lineIndex - 2) in
    let to := Nat.min (List.length allLines) (lineIndex + 3) in
    let nearbyLines := firstn (to - from) (skipn from allLines) in
    hasNearbyPrice <- nearby_some lineIndex from nearbyLines ;;
    let score := if hasNearbyPrice then (score + (15 # 100))%Q else score in
    let spacingScore := calculateSpacingScore line lineIndex allLines in
    let score := (score + spacingScore)%Q in
    ret (Math_min 1 score).

  (* ---------------------------------------------------------------- *)
  (** ** Validity gate *)

Definition invalidStartWords : list jsstring := map js
    ["and"; "or"; "with"; "including"; "served"; "topped"; "garnished"]%string.

  (** [/[.,]\s/] *)
Definition re_middle_punct : RegExp := mk_re (Seq Re.dot_comma Re.s).

Definition isValidEntreeName (text : jsstring) : M bool :=
    let normalizedText := trim (toLowerCase text) in
    let startsWithInvalid :=
      existsb (fun word => startsWith normalizedText (word ++ js " ")) invalidStartWords in
    if startsWithInvalid then ret false
    else if re_test re_middle_punct text then ret false
    else if List.length normalizedText <? 4 then ret false
    else
      let wordCount := List.length (filter nonempty (split re_spaces normalizedText)) in
      if wordCount <? 2 then ret false
      else
        ok <- validateNoPrices text ;;
        if negb ok then ret false else ret true.

  (* ---------------------------------------------------------------- *)
  (** ** Description and restaurant-name filters *)

Definition descriptiveWords : list jsstring := map js
    ["with"; "served"; "topped"; "garnished"; "fresh"; "local"; "organic";
     "garlic"; "lemon"; "butter"; "sourdough"; "crumbs"; "grilled"; "baguette";
     "seasoned"; "marinated"; "roasted"; "grilled"; "fried"; "steamed";
     "accompanied"; "drizzled"; "sprinkled"; "finished"; "garnished"]%string.

Definition dishAnchors : list jsstring := map js
    ["crab"; "scallop"; "cake"; "steak"; "ribs"; "skins"; "platter"; "newburg"]%string.

  (** [/^[A-ZÀ...Þ\s\-'&]+$/] *)
Definition re_all_caps_line : RegExp :=
    mk_re (Re.seq [Bol; Re.plus (Cls (cls (r_upper_accented ++ r_joiners))); Eol]).

Definition isDescriptionText (text : jsstring) (lineIndex : nat)
      (allLines : list jsstring) : M bool :=
    let normalizedText := trim (toLowerCase text) in
    let words := filter nonempty (split re_spaces normalizedText) in
    let isLong := 6 <? List.length words in
    price <- containsAnyPrice text ;;
    let hasNoPrice := negb price in
    let commaCount := List.length (match_all (mk_re (Re.ch ",")) text) in
    let hasHighCommaDensity :=
      (2 <=? commaCount) || ((0 <? commaCount) && (4 <? List.length words)) in
    let allDescriptiveWords := descriptiveWords ++ FRENCH_DESCRIPTIVE_WORDS in
    let containsDescriptiveWords :=
      existsb (fun word => includes normalizedText word) allDescriptiveWords in
    let prevLine :=
      if 0 <? lineIndex then trim (nth (lineIndex - 1) allLines []) else [] in
    let prevLineIsShorter :=
      Qltb (Qnat (List.length prevLine)) (Qnat (List.length text) * (8 # 10))%Q in
    let prevLineIsAllCaps :=
      re_test re_all_caps_line prevLine && (3 <? List.length prevLine) in
    let nextLine :=
      if lineIndex <? List.length allLines - 1
      then trim (nth (lineIndex + 1) allLines []) else [] in
    nextLineHasPrice <- containsAnyPrice nextLine ;;
    let nextLineIsAllCaps :=
      re_test re_all_caps_line nextLine && (3 <? List.length nextLine) in
    let isShortSimpleEntree :=
      (List.length words <=? 3) && negb containsDescriptiveWords
      && negb hasHighCommaDensity in
    let isClearEntreeName :=
      (List.length words <=? 5) && negb containsDescriptiveWords
      && negb hasHighCommaDensity
      && existsb (fun w => arr_includes dishAnchors (toLowerCase w)) words in
    let isDescription :=
      hasNoPrice && negb isShortSimpleEntree && negb isClearEntreeName
      && ((isLong && containsDescriptiveWords)
          || hasHighCommaDensity
          || (prevLineIsShorter && nextLineHasPrice)
          || (prevLineIsAllCaps && isLong)
          || (prevLineIsAllCaps && nextLineIsAllCaps && isLong)) in
    ret isDescription.

Definition AZ : regex := Cls (cls [(65, 90)%N]).     (* [A-Z] *)
Definition az : regex := Cls (cls [(97, 122)%N]).    (* [a-z] *)

  (** [(Restaurant|Cafe|Bistro|Grill|Kitchen|Dining|Eatery)] and its extension
      with [Bar|Lounge], as group [n] *)
Definition venue7 (n : nat) : regex :=
    Grp n (Re.alt (map Re.lit ["Restaurant"; "Cafe"; "Bistro"; "Grill"; "Kitchen";
                               "Dining"; "Eatery"]%string)).
Definition venue9 (n : nat) : regex :=
    Grp n (Re.alt (map Re.lit ["Restaurant"; "Cafe"; "Bistro"; "Grill"; "Kitchen";
                               "Dining"; "Eatery"; "Bar"; "Lounge"]%string)).

Definition re_i (groups : nat) (r : regex) : RegExp :=
    {| re_src := r; re_groups := groups; re_icase := true |}.
Definition re_g (groups : nat) (r : regex) : RegExp :=
    {| re_src := r; re_groups := groups; re_icase := false |}.

Definition restaurantPatterns : list RegExp := [
    (* /^[A-Z][a-z]*'?s\s+(Restaurant|Cafe|Bistro|Grill|Kitchen|Dining|Eatery|Bar|Lounge)$/i *)
    re_i 1 (Re.seq [Bol; AZ; Re.star az; Re.opt (Re.ch "'"); Re.ch "s"; Re.plus Re.s;
                    venue9 1; Eol]);
    (* /^[A-Z][a-z]+\s+&\s+[A-Z][a-z]+'?s$/i *)
    re_i 0 (Re.seq [Bol; AZ; Re.plus az; Re.plus Re.s; Re.ch "&"; Re.plus Re.s;
                    AZ; Re.plus az; Re.opt (Re.ch "'"); Re.ch "s"; Eol]);
    (* /^[A-Z][a-z]+\s+(Italian|French|Chinese|Mexican|Thai|Indian|Japanese|American)\s+(Restaurant|Cafe|Bistro|Grill|Kitchen|Dining|Eatery)$/i *)
    re_i 2 (Re.seq [Bol; AZ; Re.plus az; Re.plus Re.s;
                    Grp 1 (Re.alt (map Re.lit ["Italian"; "French"; "Chinese"; "Mexican";
                                               "Thai"; "Indian"; "Japanese";
                                               "American"]%string));
                    Re.plus Re.s; venue7 2; Eol]);
    (* /^[A-Z][a-z]+\s+[A-Z][a-z]+\s+(Restaurant|Cafe|Bistro|Grill|Kitchen|Dining|Eatery|Bar|Lounge)$/i *)
    re_i 1 (Re.seq [Bol; AZ; Re.plus az; Re.plus Re.s; AZ; Re.plus az; Re.plus Re.s;
                    venue9 1; Eol]);
    (* /^(The\s+)?[A-Z][a-z]+\s+(Restaurant|Cafe|Bistro|Grill|Kitchen|Dining|Eatery|Bar|Lounge)$/i *)
    re_i 2 (Re.seq [Bol; Re.opt (Grp 1 (Seq (Re.lit "The") (Re.plus Re.s)));
                    AZ; Re.plus az; Re.plus Re.s; venue9 2; Eol])
  ].

  (** [/^[A-Z][a-z]+(\s+[A-Z][a-z]+)*$/] *)
Definition re_title_case : RegExp :=
    re_g 1 (Re.seq [Bol; AZ; Re.plus az;
                    Re.star (Grp 1 (Re.seq [Re.plus Re.s; AZ; Re.plus az])); Eol]).
  (** [/^[A-Z\s]+$/] *)
Definition re_caps_spaces : RegExp :=
    mk_re (Re.seq [Bol; Re.plus (Cls (cls ((65, 90)%N :: r_space))); Eol]).

Definition isRestaurantNameOrHeader (text : jsstring) (lineIndex : nat)
      (sectionHeaders : list SectionHeader) (allLines : list jsstring) : M bool :=
    let normalizedText := trim (toLowerCase text) in
    if isSectionHeader text then ret true
    else
      let words := filter nonempty (split re_spaces normalizedText) in
      let isShort := List.length words <=? 4 in
      let isEarly := Qltb (Qnat lineIndex) (Qnat (List.length allLines) * (2 # 10))%Q in
      let isTitleCase := re_test re_title_case text in
      let isAllCaps := re_test re_caps_spaces text in
      price <- containsAnyPrice text ;;
      let hasNoPrice := negb price in
      let hasSectionHeaderAfter :=
        existsb (fun header => (lineIndex <? h_lineIndex header)
                               && (h_lineIndex header <=? lineIndex + 5))
                sectionHeaders in
      let isRestaurantName :=
        isShort && isEarly && (isTitleCase || isAllCaps) && hasNoPrice
        && hasSectionHeaderAfter in
      let matchesRestaurantPattern :=
        existsb (fun pattern => re_test pattern text) restaurantPatterns in
      isDescription <- isDescriptionText text lineIndex allLines ;;
      ret (isRestaurantName || matchesRestaurantPattern || isDescription).

  (* ---------------------------------------------------------------- *)
  (** ** Splitting *)

  (** [[$€£¥]\s?\d{1,4}(?:[.,]\d{2})?] *)
Definition priced : regex := Re.seq [Re.currency; Re.opt Re.s; amount].

  (** [/(.*?)\s*([$€£¥]\s?\d{1,4}(?:[.,]\d{2})?)\s*$/i] *)
Definition re_trailing_price : RegExp :=
    re_i 2 (Re.seq [Grp 1 (Re.star_lazy Re.dot); Re.star Re.s; Grp 2 priced;
                    Re.star Re.s; Eol]).

  (** [(.+?)] as group [n] *)
Definition some_lazy (n : nat) : regex := Grp n (Re.plus_lazy Re.dot).

  (** [/^(.+?)\s+(.+?\s+word)$/i] *)
Definition split_before (word : regex) : RegExp :=
    re_i 2 (Re.seq [Bol; some_lazy 1; Re.plus Re.s;
                    Grp 2 (Re.seq [Re.plus_lazy Re.dot; Re.plus Re.s; word]); Eol]).

  (** [/^(.+?)\s+(word\s+.+)$/i] *)
Definition split_at (word : string) : RegExp :=
    re_i 2 (Re.seq [Bol; some_lazy 1; Re.plus Re.s;
                    Grp 2 (Re.seq [Re.lit word; Re.plus Re.s; Re.plus Re.dot]); Eol]).

Definition compoundPatterns : list RegExp := [
    (* /^(combination\s+platter)\s+(.+)$/i *)
    re_i 2 (Re.seq [Bol; Grp 1 (Re.seq [Re.lit "combination"; Re.plus Re.s;
                                        Re.lit "platter"]);
                    Re.plus Re.s; Grp 2 (Re.plus Re.dot); Eol]);
    (* /^(.+?)\s+(.+?\s+rolls?)$/i *)
    split_before (Seq (Re.lit "roll") (Re.opt (Re.ch "s")));
    (* /^(.+?)\s+(.+?\s+pasta)$/i *)
    split_before (Re.lit "pasta");
    (* /^(.+?)\s+(.+?\s+steak)$/i *)
    split_before (Re.lit "steak");
    (* /^(.+?)\s+(.+?\s+salad)$/i *)
    split_before (Re.lit "salad");
    (* /^(.+?)\s+(.+?\s+newburg)$/i *)
    split_before (Re.lit "newburg");
    (* /^(.+?)\s+(greek\s+.+)$/i *)
    split_at "greek";
    (* /^(.+?)\s+(kale\s+.+)$/i *)
    split_at "kale";
    (* /^([a-z]+\s+[a-z]+)\s+([a-z]+\s+[a-z]+(?:\s+[a-z]+)?)$/i *)
    re_i 2 (Re.seq [Bol; Grp 1 (Re.seq [Re.plus az; Re.plus Re.s; Re.plus az]);
                    Re.plus Re.s;
                    Grp 2 (Re.seq [Re.plus az; Re.plus Re.s; Re.plus az;
                                   Re.opt (Seq (Re.plus Re.s) (Re.plus az))]);
                    Eol])
  ].

  (** [/[a-zA-Z]/] *)
Definition re_letter : RegExp := mk_re (Cls (cls r_letter)).

Definition cap (s : jsstring) (m : MatchResult) (n : nat) : jsstring :=
    match capture s m n with Some t => t | None => [] end.

Fixpoint try_compound (patterns : list RegExp) (baseText price text : jsstring)
    : list jsstring :=
    match patterns with
    | [] => [text]
    | pattern :: rest =>
      match exec_from pattern baseText 0 with
      | Some m =>
        let item1 := cap baseText m 1 in
        let item2 := cap baseText m 2 in
        if (3 <=? List.length (trim item1)) && (3 <=? List.length (trim item2))
           && re_test re_letter item1 && re_test re_letter item2
        then map (fun item =>
                    let cleanItem := trim item in
                    if 0 <? List.length price then cleanItem ++ js " " ++ price
                    else cleanItem)
                 [item1; item2]
        else try_compound rest baseText price text
      | None => try_compound rest baseText price text
      end
    end.

Definition detectCompoundMenuItems (text : jsstring) : list jsstring :=
    let priceMatch := exec_from re_trailing_price text 0 in
    let baseText :=
      match priceMatch with Some m => trim (cap text m 1) | None => text end in
    let price :=
      match priceMatch with Some m => trim (cap text m 2) | None => [] end in
    try_compound compoundPatterns baseText price text.

  (** A part of a line: [{ text, bbox }]. *)
Record Part := { part_text : jsstring; part_bbox : option OcrBoundingBox }.

  (** The characters of [\w\s\-'&] *)
Definition r_name_chars : list (N * N) := r_word ++ r_joiners.

  (** [/([A-Za-z][A-Za-z\s\-'&]+?)\s*([$€£¥]\s?\d{1,4}(?:[.,]\d{2})?)/g] *)
Definition menuItemWithPricePattern : RegExp :=
    re_g 2 (Re.seq [Grp 1 (Seq (Cls (cls [(65, 90); (97, 122)]%N))
                               (Re.plus_lazy
                                  (Cls (cls ([(65, 90); (97, 122)]%N ++ r_joiners)))));
                    Re.star Re.s; Grp 2 priced]).

  (** [/(?<!\w)(?:[$€£¥])\s?\d{1,4}(?:[.,]\d{2})?(?!\w)|(?<!\w)\d{1,3}(?:[.,]\d{2})(?!\w)|(?<!\w)\d{1,4}(?:[.,]\d{2})?\s*$/g] *)
Definition pricePattern : RegExp :=
    mk_re (Re.alt [Re.seq [Re.not_behind_w; Re.currency; Re.opt Re.s; amount;
                           Re.not_ahead_w];
                   Re.seq [Re.not_behind_w; Re.rep 1 3 Re.d; Re.cents; Re.not_ahead_w];
                   Re.seq [Re.not_behind_w; amount; Re.star Re.s; Eol]]).

  (** [/^[\d\s\$€£¥\.\,\-\/]+$/] *)
Definition re_only_price_chars : RegExp :=
    mk_re (Re.seq [Bol;
                   Re.plus (Cls (cls (r_digit ++ r_space ++ r_currency
                                      ++ map one (js ".,-/"))));
                   Eol]).

  (** [/^[^\w\s\-'&]+|[^\w\s\-'&]+$/g] *)
Definition re_edge_punct : RegExp :=
    mk_re (Alt (Seq Bol (Re.plus (Cls (ncls r_name_chars))))
               (Seq (Re.plus (Cls (ncls r_name_chars))) Eol)).
  (** [/\s+[^\w\s\-'&]+\s+/g] *)
Definition re_inner_punct : RegExp :=
    mk_re (Re.seq [Re.plus Re.s; Re.plus (Cls (ncls r_name_chars)); Re.plus Re.s]).

  (** The loop over the parts of the fallback split. *)
Fixpoint fallback_loop (bbox : option OcrBoundingBox) (parts : list jsstring)
      (fallbackResults : list Part) : M (list Part) :=
    match parts with
    | [] => ret fallbackResults
    | part :: rest =>
      if (List.length part <? 2) || re_test re_only_price_chars part
      then fallback_loop bbox rest fallbackResults
      else if List.length (trim part) <? 3
      then fallback_loop bbox rest fallbackResults
      else
        let cleanText :=
          trim (replace_all re_inner_punct (js " ")
                  (replace_all re_spaces (js " ")
                     (replace_all re_edge_punct [] part))) in
        if (2 <=? List.length cleanText) && re_test re_letter cleanText then
          valid <- isValidEntreeName cleanText ;;
          if valid
          then fallback_loop bbox rest
                 (fallbackResults ++ [{| part_text := cleanText; part_bbox := bbox |}])
          else fallback_loop bbox rest fallbackResults
        else fallback_loop bbox rest fallbackResults
    end.

Definition splitLineByPrices (line : OcrLine) : M (list Part) :=
    let text := trim (line_text line) in
    let whole := [{| part_text := text; part_bbox := line_bbox line |}] in
    prices <- extractAllPrices text ;;
    if List.length prices =? 0 then ret whole
    else
      let results :=
        flat_map (fun m =>
                    let menuItemName := trim (cap text m 1) in
                    if (3 <=? List.length menuItemName) && re_test re_letter menuItemName
                    then [{| part_text := menuItemName; part_bbox := line_bbox line |}]
                    else [])
                 (matches_of menuItemWithPricePattern text) in
      if 0 <? List.length results then ret results
      else
        let compoundMenuItems := detectCompoundMenuItems text in
        if 1 <? List.length compoundMenuItems
        then ret (map (fun item => {| part_text := item; part_bbox := line_bbox line |})
                      compoundMenuItems)
        else
          let parts := filter nonempty (map trim (split pricePattern text)) in
          if List.length parts <=? 1 then ret whole
          else
            fallbackResults <- fallback_loop (line_bbox line) parts [] ;;
            if 0 <? List.length fallbackResults then ret fallbackResults
            else ret whole.

  (* ---------------------------------------------------------------- *)
  (** ** Features *)

  (** The loop of [checkPriceInNextLines], for offsets [k], [k+1], ... *)
Fixpoint price_in_next (allLines : list jsstring) (lineIndex k n : nat) : M bool :=
    match n with
    | O => ret false
    | S n' =>
      if lineIndex + k <? List.length allLines then
        let nextLine := trim (nth (lineIndex + k) allLines []) in
        found <- andM (ret (nonempty nextLine)) (containsAnyPrice nextLine) ;;
        if found then ret true
        else price_in_next allLines lineIndex (S k) n'
      else ret false
    end.

Definition checkPriceInNextLines (allLines : list jsstring) (lineIndex maxLines : nat)
    : M bool :=
    price_in_next allLines lineIndex 1 maxLines.

  (** [/\b(and|with|served|topped|garnished|fresh|local|organic)\b/i] *)
Definition re_ingredients : RegExp :=
    re_i 1 (Re.seq [WordB;
                    Grp 1 (Re.alt (map Re.lit ["and"; "with"; "served"; "topped";
                                               "garnished"; "fresh"; "local";
                                               "organic"]%string));
                    WordB]).

Definition checkNextLineDescription (allLines : list jsstring) (lineIndex : nat) : bool :=
    if List.length allLines <=? lineIndex + 1 then false
    else
      let nextLine := trim (nth (lineIndex + 1) allLines []) in
      if negb (nonempty nextLine) then false
      else
        let hasPunctuation := re_test (mk_re (Cls (cls r_punct))) nextLine in
        let isShorter :=
          Qltb (Qnat (List.length nextLine))
               (Qnat (List.length (nth lineIndex allLines [])) * (8 # 10))%Q in
        let hasIngredients := re_test re_ingredients nextLine in
        hasPunctuation && isShorter && hasIngredients.

Definition checkPrevLineHeader (_allLines : list jsstring) (lineIndex : nat)
      (sectionHeaders : list SectionHeader) : bool :=
    if lineIndex =? 0 then false
    else existsb (fun header => h_lineIndex header =? lineIndex - 1) sectionHeaders.

Definition getHeaderContext (lineIndex : nat) (sectionHeaders : list SectionHeader)
    : option jsstring :=
    match find (fun header => (h_lineIndex header <? lineIndex)
                              && (lineIndex - h_lineIndex header <=? 10))
               sectionHeaders with
    | Some header => Some (h_text header)
    | None => None
    end.

Definition extractFeatures (text : jsstring) (allLines : list jsstring)
      (lineIndex : nat) (sectionHeaders : list SectionHeader)
      (ocrLines : list OcrLine) : M CandidateFeatures :=
    let tokenCount := countMeaningfulWords text in
    let hasDigits := re_test (mk_re Re.d) text in
    hasCurrency <- containsAnyPrice text ;;
    let isAllCapsText := isAllCaps text in
    let isTitleCaseText := isTitleCase text in
    let priceSameLine := hasCurrency in
    priceNextLines1to3 <- checkPriceInNextLines allLines lineIndex 3 ;;
    let underEntreeHeader := isUnderEntreeHeader lineIndex sectionHeaders in
    let punctDensity := calculatePunctuationDensity text in
    let nextLineDescription := checkNextLineDescription allLines lineIndex in
    let prevLineHeader := checkPrevLineHeader allLines lineIndex sectionHeaders in
    let uppercaseRatio := calculateUppercaseRatio text in
    let lettersRatio := calculateLetterRatio text in
    let avgTokenLen := calculateAverageTokenLength text in
    let startsWithArticleText := startsWithArticle text in
    let endsWithStop := endsWithStopWord text in
    let fontSizeRatio :=
      match nth_error ocrLines lineIndex with
      | Some l => calculateFontSizeRatio l ocrLines
      | None => 1%Q
      end in
    ret {| tokenCount := Qnat tokenCount;
           hasDigits := flag hasDigits;
           hasCurrency := flag hasCurrency;
           f_isAllCaps := flag isAllCapsText;
           f_isTitleCase := flag isTitleCaseText;
           priceSameLine := flag priceSameLine;
           priceNextLines1to3 := flag priceNextLines1to3;
           underEntreeHeader := flag underEntreeHeader;
           punctDensity := punctDensity;
           nextLineDescription := flag nextLineDescription;
           prevLineHeader := flag prevLineHeader;
           uppercaseRatio := uppercaseRatio;
           lettersRatio := lettersRatio;
           avgTokenLen := avgTokenLen;
           f_startsWithArticle := flag startsWithArticleText;
           endsWithStop := flag endsWithStop;
           fontSizeRatio := fontSizeRatio;
           f_confidence := 0 |}.

  (* ---------------------------------------------------------------- *)
  (** ** The extraction loop *)

  (** A call made only to print its result: its effects remain. *)
Definition logged {A} (cond : bool) (m : M A) : M unit :=
    if cond then (_ <- m ;; ret tt) else ret tt.

Definition includes_any (text : jsstring) (needles : list string) : bool :=
    existsb (fun n => includes text (js n)) needles.

  (** The condition of the step-by-step trace. *)
Definition traced (text : jsstring) : bool :=
    includes_any text ["Combination Platter"; "Lobster Newburg"]%string.

  (** [arr.slice(0, n)] for an integer [n]: a negative [n] counts from the
      end. *)
Definition slice0 {A} (l : list A) (n : Z) : list A :=
    if (n <? 0)%Z then firstn (List.length l - Z.to_nat (- n)) l
    else firstn (Z.to_nat n) l.

  (** [candidates.sort((a, b) => b.confidence - a.confidence)]: the sort is
      stable, so the result is that of inserting each element, in order,
      after the elements that do not compare greater. (A difference that is
      NaN counts as 0 for the sort.) *)
Fixpoint insert_desc (c : Candidate) (sorted : list Candidate) : list Candidate :=
    match sorted with
    | [] => [c]
    | c' :: rest =>
      if jgtb (c_confidence c) (c_confidence c') then c :: sorted
      else c' :: insert_desc c rest
    end.

Definition sort_desc (l : list Candidate) : list Candidate :=
    fold_left (fun sorted c => insert_desc c sorted) l [].

  Section Page.
    Variable W : World.
    Variable pageNumber : Q.
    Variable ocrLines : list OcrLine.
    Variable lines : list jsstring.
    Variable sectionHeaders : list SectionHeader.

    (** The object literal of a candidate. *)
Definition newCandidate (i : nat) (text : jsstring) (bbox : option OcrBoundingBox)
        (features : CandidateFeatures) (confidence : jsnum)
        (databaseMatch : option EntreeMatch) : M Candidate :=
      k <- tick ;;
      ret {| c_id := uuidv4 W k;
             c_page := pageNumber;
             c_text := text;
             c_bbox := bbox;
             c_headerContext := getHeaderContext i sectionHeaders;
             c_priceContext := [];
             c_features := features;
             c_confidence := confidence;
             c_databaseMatch := databaseMatch |}.

    (** The ALL CAPS branch; [Some] is the [continue] of the loop, [None]
        falls through to the next step. *)
Definition allCapsPath (i : nat) (line : OcrLine) (text : jsstring)
        (visualHierarchyScore : Q) (candidates : list Candidate)
      : M (option (list Candidate)) :=
      if isAllCapsText text then
        cleanText <- removeAllPrices text ;;
        if List.length cleanText <? 3 then ret (Some candidates)
        else
          features <- extractFeatures cleanText lines i sectionHeaders ocrLines ;;
          let databaseMatch := findEntreeMatch (store W) cleanText in
          baseConfidence <- calculateConfidenceScore W features databaseMatch ;;
          let boostedConfidence :=
            jmin (Fin 1) (jadd (jadd baseConfidence (Fin (4 # 10)))
                               (Fin (visualHierarchyScore * (3 # 10)))) in
          ok <- andM (ret (jgtb boostedConfidence (Fin (1 # 10)))) (isValidEntreeName cleanText) ;;
          if ok then
            candidate <- newCandidate i cleanText (line_bbox line) features
                           boostedConfidence databaseMatch ;;
            ret (Some (candidates ++ [candidate]))
          else ret None
      else ret None.

    (** The loop over the compound items of a visually prominent line. *)
Fixpoint compound_loop (i : nat) (line : OcrLine) (visualHierarchyScore : Q)
        (items : list jsstring) (candidates : list Candidate) : M (list Candidate) :=
      match items with
      | [] => ret candidates
      | compoundItem :: rest =>
        cleanItem <- removeAllPrices compoundItem ;;
        if 3 <=? List.length cleanItem then
          features <- extractFeatures cleanItem lines i sectionHeaders ocrLines ;;
          let databaseMatch := findEntreeMatch (store W) cleanItem in
          baseConfidence <- calculateConfidenceScore W features databaseMatch ;;
          let boostedConfidence :=
            jmin (Fin 1) (jadd baseConfidence (Fin (visualHierarchyScore * (4 # 10)))) in
          ok <- andM (ret (jgtb boostedConfidence (Fin (1 # 10)))) (isValidEntreeName cleanItem) ;;
          if ok then
            candidate <- newCandidate i cleanItem (line_bbox line) features
                           boostedConfidence databaseMatch ;;
            compound_loop i line visualHierarchyScore rest (candidates ++ [candidate])
          else compound_loop i line visualHierarchyScore rest candidates
        else compound_loop i line visualHierarchyScore rest candidates
      end.

    (** The branch of a visual hierarchy score above 0.5. *)
Definition hierarchyPath (i : nat) (line : OcrLine) (text : jsstring)
        (visualHierarchyScore : Q) (candidates : list Candidate)
      : M (option (list Candidate)) :=
      if Qgtb visualHierarchyScore (5 # 10) then
        let shouldCheckCompounds :=
          includes_any text ["Combination Platter"; "Tomato Pasta"; "Salmon Rolls";
                             "Lobster Newburg"; "Combination Platter Lobster Newburg";
                             "Tomato Pasta Salmon Rolls"; "Chicken Fajita";
                             "Greek Steak"; "Thai Chicken"; "Kale Crunch"]%string
          || ((4 <=? List.length (split re_spaces text)) && re_test (mk_re AZ) text) in
        let compoundMenuItems :=
          if shouldCheckCompounds then detectCompoundMenuItems text else [] in
        if shouldCheckCompounds && (1 <? List.length compoundMenuItems) then
          candidates' <- compound_loop i line visualHierarchyScore compoundMenuItems
                           candidates ;;
          ret (Some candidates')
        else
          cleanText <- removeAllPrices text ;;
          logged (includes_any text ["Lamb"; "Loin"; "Persillade"; "Fish Fillet"]%string)
                 (containsAnyPrice text) ;;;
          if List.length cleanText <? 3 then ret (Some candidates)
          else
            features <- extractFeatures cleanText lines i sectionHeaders ocrLines ;;
            baseConfidence <- calculateConfidenceScore W features None ;;
            let boostedConfidence :=
              jmin (Fin 1) (jadd baseConfidence (Fin (visualHierarchyScore * (4 # 10)))) in
            ok <- andM (ret (jgtb boostedConfidence (Fin (1 # 10))))
                       (isValidEntreeName cleanText) ;;
            if ok then
              candidate <- newCandidate i cleanText (line_bbox line) features
                             boostedConfidence None ;;
              ret (Some (candidates ++ [candidate]))
            else ret None
      else ret None.

    (** The loop over the parts of a line. *)
Fixpoint parts_loop (i : nat) (lineParts : list Part) (candidates : list Candidate)
      : M (list Candidate) :=
      match lineParts with
      | [] => ret candidates
      | part :: rest =>
        partText <- removeAllPrices (part_text part) ;;
        if (List.length partText <? 2) || re_test re_only_price_chars partText
        then parts_loop i rest candidates
        else
          skip <- isRestaurantNameOrHeader partText i sectionHeaders lines ;;
          if skip then parts_loop i rest candidates
          else
            features <- extractFeatures partText lines i sectionHeaders ocrLines ;;
            let databaseMatch := findEntreeMatch (store W) partText in
            confidence <- calculateConfidenceScore W features databaseMatch ;;
            logged (includes_any partText
                      ["Lobster Newburg"; "New York Steak"; "Goat Cheese";
                       "Potato Skins"; "Combination Platter"; "Beef Ribs";
                       "Crab and Scallop Cake"]%string)
                   (isValidEntreeName partText) ;;;
            logged (traced partText)
                   (isValidEntreeName partText ;;;
                    andM (ret (jgtb confidence (Fin (3 # 100)))) (isValidEntreeName partText)) ;;;
            ok <- andM (ret (jgtb confidence (Fin (3 # 100)))) (isValidEntreeName partText) ;;
            if ok then
              candidate <- newCandidate i partText (part_bbox part) features
                             confidence databaseMatch ;;
              parts_loop i rest (candidates ++ [candidate])
            else
              logged (traced partText) (isValidEntreeName partText) ;;;
              parts_loop i rest candidates
      end.

    (** [compoundMenuItems.map(item => ({ text: removeAllPrices(item), bbox }))] *)
Fixpoint clean_items (bbox : option OcrBoundingBox) (items : list jsstring)
      : M (list Part) :=
      match items with
      | [] => ret []
      | item :: rest =>
        cleanItem <- removeAllPrices item ;;
        parts <- clean_items bbox rest ;;
        ret ({| part_text := cleanItem; part_bbox := bbox |} :: parts)
      end.

    (** The default path: split the line and process each part. *)
Definition defaultPath (i : nat) (line : OcrLine) (text : jsstring)
        (candidates : list Candidate) : M (list Candidate) :=
      lineParts <- splitLineByPrices line ;;
      let shouldCheckCompounds :=
        includes_any text ["Combination Platter"; "Tomato Pasta"; "Salmon Rolls";
                           "Lobster Newburg"; "Combination Platter Lobster Newburg";
                           "Tomato Pasta Salmon Rolls"]%string in
      let compoundMenuItems :=
        if shouldCheckCompounds then detectCompoundMenuItems text else [] in
      lineParts <- (if shouldCheckCompounds && (1 <? List.length compoundMenuItems)
                    then clean_items (line_bbox line) compoundMenuItems
                    else ret lineParts) ;;
      parts_loop i lineParts candidates.

    (** The body of the loop over the lines, for the line at index [i]. *)
Definition processLine (i : nat) (line : OcrLine) (candidates : list Candidate)
      : M (list Candidate) :=
      let text := trim (line_text line) in
      if List.length text <? 2 then ret candidates
      else if containsBlacklistedTerms text || isSectionHeader text then ret candidates
      else
        logged (traced text) (isRestaurantNameOrHeader text i sectionHeaders lines) ;;;
        skip <- isRestaurantNameOrHeader text i sectionHeaders lines ;;
        if skip then ret candidates
        else
          logged (traced text) (calculateVisualHierarchyScore line i ocrLines) ;;;
          visualHierarchyScore <- calculateVisualHierarchyScore line i ocrLines ;;
          viaCaps <- allCapsPath i line text visualHierarchyScore candidates ;;
          match viaCaps with
          | Some candidates' => ret candidates'
          | None =>
            viaHierarchy <- hierarchyPath i line text visualHierarchyScore candidates ;;
            match viaHierarchy with
            | Some candidates' => ret candidates'
            | None => defaultPath i line text candidates
            end
          end.

Fixpoint lines_loop (i : nat) (rest : list OcrLine) (candidates : list Candidate)
      : M (list Candidate) :=
      match rest with
      | [] => ret candidates
      | line :: rest' =>
        candidates' <- processLine i line candidates ;;
        lines_loop (S i) rest' candidates'
      end.
  End Page.

  (** [normalizeCandidateText] *)
Definition normalizeCandidateText (text : jsstring) : M jsstring :=
    normalizeTextWithPriceRemoval text.

  (** [validateEntreeName] *)
Definition validateEntreeName (text : jsstring) : M bool :=
    normalized <- normalizeCandidateText text ;;
    let words := filter nonempty (split re_spaces normalized) in
    if List.length words <? 2 then ret false
    else if List.length normalized <? 4 then ret false
    else
      let letterCount := count_class r_letter normalized in
      let letterRatio := (Qnat letterCount / Qnat (List.length normalized))%Q in
      if Qltb letterRatio (7 # 10) then ret false
      else
        valid <- validateNoPrices normalized ;;
        if negb valid then ret false else ret true.

Definition extractCandidates (W : World) (ocrLines : list OcrLine) (pageNumber : Q)
      (topN : Z) : M (list Candidate) :=
    let lines := map line_text ocrLines in
    let sectionHeaders := detectSectionHeaders lines in
    candidates <- lines_loop W pageNumber ocrLines lines sectionHeaders 0 ocrLines [] ;;
    ret (slice0 (sort_desc candidates) topN).
  End WithRuntime.
End Extract.

(* ================================================================== *)
(** * A reference runtime and world, for concrete runs *)
(* ================================================================== *)

Module Reference.
  Import EntreeLookup Extract.

  (** Case mapping of the Basic Latin and Latin-1 Supplement blocks; other
      code units are left unchanged. *)
Definition lower1 (c : N) : N :=
    if is_upper_ascii c then (c + 32)%N
    else if in_range c 192 222 && negb (c =? 215)%N then (c + 32)%N
    else c.

Definition upper1 (c : N) : list N :=
    if is_lower_ascii c then [(c - 32)%N]
    else if in_range c 224 254 && negb (c =? 247)%N then [(c - 32)%N]
    else if (c =? 223)%N then [83; 83]%N      (* ß *)
    else if (c =? 255)%N then [376%N]         (* ÿ *)
    else if (c =? 181)%N then [924%N]         (* µ *)
    else [c].

  (** The square root rounded to the nearest number with a significand of
      53 bits (ties to even), as the language requires of [Math.sqrt]: the
      root is computed with at least seven more bits, [exact] tells whether
      it came out exactly, and the significand is rounded on the bits that
      follow it. Exponent range is not limited. *)
Definition sqrt_ref (q : Q) : Q :=
    let n := Qnum q in
    let d := Zpos (Qden q) in
    if (n <=? 0)%Z then 0
    else
      let e := (60 + Z.log2 d)%Z in
      let root := Z.sqrt (n * 4 ^ e / d) in
      let exact := (root * root * d =? n * 4 ^ e)%Z in
      let s := (Z.log2 root - 52)%Z in
      let significand := (root / 2 ^ s)%Z in
      let rest := (root mod 2 ^ s)%Z in
      let half := (2 ^ (s - 1))%Z in
      let up := (half <? rest)%Z
                || ((rest =? half)%Z && (negb exact || Z.odd significand)) in
      Qred (((if up then significand + 1 else significand) * 2 ^ s)
            # Z.to_pos (2 ^ e)).

  (** The exponential by its series, twenty terms, reciprocal for negative
      arguments. *)
Fixpoint exp_series (n : nat) (x term acc : Q) (k : Z) : Q :=
    match n with
    | O => acc
    | S n' =>
      let term' := Qred (term * x / inject_Z k) in
      exp_series n' x term' (Qred (acc + term')) (k + 1)
    end.

Definition exp_ref (x : Q) : Q :=
    if Qle_bool 0 x then exp_series 20 x 1 1 1
    else 1 / exp_series 20 (- x) 1 1 1.

#[export] Instance runtime : Runtime := {|
    toLowerCase := map lower1;
    toUpperCase := flat_map upper1;
    Math_sqrt := sqrt_ref;
    Math_exp := exp_ref
  |}.

  (** A store that cannot be reached: no client can be created. *)
Definition unreachable : Store := {|
    createServiceClient_ok := false;
    import_ok := false;
    testQuery := fun _ => Rejected;
    exactQuery := fun _ _ => Rejected;
    partialQuery := fun _ _ => Rejected;
    fuzzyQuery := fun _ => Rejected
  |}.


Fixpoint digits (fuel n : nat) (acc : jsstring) : jsstring :=
    match fuel with
    | O => acc
    | S fuel' =>
      let acc' := (48 + N.of_nat (n mod 10))%N :: acc in
      if n <? 10 then acc' else digits fuel' (n / 10) acc'
    end.

  (** No cached weights, an unreachable store, and identifiers numbered by
      the order of their creation. *)
Definition world : World := {|
    uuidv4 := fun k => js "id-" ++ digits (S k) k [];
    trainedWeightsCache := fun _ => None;
    store := unreachable
  |}.

Definition line (text : string) : OcrLine := {|
    line_text := js text;
    line_bbox := Some {| x := 10; y := 10; w := 200; h := 20 |};
    line_words := [];
    line_confidence := 9 # 10
  |}.

  (** Lines of equal height laid out top to bottom. *)
Fixpoint page_from (y0 : Z) (texts : list string) : list OcrLine :=
    match texts with
    | [] => []
    | t :: rest =>
      {| line_text := js t;
         line_bbox := Some {| x := 10; y := inject_Z y0; w := 200; h := 20 |};
         line_words := [];
         line_confidence := 9 # 10 |} :: page_from (y0 + 30) rest
    end.

Definition page (texts : list string) : list OcrLine := page_from 10 texts.
End Reference.

(* ================================================================== *)
(** * Properties of the confidence scorer *)
(* ================================================================== *)

Module ScorerFacts.
  Import EntreeLookup Extract.

Lemma Math_min_le_l a b : (Math_min a b <= a)%Q.
  Proof.
    unfold Math_min. destruct (Qle_bool a b) eqn:E.
    - apply Qle_refl.
    - apply Qlt_le_weak, Qnot_le_lt. intros H.
      apply Qle_bool_iff in H. congruence.
  Qed.

Lemma Math_max_ge_l a b : (a <= Math_max a b)%Q.
  Proof.
    unfold Math_max. destruct (Qle_bool a b) eqn:E.
    - now apply Qle_bool_iff.
    - apply Qle_refl.
  Qed.

Lemma Math_max_le a b c : (a <= c)%Q -> (b <= c)%Q -> (Math_max a b <= c)%Q.
  Proof. unfold Math_max. now destruct (Qle_bool a b). Qed.

  (** [Math.max(0, Math.min(1, s))] lies between 0 and 1. *)
Lemma clamp_bounds s : (0 <= Math_max 0 (Math_min 1 s) <= 1)%Q.
  Proof.
    split.
    - apply Math_max_ge_l.
    - apply Math_max_le; [discriminate | apply Math_min_le_l].
  Qed.

  (** [Math.max(0, Math.min(1, s))] on any number: NaN, or a finite value
      between 0 and 1. *)
Lemma clamp_num (s : jsnum) :
    jmax (Fin 0) (jmin (Fin 1) s) = NaN
    \/ exists q, jmax (Fin 0) (jmin (Fin 1) s) = Fin q /\ (0 <= q <= 1)%Q.
  Proof.
    destruct s as [q| | |]; [| right | right | left; reflexivity].
    - right. cbv beta iota delta [jmin jltb Qltb].
      destruct (Qle_bool 1 q) eqn:E1; cbv beta iota delta [negb].
      + exists 1%Q. split; [reflexivity | split; discriminate].
      + cbv beta iota delta [jmax jltb Qltb].
        destruct (Qle_bool q 0) eqn:E0; cbv beta iota delta [negb].
        * exists 0%Q. split; [reflexivity | split; discriminate].
        * exists q. split; [reflexivity|]. split.
          -- apply Qlt_le_weak, Qnot_le_lt. intros H.
             apply Qle_bool_iff in H. congruence.
          -- apply Qlt_le_weak, Qnot_le_lt. intros H.
             apply Qle_bool_iff in H. congruence.
    - exists 1%Q. split; [reflexivity | split; discriminate].
    - exists 0%Q. split; [reflexivity | split; discriminate].
  Qed.

Lemma heuristicScore_bounds `{RT : Runtime} f m : (0 <= heuristicScore f m <= 1)%Q.
  Proof. unfold heuristicScore. apply clamp_bounds. Qed.

  (** The score returned by [calculateConfidenceScore] is NaN or lies between
      0 and 1. *)
Lemma calculateConfidenceScore_range `{RT : Runtime} (W : World) f m (st : State) :
    fst (calculateConfidenceScore W f m st) = NaN
    \/ exists q, fst (calculateConfidenceScore W f m st) = Fin q /\ (0 <= q <= 1)%Q.
  Proof.
    unfold calculateConfidenceScore, getTrainedModelWeights, bind, tick, ret.
    simpl. destruct (trainedWeightsCache W (st_clock st)); simpl.
    - unfold calculateTrainedConfidenceScore. apply clamp_num.
    - right. eexists. split; [reflexivity | apply heuristicScore_bounds].
  Qed.


End ScorerFacts.

(* ================================================================== *)
(** * Lists *)
(* ================================================================== *)

Lemma In_firstn {A} (n : nat) : forall (l : list A) (a : A),
  In a (firstn n l) -> In a l.
Proof.
  induction n as [|n IH]; intros [|b l] a H; simpl in *; try contradiction.
  destruct H as [H|H]; [now left | right; now apply IH].
Qed.

Lemma In_skipn {A} (n : nat) : forall (l : list A) (a : A),
  In a (skipn n l) -> In a l.
Proof.
  induction n as [|n IH]; intros [|b l] a H; simpl in *; try contradiction; auto.
Qed.

Lemma Forall_firstn {A} (P : A -> Prop) n (l : list A) :
  Forall P l -> Forall P (firstn n l).
Proof.
  rewrite !Forall_forall. intros H a Ha. eapply H, In_firstn, Ha.
Qed.

Lemma Forall_skipn {A} (P : A -> Prop) n (l : list A) :
  Forall P l -> Forall P (skipn n l).
Proof.
  rewrite !Forall_forall. intros H a Ha. eapply H, In_skipn, Ha.
Qed.

(* ================================================================== *)
(** * Reasoning about effectful code *)
(* ================================================================== *)

Module Monadic.
(** [always m P]: whatever the state in which [m] runs, its result
    satisfies [P]. *)
Definition always {A} (m : M A) (P : A -> Prop) : Prop :=
  forall st, P (fst (m st)).

Lemma always_ret {A} (a : A) (P : A -> Prop) : P a -> always (ret a) P.
Proof. intros H st. exact H. Qed.

Lemma always_bind {A B} (m : M A) (f : A -> M B) (Q : A -> Prop) (P : B -> Prop) :
  always m Q -> (forall a, Q a -> always (f a) P) -> always (bind m f) P.
Proof.
  intros Hm Hf st. unfold bind. specialize (Hm st).
  destruct (m st) as [a st']. simpl in Hm. apply (Hf a Hm).
Qed.

Lemma always_bind_any {A B} (m : M A) (f : A -> M B) (P : B -> Prop) :
  (forall a, always (f a) P) -> always (bind m f) P.
Proof.
  intros Hf. apply always_bind with (Q := fun _ => True).
  - intros st. exact I.
  - intros a _. apply Hf.
Qed.

Lemma always_weaken {A} (m : M A) (P Q : A -> Prop) :
  always m P -> (forall a, P a -> Q a) -> always m Q.
Proof. intros H HPQ st. apply HPQ, H. Qed.

Lemma always_andM_ret (c : bool) (m : M bool) (P : Prop) :
  always m (fun b => b = true -> P) ->
  always (andM (ret c) m) (fun b => b = true -> P).
Proof.
  intros H st. unfold andM, bind, ret. destruct c; simpl.
  - apply H.
  - discriminate.
Qed.

Lemma always_andM_both (c : bool) (m : M bool) (P : Prop) :
  always m (fun b => b = true -> P) ->
  always (andM (ret c) m) (fun b => b = true -> c = true /\ P).
Proof.
  intros H st. unfold andM, bind, ret. destruct c; cbn [fst].
  - intros Hb. split; [reflexivity|]. now apply (H st).
  - discriminate.
Qed.

Ltac step_any := apply always_bind_any; intros ?.
Ltac case_if :=
  match goal with |- always (if ?c then _ else _) _ => destruct c end.
End Monadic.

(* ================================================================== *)
(** * Properties of the extraction loop *)
(* ================================================================== *)

Module ExtractFacts.
Import TextUtils PriceRemoval Headers EntreeLookup Extract Monadic.

(** What the stateless checks of the validator establish. *)
Definition passes_checks (text : jsstring) : Prop :=
  re_test re_standalone_2_4 text = false /\ re_test re_currency text = false.

Lemma validateNoPrices_checks text :
  always (validateNoPrices text) (fun b => b = true -> passes_checks text).
Proof.
  unfold validateNoPrices. step_any. apply always_ret. intros H.
  apply andb_true_iff in H as [H _].
  apply andb_true_iff in H as [H Hc].
  apply andb_true_iff in H as [_ Hs].
  split; now apply negb_true_iff.
Qed.

Section WithRuntime.
Context {RT : Runtime}.

Lemma isValidEntreeName_checks text :
  always (isValidEntreeName text) (fun b => b = true -> passes_checks text).
Proof.
  unfold isValidEntreeName.
  repeat match goal with
         | |- always (if ?c then _ else _) _ =>
           destruct c; [apply always_ret; discriminate|]
         end.
  apply always_bind with (Q := fun b => b = true -> passes_checks text).
  - apply validateNoPrices_checks.
  - intros ok Hok. destruct ok; simpl; apply always_ret.
    + intros _. now apply Hok.
    + discriminate.
Qed.

Section Page.
Variable W : World.
Variable pageNumber : Q.
Variable ocrLines : list OcrLine.
Variable lines : list jsstring.
Variable sectionHeaders : list SectionHeader.

(** The invariant of the candidate list: every text went through the
    validity gate, and every confidence passed a comparison with a
    threshold, which NaN does not. *)
Definition emitted_ok (c : Candidate) : Prop :=
  passes_checks (c_text c) /\ c_confidence c <> NaN.

Lemma newCandidate_ok i text bbox features confidence databaseMatch :
  i < List.length ocrLines -> passes_checks text -> confidence <> NaN ->
  always (newCandidate W pageNumber sectionHeaders i text bbox features confidence
            databaseMatch) emitted_ok.
Proof.
  intros Hi Ht Hc. unfold newCandidate. step_any. apply always_ret.
  split; simpl; [exact Ht | exact Hc].
Qed.

Lemma jgtb_not_NaN a b : jgtb a b = true -> a <> NaN.
Proof. intros H ->. destruct b; discriminate. Qed.

Definition all_ok (r : option (list Candidate)) : Prop :=
  match r with
  | Some cs => Forall emitted_ok cs
  | None => True
  end.

(** The gate followed by the construction of the candidate, as it appears
    at each of the four places that push one. *)
Lemma gated_push {B} i text bbox features confidence databaseMatch (t : jsnum)
    (candidates : list Candidate) (k : list Candidate -> M B) (e : M B)
    (P : B -> Prop) :
  i < List.length ocrLines ->
  Forall emitted_ok candidates ->
  (forall cs, Forall emitted_ok cs -> always (k cs) P) ->
  always e P ->
  always (ok <- andM (ret (jgtb confidence t)) (isValidEntreeName text) ;;
          if ok then
            candidate <- newCandidate W pageNumber sectionHeaders i text bbox features
                           confidence databaseMatch ;;
            k (candidates ++ [candidate])
          else e) P.
Proof.
  intros Hi Hc Hk He.
  apply always_bind
    with (Q := fun b => b = true -> jgtb confidence t = true /\ passes_checks text).
  - apply always_andM_both, isValidEntreeName_checks.
  - intros ok Hok. destruct ok; [|exact He].
    destruct (Hok eq_refl) as [Hg Hp].
    apply always_bind with (Q := emitted_ok).
    + apply newCandidate_ok; [exact Hi | exact Hp | exact (@jgtb_not_NaN _ _ Hg)].
    + intros cand Hcand. apply Hk. apply Forall_app. split; auto.
Qed.

Lemma allCapsPath_ok i line text vhs candidates :
  i < List.length ocrLines -> Forall emitted_ok candidates ->
  always (allCapsPath W pageNumber ocrLines lines sectionHeaders i line text vhs
            candidates) all_ok.
Proof.
  intros Hi Hc. unfold allCapsPath.
  destruct (isAllCapsText text); [|apply always_ret; exact I].
  step_any. case_if; [apply always_ret; exact Hc|].
  step_any. step_any.
  apply gated_push with (k := fun cs => ret (Some cs)); auto.
  - intros cs Hcs. apply always_ret. exact Hcs.
  - apply always_ret. exact I.
Qed.

Lemma compound_loop_ok i line vhs items : forall candidates,
  i < List.length ocrLines -> Forall emitted_ok candidates ->
  always (compound_loop W pageNumber ocrLines lines sectionHeaders i line vhs items
            candidates) (Forall emitted_ok).
Proof.
  induction items as [|item rest IH]; intros candidates Hi Hc; simpl.
  - apply always_ret. exact Hc.
  - step_any. case_if; [|now apply IH].
    step_any. step_any.
    apply gated_push
      with (k := compound_loop W pageNumber ocrLines lines sectionHeaders i line vhs rest);
      auto.
Qed.

Lemma hierarchyPath_ok i line text vhs candidates :
  i < List.length ocrLines -> Forall emitted_ok candidates ->
  always (hierarchyPath W pageNumber ocrLines lines sectionHeaders i line text vhs
            candidates) all_ok.
Proof.
  intros Hi Hc. unfold hierarchyPath.
  case_if; [|apply always_ret; exact I].
  case_if.
  - apply always_bind with (Q := Forall emitted_ok).
    + now apply compound_loop_ok.
    + intros cs Hcs. apply always_ret. exact Hcs.
  - step_any. step_any.
    case_if; [apply always_ret; exact Hc|].
    step_any. step_any.
    apply gated_push with (k := fun cs => ret (Some cs)); auto.
    + intros cs Hcs. apply always_ret. exact Hcs.
    + apply always_ret. exact I.
Qed.

Lemma parts_loop_ok i lineParts : forall candidates,
  i < List.length ocrLines -> Forall emitted_ok candidates ->
  always (parts_loop W pageNumber ocrLines lines sectionHeaders i lineParts candidates)
         (Forall emitted_ok).
Proof.
  induction lineParts as [|part rest IH]; intros candidates Hi Hc; simpl.
  - apply always_ret. exact Hc.
  - step_any.
    case_if; [now apply IH|].
    step_any.
    case_if; [now apply IH|].
    step_any. step_any. step_any. step_any.
    apply gated_push
      with (k := parts_loop W pageNumber ocrLines lines sectionHeaders i rest); auto.
    step_any. now apply IH.
Qed.

Lemma defaultPath_ok i line text candidates :
  i < List.length ocrLines -> Forall emitted_ok candidates ->
  always (defaultPath W pageNumber ocrLines lines sectionHeaders i line text candidates)
         (Forall emitted_ok).
Proof.
  intros Hi Hc. unfold defaultPath. step_any. step_any. now apply parts_loop_ok.
Qed.

Lemma processLine_ok i line candidates :
  i < List.length ocrLines -> Forall emitted_ok candidates ->
  always (processLine W pageNumber ocrLines lines sectionHeaders i line candidates)
         (Forall emitted_ok).
Proof.
  intros Hi Hc. unfold processLine.
  repeat match goal with
         | |- always (if ?c then _ else _) _ =>
           destruct c; [apply always_ret; exact Hc|]
         end.
  step_any. step_any.
  case_if; [apply always_ret; exact Hc|].
  step_any. step_any.
  apply always_bind with (Q := all_ok); [now apply allCapsPath_ok|].
  intros [cs|] Hcs; [apply always_ret; exact Hcs|].
  apply always_bind with (Q := all_ok); [now apply hierarchyPath_ok|].
  intros [cs|] Hcs'; [apply always_ret; exact Hcs'|].
  now apply defaultPath_ok.
Qed.

Lemma lines_loop_ok rest : forall i candidates,
  i + List.length rest <= List.length ocrLines -> Forall emitted_ok candidates ->
  always (lines_loop W pageNumber ocrLines lines sectionHeaders i rest candidates)
         (Forall emitted_ok).
Proof.
  induction rest as [|line rest IH]; intros i candidates Hi Hc; simpl.
  - apply always_ret. exact Hc.
  - simpl in Hi. apply always_bind with (Q := Forall emitted_ok).
    + apply processLine_ok; [lia | exact Hc].
    + intros cs Hcs. apply IH; [lia | exact Hcs].
Qed.
End Page.

(* ---------------------------------------------------------------- *)
(** ** Sorting and truncation *)

Lemma insert_desc_In c x l : In c (insert_desc x l) <-> c = x \/ In c l.
Proof.
  induction l as [|y l IH]; simpl.
  - intuition.
  - destruct (jgtb _ _); simpl; [intuition|]. rewrite IH. intuition.
Qed.

Lemma sort_desc_In_acc l : forall acc c,
  In c (fold_left (fun sorted x => insert_desc x sorted) l acc) <-> In c l \/ In c acc.
Proof.
  induction l as [|x l IH]; intros acc c; simpl.
  - intuition.
  - rewrite IH, insert_desc_In. intuition.
Qed.

Lemma sort_desc_In l c : In c (sort_desc l) <-> In c l.
Proof. unfold sort_desc. rewrite sort_desc_In_acc. simpl. intuition. Qed.

Lemma slice0_In {A} (l : list A) n c : In c (slice0 l n) -> In c l.
Proof. unfold slice0. destruct (n <? 0)%Z; apply In_firstn. Qed.

(** The order of the numbers that are not NaN. *)
Definition jle (a b : jsnum) : Prop :=
  match a, b with
  | NaN, _ | _, NaN => False
  | Fin x, Fin y => (x <= y)%Q
  | NInf, _ | _, PInf => True
  | _, _ => False
  end.

(** Descending order of confidence: the second is at most the first, and
    neither is NaN. *)
Definition conf_ge (a b : Candidate) : Prop := jle (c_confidence b) (c_confidence a).

Lemma Qgtb_false a b : Qgtb a b = false -> (a <= b)%Q.
Proof.
  unfold Qgtb, Qltb. intros H. apply negb_false_iff in H. now apply Qle_bool_iff.
Qed.

Lemma Qgtb_true a b : Qgtb a b = true -> (b < a)%Q.
Proof.
  unfold Qgtb, Qltb. intros H. apply negb_true_iff in H.
  apply Qnot_le_lt. intros Hle. apply Qle_bool_iff in Hle. congruence.
Qed.

Lemma jgtb_true a b : jgtb a b = true -> jle b a.
Proof.
  destruct a as [x| | |], b as [y| | |]; cbv beta iota delta [jgtb jltb jle];
    try discriminate; try (intros; exact I).
  intros H. apply Qlt_le_weak. now apply Qgtb_true.
Qed.

Lemma jgtb_false a b : a <> NaN -> b <> NaN -> jgtb a b = false -> jle a b.
Proof.
  destruct a as [x| | |], b as [y| | |]; cbv beta iota delta [jgtb jltb jle];
    try discriminate; try congruence; try (intros; exact I).
  intros _ _ H. now apply Qgtb_false.
Qed.

Lemma jle_trans a b c : jle a b -> jle b c -> jle a c.
Proof.
  destruct a as [x| | |], b as [y| | |], c as [z| | |]; cbv beta iota delta [jle];
    try tauto.
  apply Qle_trans.
Qed.

Lemma insert_desc_sorted x l :
  c_confidence x <> NaN -> Forall (fun c => c_confidence c <> NaN) l ->
  StronglySorted conf_ge l -> StronglySorted conf_ge (insert_desc x l).
Proof.
  intros Hx Hl. induction 1 as [|y l Hs IH Hy]; simpl.
  - constructor; constructor.
  - inversion Hl as [|? ? Hyn Hln]; subst.
    destruct (jgtb (c_confidence x) (c_confidence y)) eqn:E.
    + constructor; [constructor; assumption|].
      apply jgtb_true in E.
      constructor; [exact E|].
      rewrite Forall_forall in *. intros z Hz. unfold conf_ge in *.
      eapply jle_trans; [apply (Hy z Hz) | exact E].
    + constructor; [exact (IH Hln)|].
      rewrite Forall_forall in *. intros z Hz.
      apply insert_desc_In in Hz as [->|Hz]; [|now apply Hy].
      now apply jgtb_false.
Qed.

Lemma sort_desc_sorted l :
  Forall (fun c => c_confidence c <> NaN) l -> StronglySorted conf_ge (sort_desc l).
Proof.
  unfold sort_desc.
  assert (H : forall acc, Forall (fun c => c_confidence c <> NaN) l ->
            Forall (fun c => c_confidence c <> NaN) acc ->
            StronglySorted conf_ge acc ->
            StronglySorted conf_ge
              (fold_left (fun sorted x => insert_desc x sorted) l acc)).
  { induction l as [|x l IH]; intros acc Hl Hacc Hs; simpl; [exact Hs|].
    inversion Hl; subst. apply IH; [assumption| |now apply insert_desc_sorted].
    rewrite Forall_forall in *. intros c Hc.
    apply insert_desc_In in Hc as [->|Hc]; auto. }
  intros Hl. apply H; [exact Hl | constructor | constructor].
Qed.

Lemma firstn_sorted {A} (R : A -> A -> Prop) n : forall l,
  StronglySorted R l -> StronglySorted R (firstn n l).
Proof.
  induction n as [|n IH]; intros l Hl; simpl; [constructor|].
  destruct l as [|a l]; [constructor|].
  inversion Hl; subst. constructor; [now apply IH|].
  rewrite Forall_forall in *. intros z Hz. apply H2. eapply In_firstn, Hz.
Qed.

Lemma slice0_sorted {A} (R : A -> A -> Prop) (l : list A) n :
  StronglySorted R l -> StronglySorted R (slice0 l n).
Proof. unfold slice0. destruct (n <? 0)%Z; apply firstn_sorted. Qed.

Lemma slice0_length {A} (l : list A) n :
  (0 <= n)%Z -> (Z.of_nat (List.length (slice0 l n)) <= n)%Z.
Proof.
  intros Hn. unfold slice0.
  destruct (n <? 0)%Z eqn:E; [apply Z.ltb_lt in E; lia|].
  rewrite length_firstn. lia.
Qed.

(** Every candidate returned went through the gate. *)
Lemma extractCandidates_ok (W : World) ocrLines pageNumber topN :
  always (extractCandidates W ocrLines pageNumber topN) (Forall emitted_ok).
Proof.
  unfold extractCandidates.
  apply always_bind with (Q := Forall emitted_ok).
  - apply lines_loop_ok; [simpl; lia | constructor].
  - intros cs Hcs. apply always_ret.
    rewrite Forall_forall in *. intros c Hc.
    apply Hcs. apply sort_desc_In. eapply slice0_In, Hc.
Qed.
End WithRuntime.
End ExtractFacts.

(* ================================================================== *)
(** * Ranking and header context of the extracted candidates *)
(* ================================================================== *)

Module RankingFacts.
Import TextUtils PriceRemoval Headers EntreeLookup Extract Monadic ExtractFacts.

(** The candidates of a page in ranking order, before the truncation. *)
Definition ranking `{RT : Runtime} (W : World) (ocrLines : list OcrLine)
    (pageNumber : Q) (st : State) : list Candidate :=
  sort_desc
    (fst (lines_loop W pageNumber ocrLines (map line_text ocrLines)
            (detectSectionHeaders (map line_text ocrLines)) 0 ocrLines [] st)).

Lemma extractCandidates_ranking `{RT : Runtime} (W : World)
    (ocrLines : list OcrLine) (pageNumber : Q) (topN : Z) (st : State) :
  fst (extractCandidates W ocrLines pageNumber topN st)
  = slice0 (ranking W ocrLines pageNumber st) topN.
Proof.
  unfold extractCandidates, ranking, bind, ret.
  destruct (lines_loop _ _ _ _ _ _ _ _ st) as [cs st']. reflexivity.
Qed.

Lemma ranking_sorted `{RT : Runtime} (W : World) (ocrLines : list OcrLine)
    (pageNumber : Q) (st : State) :
  StronglySorted conf_ge (ranking W ocrLines pageNumber st).
Proof.
  unfold ranking. apply sort_desc_sorted.
  pose proof (@lines_loop_ok _ W pageNumber ocrLines (map line_text ocrLines)
                (detectSectionHeaders (map line_text ocrLines)) ocrLines 0 []
                (le_n _) (Forall_nil _) st) as H.
  revert H. apply Forall_impl. intros c [_ Hc]. exact Hc.
Qed.

(** A page with two dish lines and a line that reads as a third, weaker
    candidate. *)
Definition duck_page : list OcrLine :=
  Reference.page ["Roast Duck"; "$24 per person"; "Grilled Salmon $24"]%string.

(** C9 (as stated). With a negative [topN], [slice(0, topN)] drops that many
    candidates from the end of the ranking: the list returned is longer
    than [topN]. *)
Lemma negative_topN_keeps_candidates :
  map c_text (fst (extractCandidates (RT := Reference.runtime) Reference.world
                     duck_page 1 (-1) init_state))
  = [js "Roast Duck"; js "Grilled Salmon"]
  /\ (-1 < Z.of_nat (List.length
                       (fst (extractCandidates (RT := Reference.runtime)
                               Reference.world duck_page 1 (-1) init_state))))%Z.
Proof. split; vm_compute; reflexivity. Qed.

(** C9 (amended). The list returned by [extractCandidates] is sorted by
    confidence in descending order, no confidence being NaN, whatever the
    lines, the page number, [topN], the world and the state of the pattern
    objects. It is the ranking of all the candidates of the page cut by
    [slice(0, topN)]: its first [topN] elements, hence at most [topN] of
    them, when [topN] is not negative; all but its last [-topN] elements
    when [topN] is negative. That ranking is the list returned for any
    count that is at least its length. *)
Theorem extractCandidates_sorted_sliced `{RT : Runtime} (W : World)
    (ocrLines : list OcrLine) (pageNumber : Q) (topN : Z) (st : State) :
  StronglySorted conf_ge (fst (extractCandidates W ocrLines pageNumber topN st))
  /\ StronglySorted conf_ge (ranking W ocrLines pageNumber st)
  /\ ((0 <= topN)%Z ->
      fst (extractCandidates W ocrLines pageNumber topN st)
      = firstn (Z.to_nat topN) (ranking W ocrLines pageNumber st)
      /\ (Z.of_nat (List.length (fst (extractCandidates W ocrLines pageNumber topN st)))
          <= topN)%Z)
  /\ ((topN < 0)%Z ->
      fst (extractCandidates W ocrLines pageNumber topN st)
      = firstn (List.length (ranking W ocrLines pageNumber st) - Z.to_nat (- topN))
               (ranking W ocrLines pageNumber st))
  /\ (forall n : Z,
        (Z.of_nat (List.length (ranking W ocrLines pageNumber st)) <= n)%Z ->
        fst (extractCandidates W ocrLines pageNumber n st)
        = ranking W ocrLines pageNumber st).
Proof.
  rewrite extractCandidates_ranking.
  split; [apply slice0_sorted, ranking_sorted|].
  split; [apply ranking_sorted|].
  split; [|split].
  - intros Hn. split; [|now apply slice0_length].
    unfold slice0. destruct (topN <? 0)%Z eqn:E; [apply Z.ltb_lt in E; lia | reflexivity].
  - intros Hn. unfold slice0. apply Z.ltb_lt in Hn. now rewrite Hn.
  - intros n Hn. rewrite extractCandidates_ranking. unfold slice0.
    destruct (n <? 0)%Z eqn:E; [apply Z.ltb_lt in E; lia|].
    apply firstn_all2. lia.
Qed.

(** On a page with three candidates and [topN = 1] the weaker ones are cut. *)
Lemma extractCandidates_sorted_sliced_witness :
  List.length (ranking (RT := Reference.runtime) Reference.world duck_page 1 init_state)
  = 3
  /\ fst (extractCandidates (RT := Reference.runtime) Reference.world duck_page 1 1
            init_state)
     = firstn 1 (ranking (RT := Reference.runtime) Reference.world duck_page 1
                   init_state)
  /\ (Z.of_nat (List.length
                  (fst (extractCandidates (RT := Reference.runtime) Reference.world
                          duck_page 1 1 init_state)))
      <= 1)%Z.
Proof.
  split; [vm_compute; reflexivity|].
  apply (proj1 (proj2 (proj2 (@extractCandidates_sorted_sliced Reference.runtime
                                Reference.world duck_page 1%Q 1%Z init_state)))).
  lia.
Defined.

(* ---------------------------------------------------------------- *)
(** ** Header context *)

Section WithRuntime.
Context {RT : Runtime}.

Lemma detect_from_cons i l rest :
  detect_from i (l :: rest) =
  if List.length (trim l) =? 0 then detect_from (S i) rest
  else if jgtb (calculateHeaderConfidence (trim l)) (Fin (5 # 10))
       then {| h_text := trim l;
               h_confidence := calculateHeaderConfidence (trim l);
               h_lineIndex := i |} :: detect_from (S i) rest
       else detect_from (S i) rest.
Proof. reflexivity. Qed.

Lemma detect_from_bounds lines : forall i header,
  In header (detect_from i lines) -> i <= h_lineIndex header.
Proof.
  induction lines as [|l rest IH]; intros i header H; [contradiction|].
  rewrite detect_from_cons in H.
  destruct (_ =? 0).
  - apply IH in H. lia.
  - destruct (jgtb _ _).
    + destruct H as [<-|H]; [cbn [h_lineIndex]; lia|]. apply IH in H. lia.
    + apply IH in H. lia.
Qed.

(** The detected headers come in document order. *)
Lemma detect_from_sorted lines : forall i,
  StronglySorted (fun a b => h_lineIndex a < h_lineIndex b) (detect_from i lines).
Proof.
  induction lines as [|l rest IH]; intros i; [constructor|].
  rewrite detect_from_cons.
  destruct (_ =? 0); [apply IH|].
  destruct (jgtb _ _); [|apply IH].
  constructor; [apply IH|].
  rewrite Forall_forall. intros header H. apply detect_from_bounds in H.
  cbn [h_lineIndex]. lia.
Qed.
End WithRuntime.

Lemma find_first {A} (p : A -> bool) (l : list A) (a : A) :
  find p l = Some a ->
  exists l1 l2, l = l1 ++ a :: l2 /\ p a = true /\ forall b, In b l1 -> p b = false.
Proof.
  induction l as [|b l IH]; simpl; [discriminate|].
  destruct (p b) eqn:E.
  - intros [= <-]. exists [], l. simpl. intuition.
  - intros H. destruct (IH H) as (l1 & l2 & -> & Hp & Hl1).
    exists (b :: l1), l2. simpl. repeat split; auto.
    intros c [<-|Hc]; auto.
Qed.

(** The header chosen by [getHeaderContext] among headers in document
    order: it lies above the line, at most 10 lines away, and no other such
    header comes before it. *)
Lemma getHeaderContext_spec (i : nat) (headers : list SectionHeader) (ctx : jsstring) :
  StronglySorted (fun a b => h_lineIndex a < h_lineIndex b) headers ->
  getHeaderContext i headers = Some ctx ->
  exists header,
    In header headers /\ h_text header = ctx
    /\ h_lineIndex header < i /\ i - h_lineIndex header <= 10
    /\ forall header', In header' headers ->
         h_lineIndex header' < i -> i - h_lineIndex header' <= 10 ->
         h_lineIndex header <= h_lineIndex header'.
Proof.
  intros Hs. unfold getHeaderContext.
  destruct (find _ headers) as [header|] eqn:E; [|discriminate].
  intros [= <-]. apply find_first in E as (l1 & l2 & -> & Hp & Hl1).
  apply andb_true_iff in Hp as [Hlt Hle].
  apply Nat.ltb_lt in Hlt. apply Nat.leb_le in Hle.
  exists header. repeat split; auto.
  - apply in_or_app. right. now left.
  - intros header' Hin Hlt' Hle'.
    apply in_app_or in Hin as [Hin|[<-|Hin]]; [| lia |].
    + apply Hl1 in Hin. apply andb_false_iff in Hin as [Hin|Hin].
      * apply Nat.ltb_ge in Hin. lia.
      * apply Nat.leb_gt in Hin. lia.
    + clear Hl1. induction l1 as [|b l1 IH]; simpl in Hs.
      * inversion Hs; subst. rewrite Forall_forall in H2.
        apply H2 in Hin. lia.
      * inversion Hs; subst. now apply IH.
Qed.

(** Two headers above line 2: the context is the first, the nearest header
    is the second. *)
Definition two_headers : list SectionHeader :=
  [ {| h_text := js "STARTERS"; h_confidence := Fin 1; h_lineIndex := 0 |};
    {| h_text := js "MAINS"; h_confidence := Fin 1; h_lineIndex := 1 |} ].

(* ---------------------------------------------------------------- *)
(** ** The line a candidate comes from *)

Section Page.
Context {RT : Runtime}.
Variable W : World.
Variable pageNumber : Q.
Variable ocrLines : list OcrLine.
Variable lines : list jsstring.
Variable sectionHeaders : list SectionHeader.

(** The candidates that the loop over the lines holds when it reaches line
    [i], with the state then. *)
Definition reached (i : nat) (st : State) : list Candidate * State :=
  lines_loop W pageNumber ocrLines lines sectionHeaders 0 (firstn i ocrLines) [] st.

(** The candidates pushed while line [i] is processed: those that the body
    of the loop adds, for that line, to the candidates held so far. *)
Definition pushed_at (i : nat) (st : State) : list Candidate :=
  match nth_error ocrLines i with
  | Some line =>
    skipn (List.length (fst (reached i st)))
          (fst (processLine W pageNumber ocrLines lines sectionHeaders i line
                  (fst (reached i st)) (snd (reached i st))))
  | None => []
  end.

(** A candidate built for line [i]. *)
Definition from_line (i : nat) (c : Candidate) : Prop :=
  c_headerContext c = getHeaderContext i sectionHeaders.

(** The list [r] extends [candidates] with candidates built for line [i]. *)
Definition grows (i : nat) (candidates r : list Candidate) : Prop :=
  exists new, r = candidates ++ new /\ Forall (from_line i) new.

Definition grows_opt (i : nat) (candidates : list Candidate)
    (r : option (list Candidate)) : Prop :=
  match r with
  | Some r' => grows i candidates r'
  | None => True
  end.

Lemma grows_refl i candidates : grows i candidates candidates.
Proof. exists []. split; [now rewrite app_nil_r | constructor]. Qed.

Lemma grows_push i candidates c r :
  from_line i c -> grows i (candidates ++ [c]) r -> grows i candidates r.
Proof.
  intros Hc (new & -> & Hnew). exists (c :: new). split.
  - now rewrite <- app_assoc.
  - now constructor.
Qed.

Lemma newCandidate_from_line i text bbox features confidence databaseMatch :
  always (newCandidate W pageNumber sectionHeaders i text bbox features confidence
            databaseMatch) (from_line i).
Proof. unfold newCandidate. step_any. apply always_ret. reflexivity. Qed.

(** The gate followed by the construction of the candidate. *)
Lemma gated_push_grows {B} i text bbox features confidence databaseMatch (g : bool)
    (candidates : list Candidate) (k : list Candidate -> M B) (e : M B)
    (P : B -> Prop) :
  (forall c, from_line i c -> always (k (candidates ++ [c])) P) ->
  always e P ->
  always (ok <- andM (ret g) (isValidEntreeName text) ;;
          if ok then
            candidate <- newCandidate W pageNumber sectionHeaders i text bbox features
                           confidence databaseMatch ;;
            k (candidates ++ [candidate])
          else e) P.
Proof.
  intros Hk He. step_any. case_if; [|exact He].
  apply always_bind with (Q := from_line i); [apply newCandidate_from_line | exact Hk].
Qed.

Lemma push_last i candidates c :
  from_line i c -> always (ret (Some (candidates ++ [c]))) (grows_opt i candidates).
Proof.
  intros Hc. apply always_ret. apply grows_push with (c := c); [exact Hc|].
  apply grows_refl.
Qed.

Lemma allCapsPath_grows i line text vhs candidates :
  always (allCapsPath W pageNumber ocrLines lines sectionHeaders i line text vhs
            candidates) (grows_opt i candidates).
Proof.
  unfold allCapsPath.
  destruct (isAllCapsText text); [|apply always_ret; exact I].
  step_any. case_if; [apply always_ret; apply grows_refl|].
  step_any. step_any.
  apply gated_push_grows with (k := fun cs => ret (Some cs)).
  - intros c Hc. now apply push_last.
  - apply always_ret. exact I.
Qed.

Lemma compound_loop_grows i line vhs items : forall candidates,
  always (compound_loop W pageNumber ocrLines lines sectionHeaders i line vhs items
            candidates) (grows i candidates).
Proof.
  induction items as [|item rest IH]; intros candidates; simpl.
  - apply always_ret. apply grows_refl.
  - step_any. case_if; [|apply IH].
    step_any. step_any.
    apply gated_push_grows
      with (k := compound_loop W pageNumber ocrLines lines sectionHeaders i line vhs rest);
      [|apply IH].
    intros c Hc. eapply always_weaken; [apply IH|].
    intros r Hr. now apply grows_push with (c := c).
Qed.

Lemma hierarchyPath_grows i line text vhs candidates :
  always (hierarchyPath W pageNumber ocrLines lines sectionHeaders i line text vhs
            candidates) (grows_opt i candidates).
Proof.
  unfold hierarchyPath.
  case_if; [|apply always_ret; exact I].
  case_if.
  - apply always_bind with (Q := grows i candidates).
    + apply compound_loop_grows.
    + intros cs Hcs. apply always_ret. exact Hcs.
  - step_any. step_any.
    case_if; [apply always_ret; apply grows_refl|].
    step_any. step_any.
    apply gated_push_grows with (k := fun cs => ret (Some cs)).
    + intros c Hc. now apply push_last.
    + apply always_ret. exact I.
Qed.

Lemma parts_loop_grows i lineParts : forall candidates,
  always (parts_loop W pageNumber ocrLines lines sectionHeaders i lineParts candidates)
         (grows i candidates).
Proof.
  induction lineParts as [|part rest IH]; intros candidates; simpl.
  - apply always_ret. apply grows_refl.
  - step_any.
    case_if; [apply IH|].
    step_any.
    case_if; [apply IH|].
    step_any. step_any. step_any. step_any.
    apply gated_push_grows
      with (k := parts_loop W pageNumber ocrLines lines sectionHeaders i rest).
    + intros c Hc. eapply always_weaken; [apply IH|].
      intros r Hr. now apply grows_push with (c := c).
    + step_any. apply IH.
Qed.

Lemma defaultPath_grows i line text candidates :
  always (defaultPath W pageNumber ocrLines lines sectionHeaders i line text candidates)
         (grows i candidates).
Proof. unfold defaultPath. step_any. step_any. apply parts_loop_grows. Qed.

(** The body of the loop only appends, and what it appends was built for
    its line. *)
Lemma processLine_grows i line candidates :
  always (processLine W pageNumber ocrLines lines sectionHeaders i line candidates)
         (grows i candidates).
Proof.
  unfold processLine.
  repeat match goal with
         | |- always (if ?c then _ else _) _ =>
           destruct c; [apply always_ret; apply grows_refl|]
         end.
  step_any. step_any.
  case_if; [apply always_ret; apply grows_refl|].
  step_any. step_any.
  apply always_bind with (Q := grows_opt i candidates); [apply allCapsPath_grows|].
  intros [cs|] Hcs; [apply always_ret; exact Hcs|].
  apply always_bind with (Q := grows_opt i candidates); [apply hierarchyPath_grows|].
  intros [cs|] Hcs'; [apply always_ret; exact Hcs'|].
  apply defaultPath_grows.
Qed.

Lemma lines_loop_app l1 : forall l2 i candidates st,
  lines_loop W pageNumber ocrLines lines sectionHeaders i (l1 ++ l2) candidates st
  = lines_loop W pageNumber ocrLines lines sectionHeaders (i + List.length l1) l2
      (fst (lines_loop W pageNumber ocrLines lines sectionHeaders i l1 candidates st))
      (snd (lines_loop W pageNumber ocrLines lines sectionHeaders i l1 candidates st)).
Proof.
  induction l1 as [|line l1 IH]; intros l2 i candidates st.
  - cbn [app lines_loop List.length]. unfold ret. cbn [fst snd].
    now rewrite Nat.add_0_r.
  - cbn [app lines_loop List.length]. unfold bind.
    destruct (processLine _ _ _ _ _ _ _ _ st) as [cs st'].
    rewrite IH. now rewrite Nat.add_succ_r.
Qed.

Lemma firstn_snoc {A} (l : list A) : forall i a,
  nth_error l i = Some a -> firstn (S i) l = firstn i l ++ [a].
Proof.
  induction l as [|b l IH]; intros [|i] a H; try discriminate.
  - injection H as ->. reflexivity.
  - cbn [firstn app]. f_equal. now apply IH.
Qed.

(** The step of the loop from line [i] to the next. *)
Lemma reached_succ i line st :
  nth_error ocrLines i = Some line ->
  fst (reached (S i) st) = fst (reached i st) ++ pushed_at i st
  /\ Forall (from_line i) (pushed_at i st).
Proof.
  intros Hn. unfold pushed_at. rewrite Hn. unfold reached at 1.
  rewrite (firstn_snoc _ _ Hn), lines_loop_app.
  fold (reached i st). cbn [lines_loop]. unfold bind, ret.
  assert (Hlen : List.length (firstn i ocrLines) = i).
  { apply firstn_length_le. apply Nat.lt_le_incl. apply nth_error_Some. congruence. }
  rewrite Hlen. cbn [Nat.add].
  destruct (processLine_grows i line (fst (reached i st)) (snd (reached i st)))
    as (new & E & Hnew).
  destruct (processLine _ _ _ _ _ _ _ _ (snd (reached i st))) as [cs st'].
  cbn [fst] in *. subst cs.
  replace (skipn (List.length (fst (reached i st))) (fst (reached i st) ++ new))
    with new.
  - split; [reflexivity | exact Hnew].
  - rewrite skipn_app, skipn_all, Nat.sub_diag. reflexivity.
Qed.

(** Every candidate held when the loop reaches line [n] was pushed while
    an earlier line was processed. *)
Lemma reached_pushed st c : forall n,
  n <= List.length ocrLines ->
  In c (fst (reached n st)) ->
  exists i line,
    i < n /\ nth_error ocrLines i = Some line /\ In c (pushed_at i st).
Proof.
  induction n as [|n IH]; intros Hn Hin.
  - unfold reached in Hin. cbn in Hin. contradiction.
  - destruct (nth_error ocrLines n) as [line|] eqn:E;
      [|apply nth_error_None in E; lia].
    destruct (reached_succ n st E) as [Hs _]. rewrite Hs in Hin.
    apply in_app_or in Hin as [Hin|Hin].
    + destruct (IH (Nat.lt_le_incl _ _ Hn) Hin) as (i & l & Hi & Hl & Hp).
      exists i, l. split; [lia | split; assumption].
    + exists n, line. split; [lia | split; assumption].
Qed.

Lemma pushed_at_from_line i st c : In c (pushed_at i st) -> from_line i c.
Proof.
  intros Hin. destruct (nth_error ocrLines i) as [line|] eqn:E.
  - destruct (reached_succ i st E) as [_ H]. rewrite Forall_forall in H. now apply H.
  - unfold pushed_at in Hin. rewrite E in Hin. contradiction.
Qed.
End Page.

(** Every candidate returned was pushed while some line of the page was
    processed, and carries the header context computed for that line. *)
Lemma extractCandidates_source `{RT : Runtime} (W : World) (ocrLines : list OcrLine)
    (pageNumber : Q) (topN : Z) (st : State) (c : Candidate) :
  In c (fst (extractCandidates W ocrLines pageNumber topN st)) ->
  exists i line,
    nth_error ocrLines i = Some line
    /\ In c (pushed_at W pageNumber ocrLines (map line_text ocrLines)
               (detectSectionHeaders (map line_text ocrLines)) i st)
    /\ c_headerContext c
       = getHeaderContext i (detectSectionHeaders (map line_text ocrLines)).
Proof.
  rewrite extractCandidates_ranking. intros Hin.
  apply slice0_In in Hin. unfold ranking in Hin.
  apply (proj1 (sort_desc_In _ _)) in Hin.
  assert (Hall : In c (fst (reached W pageNumber ocrLines (map line_text ocrLines)
                              (detectSectionHeaders (map line_text ocrLines))
                              (List.length ocrLines) st))).
  { unfold reached. rewrite firstn_all. exact Hin. }
  apply reached_pushed in Hall as (i & line & _ & Hl & Hp); [|apply le_n].
  exists i, line. split; [exact Hl|]. split; [exact Hp|].
  exact (pushed_at_from_line _ _ _ _ _ _ _ _ Hp).
Qed.

(** C10. Every candidate returned by [extractCandidates] was pushed while
    some line [i] of the page was processed, its source line; a header
    context that it carries is the text of a detected section header that
    lies strictly above line [i], at most 10 lines away, and that is the
    earliest such header in document order; this choice can differ from the
    nearest header above, which [findNearestHeaderAbove] returns. *)
Theorem headerContext_is_earliest_header `{RT : Runtime} (W : World)
    (ocrLines : list OcrLine) (pageNumber : Q) (topN : Z) (st : State)
    (c : Candidate) (ctx : jsstring) :
  In c (fst (extractCandidates W ocrLines pageNumber topN st)) ->
  c_headerContext c = Some ctx ->
  (exists i line header,
     nth_error ocrLines i = Some line
     /\ In c (pushed_at W pageNumber ocrLines (map line_text ocrLines)
                (detectSectionHeaders (map line_text ocrLines)) i st)
     /\ In header (detectSectionHeaders (map line_text ocrLines))
     /\ h_text header = ctx
     /\ h_lineIndex header < i /\ i - h_lineIndex header <= 10
     /\ forall header',
          In header' (detectSectionHeaders (map line_text ocrLines)) ->
          h_lineIndex header' < i -> i - h_lineIndex header' <= 10 ->
          h_lineIndex header <= h_lineIndex header')
  /\ (getHeaderContext 2 two_headers = Some (js "STARTERS")
      /\ option_map h_text (findNearestHeaderAbove 2 two_headers 10)
         = Some (js "MAINS")).
Proof.
  intros Hin Hctx. split; [|split; reflexivity].
  destruct (extractCandidates_source W ocrLines pageNumber topN st c Hin)
    as (i & line & Hl & Hp & Hget).
  rewrite Hctx in Hget. symmetry in Hget.
  apply getHeaderContext_spec in Hget as (header & H1 & H2 & H3 & H4 & H5).
  - exists i, line, header. repeat split; auto.
  - apply detect_from_sorted.
Qed.

(** A page with two headers above a dish: the dish of line 2 carries the
    first header, not the nearest one. *)
Definition salmon_page : list OcrLine :=
  Reference.page ["ENTREES"; "MAINS"; "Grilled Salmon $24"]%string.

Lemma headerContext_is_earliest_header_witness :
  exists c,
    nth_error (fst (extractCandidates (RT := Reference.runtime) Reference.world
                      salmon_page 1 100 init_state)) 0
      = Some c
    /\ c_headerContext c = Some (js "ENTREES")
    /\ pushed_at (RT := Reference.runtime) Reference.world 1 salmon_page
         (map line_text salmon_page)
         (detectSectionHeaders (RT := Reference.runtime) (map line_text salmon_page))
         2 init_state = [c]
    /\ exists i line header,
         nth_error salmon_page i = Some line
         /\ In c (pushed_at (RT := Reference.runtime) Reference.world 1 salmon_page
                    (map line_text salmon_page)
                    (detectSectionHeaders (RT := Reference.runtime)
                       (map line_text salmon_page)) i init_state)
         /\ In header (detectSectionHeaders (RT := Reference.runtime)
                         (map line_text salmon_page))
         /\ h_text header = js "ENTREES"
         /\ h_lineIndex header < i /\ i - h_lineIndex header <= 10.
Proof.
  destruct (nth_error
              (fst (extractCandidates (RT := Reference.runtime) Reference.world
                      salmon_page 1 100 init_state)) 0)
    as [c|] eqn:E; [|vm_compute in E; discriminate].
  exists c. split; [reflexivity|].
  assert (Hctx : c_headerContext c = Some (js "ENTREES")).
  { vm_compute in E. injection E as <-. reflexivity. }
  split; [exact Hctx|].
  split; [vm_compute in E; injection E as <-; vm_compute; reflexivity|].
  destruct (@headerContext_is_earliest_header Reference.runtime Reference.world
              salmon_page 1%Q 100%Z init_state c (js "ENTREES")
              (nth_error_In _ _ E) Hctx)
    as [(i & line & header & H0 & H1 & H2 & H3 & H4 & H5 & _) _].
  exists i, line, header.
  exact (conj H0 (conj H1 (conj H2 (conj H3 (conj H4 H5))))).
Defined.
End RankingFacts.

(* ================================================================== *)
(** * Properties of the matcher *)
(* ================================================================== *)

Module RegexFacts.

Arguments class_mem : simpl never.
Arguments rep_loop : simpl never.

(* ---------------------------------------------------------------- *)
(** ** Classes *)

Lemma swap_case_digit c : is_digit (swap_case c) = true -> is_digit c = true.
Proof.
  unfold swap_case. destruct (is_upper_ascii c) eqn:U.
  - unfold is_upper_ascii, is_digit, in_range in *.
    apply andb_true_iff in U as [U1 U2]. apply N.leb_le in U1.
    intros H. apply andb_true_iff in H as [_ H]. apply N.leb_le in H. lia.
  - destruct (is_lower_ascii c) eqn:L; [|auto].
    unfold is_lower_ascii, is_digit, in_range in *.
    apply andb_true_iff in L as [L1 L2]. apply N.leb_le in L1.
    intros H. apply andb_true_iff in H as [_ H]. apply N.leb_le in H. lia.
Qed.

Lemma class_digit ci c : class_mem ci (cls r_digit) c = is_digit c.
Proof.
  unfold class_mem, cls, r_digit, range_mem. simpl.
  rewrite orb_false_r. fold (is_digit c). fold (is_digit (swap_case c)).
  destruct (is_digit c) eqn:E; [reflexivity|]. simpl.
  destruct ci; simpl; [|reflexivity].
  destruct (is_digit (swap_case c)) eqn:E'; [|reflexivity].
  apply swap_case_digit in E'. congruence.
Qed.

Lemma class_space c : class_mem false (cls r_space) c = is_space c.
Proof.
  unfold class_mem, cls, r_space, range_mem, is_space, in_range. simpl.
  rewrite !orb_false_r.
  repeat match goal with
         | |- context [(?a <=? c)%N && (c <=? ?a)%N] =>
           replace ((a <=? c)%N && (c <=? a)%N) with (c =? a)%N
             by (destruct (N.eqb_spec c a), (N.leb_spec a c), (N.leb_spec c a);
                 simpl; try reflexivity; lia)
         end.
  replace ((8232 <=? c)%N && (c <=? 8233)%N) with ((c =? 8232)%N || (c =? 8233)%N)
    by (destruct (N.eqb_spec c 8232), (N.eqb_spec c 8233), (N.leb_spec 8232 c),
          (N.leb_spec c 8233); simpl; try reflexivity; lia).
  rewrite !orb_assoc. reflexivity.
Qed.

(** A class all of whose members are digits. *)
Definition digits_only (k : charclass) : bool :=
  negb (cc_neg k)
  && forallb (fun r => (48 <=? fst r)%N && (snd r <=? 57)%N) (cc_ranges k).

Lemma digits_only_mem ci k c :
  digits_only k = true -> class_mem ci k c = true -> is_digit c = true.
Proof.
  unfold digits_only, class_mem. intros H. apply andb_true_iff in H as [Hn Hr].
  apply negb_true_iff in Hn. rewrite Hn. simpl. intros H.
  apply existsb_exists in H as (r & Hin & Hm).
  rewrite forallb_forall in Hr. specialize (Hr r Hin).
  apply andb_true_iff in Hr as [Hlo Hhi].
  apply N.leb_le in Hlo. apply N.leb_le in Hhi.
  assert (Hsub : forall e, in_range e (fst r) (snd r) = true -> is_digit e = true).
  { intros e He. unfold in_range, is_digit in *.
    apply andb_true_iff in He as [H1 H2]. apply N.leb_le in H1. apply N.leb_le in H2.
    apply andb_true_iff. split; apply N.leb_le; lia. }
  unfold range_mem in Hm. apply orb_true_iff in Hm as [Hm|Hm].
  - now apply Hsub.
  - apply andb_true_iff in Hm as [_ Hm]. apply swap_case_digit. now apply Hsub.
Qed.

(* ---------------------------------------------------------------- *)
(** ** The scan *)

(** The code unit before the current index after reading [pre]. *)
Definition prev_after (prev : option N) (pre : list N) : option N :=
  fold_left (fun _ c => Some c) pre prev.

Lemma scan_complete re : forall pre suf pos prev,
  match_here re (pos + List.length pre) (prev_after prev pre) suf <> None ->
  scan re pos prev (pre ++ suf) <> None.
Proof.
  induction pre as [|c pre IH]; intros suf pos prev H.
  - simpl in H. rewrite Nat.add_0_r in H.
    destruct suf; simpl; destruct (match_here re pos prev _); congruence.
  - simpl. destruct (match_here re pos prev (c :: pre ++ suf)); [discriminate|].
    apply IH. simpl in H. rewrite Nat.add_succ_r in H. exact H.
Qed.

Lemma scan_found re : forall rest pos prev m,
  scan re pos prev rest = Some m ->
  exists pre suf,
    rest = pre ++ suf
    /\ match_here re (pos + List.length pre) (prev_after prev pre) suf = Some m.
Proof.
  induction rest as [|c rest IH]; intros pos prev m H; simpl in H.
  - destruct (match_here re pos prev []) eqn:E; [|discriminate].
    exists [], []. simpl. rewrite Nat.add_0_r. split; congruence.
  - destruct (match_here re pos prev (c :: rest)) eqn:E.
    + exists [], (c :: rest). simpl. rewrite Nat.add_0_r. split; congruence.
    + apply IH in H as (pre & suf & -> & H).
      exists (c :: pre), suf. simpl. rewrite Nat.add_succ_r. auto.
Qed.

Lemma prev_at_firstn s : forall i,
  i <= List.length s -> prev_at s i = prev_after None (firstn i s).
Proof.
  intros [|i] Hi; [reflexivity|]. simpl prev_at.
  destruct (nth_error s i) as [c|] eqn:E.
  - apply nth_error_split in E as (l1 & l2 & -> & <-).
    replace (S (List.length l1)) with (List.length (l1 ++ [c]))
      by (rewrite length_app; simpl; lia).
    replace (l1 ++ c :: l2) with ((l1 ++ [c]) ++ l2) by now rewrite <- app_assoc.
    rewrite firstn_app, firstn_all, Nat.sub_diag. simpl. rewrite app_nil_r.
    unfold prev_after. now rewrite fold_left_app.
  - apply nth_error_None in E. lia.
Qed.

(** A pattern that matches nowhere from index 0 matches from no index. *)
Lemma exec_from_none re s :
  exec_from re s 0 = None -> forall i, exec_from re s i = None.
Proof.
  intros H i. unfold exec_from in *. simpl in H.
  destruct (List.length s <? i) eqn:Hi; [reflexivity|].
  apply Nat.ltb_ge in Hi.
  destruct (scan re i (prev_at s i) (skipn i s)) as [m|] eqn:E; [|reflexivity].
  exfalso. apply scan_found in E as (pre & suf & Hs & Hm).
  apply (@scan_complete re (firstn i s ++ pre) suf 0 None).
  - rewrite length_app, length_firstn, Nat.min_l by exact Hi.
    unfold prev_after in *. rewrite fold_left_app.
    rewrite prev_at_firstn in Hm by exact Hi. unfold prev_after in Hm.
    simpl. rewrite Hm. discriminate.
  - rewrite <- app_assoc, <- Hs, firstn_skipn. exact H.
Qed.

Lemma test_global_none re s li :
  re_test re s = false -> test_global re s li = (false, 0).
Proof.
  unfold re_test, test_global. intros H.
  destruct (exec_from re s 0) eqn:E; [discriminate|].
  now rewrite (exec_from_none _ _ E).
Qed.

(* ---------------------------------------------------------------- *)
(** ** Patterns that need a digit *)

Definition digit_free (l : list N) : Prop := Forall (fun c => is_digit c = false) l.

(** A syntactic criterion: every match of the pattern consumes a digit. *)
Fixpoint needs_digit (r : regex) : bool :=
  match r with
  | Cls k => digits_only k
  | Seq a b => needs_digit a || needs_digit b
  | Alt a b => needs_digit a && needs_digit b
  | Rep min max _ a =>
    negb (min =? 0) && negb (match max with Some O => true | _ => false end)
    && needs_digit a
  | Grp _ a => needs_digit a
  | _ => false
  end.

(** A continuation that fails on every state whose rest has no digit. *)
Definition dead (k : cont) : Prop :=
  forall y, digit_free (ms_rest y) -> k y = None.

Lemma set_cap_rest n v x : ms_rest (set_cap n v x) = ms_rest x.
Proof. reflexivity. Qed.

Lemma clear_caps_rest gs : forall x, ms_rest (clear_caps gs x) = ms_rest x.
Proof.
  unfold clear_caps. induction gs as [|g gs IH]; intros x; simpl; [reflexivity|].
  now rewrite IH.
Qed.

Lemma rep_loop_unfold body clear fuel min max greedy x k :
  rep_loop body clear (S fuel) min max greedy x k =
  match max with
  | Some O => k x
  | _ =>
    let d := fun y : mstate =>
      if (min =? 0) && (ms_pos y =? ms_pos x) then None
      else rep_loop body clear fuel (pred min) (option_map pred max) greedy y k in
    if negb (min =? 0) then body (clear x) d
    else if greedy then
      match body (clear x) d with
      | Some z => Some z
      | None => k x
      end
    else
      match k x with
      | Some z => Some z
      | None => body (clear x) d
      end
  end.
Proof. reflexivity. Qed.

Lemma rep_loop_dead body clear :
  (forall x k, digit_free (ms_rest x) -> dead k -> body x k = None) ->
  (forall x, ms_rest (clear x) = ms_rest x) ->
  forall fuel min max greedy x k,
    digit_free (ms_rest x) -> dead k ->
    rep_loop body clear fuel min max greedy x k = None.
Proof.
  intros Hbody Hclear. induction fuel as [|fuel IH]; intros min max greedy x k Hx Hk;
    [reflexivity|].
  rewrite rep_loop_unfold.
  assert (Hd : dead (fun y : mstate =>
                       if (min =? 0) && (ms_pos y =? ms_pos x) then None
                       else rep_loop body clear fuel (pred min) (option_map pred max)
                              greedy y k)).
  { intros y Hy. destruct (_ && _); [reflexivity|]. now apply IH. }
  assert (Hb : body (clear x)
                 (fun y : mstate =>
                    if (min =? 0) && (ms_pos y =? ms_pos x) then None
                    else rep_loop body clear fuel (pred min) (option_map pred max)
                           greedy y k) = None).
  { apply Hbody; [now rewrite Hclear | exact Hd]. }
  destruct max as [[|m]|]; cbv zeta; rewrite ?Hb, ?(Hk x Hx);
    try reflexivity; destruct (negb _), greedy; reflexivity.
Qed.

(** On a rest without digit, a match can only succeed through its
    continuation. *)
Lemma rmatch_dead ci r : forall x k,
  digit_free (ms_rest x) -> dead k -> rmatch ci r x k = None.
Proof.
  induction r as [|c|r1 IH1 r2 IH2|r1 IH1 r2 IH2|min max greedy r IH|n r IH| | | |c|c];
    intros x k Hx Hk; simpl.
  - now apply Hk.
  - destruct (ms_rest x) as [|ch rest] eqn:E; [reflexivity|].
    destruct (class_mem ci c ch); [|reflexivity].
    apply Hk. simpl. now inversion Hx.
  - apply IH1; [exact Hx|]. intros y Hy. now apply IH2.
  - rewrite IH1, IH2; auto.
  - apply rep_loop_dead; auto. apply clear_caps_rest.
  - apply IH; [exact Hx|]. intros y Hy. apply Hk. exact Hy.
  - destruct (ms_prev x); [reflexivity | now apply Hk].
  - destruct (ms_rest x) eqn:E; [|reflexivity]. apply Hk. now rewrite E.
  - destruct (xorb _ _); [now apply Hk | reflexivity].
  - destruct (ms_prev x) as [ch|]; [|now apply Hk].
    destruct (class_mem ci c ch); [reflexivity | now apply Hk].
  - destruct (ms_rest x) as [|ch rest] eqn:E; [apply Hk; now rewrite E|].
    destruct (class_mem ci c ch); [reflexivity | apply Hk; now rewrite E].
Qed.

(** A pattern that needs a digit fails on a rest without digit, whatever
    its continuation. *)
Lemma rmatch_needs_digit ci r :
  needs_digit r = true ->
  forall x k, digit_free (ms_rest x) -> rmatch ci r x k = None.
Proof.
  induction r as [|c|r1 IH1 r2 IH2|r1 IH1 r2 IH2|min max greedy r IH|n r IH| | | |c|c];
    simpl; intros Hn x k Hx; try discriminate.
  - destruct (ms_rest x) as [|ch rest] eqn:E; [reflexivity|].
    destruct (class_mem ci c ch) eqn:M; [|reflexivity].
    apply (digits_only_mem _ _ _ Hn) in M. inversion Hx; subst. congruence.
  - apply orb_true_iff in Hn as [Hn|Hn].
    + now apply IH1.
    + apply rmatch_dead; [exact Hx|]. intros y Hy. now apply IH2.
  - apply andb_true_iff in Hn as [H1 H2]. rewrite IH1, IH2; auto.
  - apply andb_true_iff in Hn as [Hn Hr]. apply andb_true_iff in Hn as [Hmin Hmax].
    rewrite rep_loop_unfold. destruct max as [[|m]|]; try discriminate;
      cbv zeta; rewrite Hmin; apply IH; auto; now rewrite clear_caps_rest.
  - now apply IH.
Qed.

Lemma match_here_digit_free re pos prev rest :
  needs_digit (re_src re) = true -> digit_free rest ->
  match_here re pos prev rest = None.
Proof.
  intros Hn Hr. unfold match_here. now rewrite rmatch_needs_digit.
Qed.

Lemma scan_digit_free re : forall rest pos prev,
  needs_digit (re_src re) = true -> digit_free rest ->
  scan re pos prev rest = None.
Proof.
  induction rest as [|c rest IH]; intros pos prev Hn Hr; simpl;
    rewrite match_here_digit_free by assumption; [reflexivity|].
  apply IH; [exact Hn | now inversion Hr].
Qed.

Lemma exec_from_digit_free re s i :
  needs_digit (re_src re) = true -> digit_free s -> exec_from re s i = None.
Proof.
  intros Hn Hs. unfold exec_from. destruct (_ <? _); [reflexivity|].
  apply scan_digit_free; [exact Hn | now apply Forall_skipn].
Qed.

(** On a text without digit, [patterns.some(p => p.test(text))] is false for
    patterns that need a digit, whatever their [lastIndex]. *)
Lemma some_test_digit_free ps : forall i text li,
  forallb (fun p => needs_digit (re_src p)) ps = true -> digit_free text ->
  fst (some_test ps i text li) = false.
Proof.
  induction ps as [|p ps IH]; intros i text li Hn Ht; simpl; [reflexivity|].
  apply andb_true_iff in Hn as [Hp Hps].
  unfold test_global. rewrite exec_from_digit_free by assumption.
  now apply IH.
Qed.

(* ---------------------------------------------------------------- *)
(** ** Quantified classes *)

(** The state reached from [x] after reading [run], with [rest] left. *)
Definition adv (x : mstate) (run rest : list N) : mstate :=
  {| ms_pos := ms_pos x + List.length run;
     ms_prev := prev_after (ms_prev x) run;
     ms_rest := rest;
     ms_caps := ms_caps x |}.

Lemma adv_nil x : adv x [] (ms_rest x) = x.
Proof. destruct x. unfold adv. simpl. now rewrite Nat.add_0_r. Qed.

Lemma adv_cons x c run rest rest0 :
  adv (advance x c rest0) run rest = adv x (c :: run) rest.
Proof. unfold adv, advance. simpl. now rewrite Nat.add_succ_r. Qed.

Definition in_class (ci : bool) (c : charclass) (run : list N) : Prop :=
  Forall (fun ch => class_mem ci c ch = true) run.

Definition within (n : nat) (max : option nat) : Prop :=
  match max with Some m => n <= m | None => True end.

Lemma succ_eqb_false n : (S n =? n) = false.
Proof. apply Nat.eqb_neq. lia. Qed.

(** One iteration of a quantified class on a rest that starts in the
    class. *)
Lemma rep_cls_step ci c fuel min max greedy x k ch rest :
  ms_rest x = ch :: rest -> class_mem ci c ch = true ->
  rmatch ci (Cls c) (clear_caps [] x)
    (fun y : mstate =>
       if (min =? 0) && (ms_pos y =? ms_pos x) then None
       else rep_loop (rmatch ci (Cls c)) (clear_caps []) fuel (pred min)
              (option_map pred max) greedy y k)
  = rep_loop (rmatch ci (Cls c)) (clear_caps []) fuel (pred min)
      (option_map pred max) greedy (advance x ch rest) k.
Proof.
  intros E M. cbn [rmatch clear_caps fold_left]. rewrite E, M.
  cbn [advance ms_pos]. now rewrite succ_eqb_false, andb_false_r.
Qed.

Lemma rep_cls_stop ci c (d : cont) x :
  match ms_rest x with [] => True | ch :: _ => class_mem ci c ch = false end ->
  rmatch ci (Cls c) (clear_caps [] x) d = None.
Proof.
  intros H. cbn [rmatch clear_caps fold_left].
  destruct (ms_rest x) as [|ch rest]; [reflexivity | now rewrite H].
Qed.

(** A quantified class succeeds as soon as some admissible run leads its
    continuation to success. *)
Lemma rep_cls_some ci c greedy k : forall run fuel min max x rest,
  ms_rest x = run ++ rest -> in_class ci c run ->
  min <= List.length run -> within (List.length run) max ->
  List.length run < fuel ->
  k (adv x run rest) <> None ->
  rep_loop (rmatch ci (Cls c)) (clear_caps []) fuel min max greedy x k <> None.
Proof.
  induction run as [|ch run IH]; intros fuel min max x rest E Hrun Hmin Hmax Hfuel Hk;
    (destruct fuel as [|fuel]; [simpl in Hfuel; lia|]); rewrite rep_loop_unfold.
  - simpl in E. rewrite <- E, adv_nil in Hk.
    simpl in Hmin. assert (min = 0) as -> by lia.
    destruct max as [[|m]|]; [exact Hk| |]; cbv zeta; simpl negb; cbv iota;
      destruct greedy; destruct (k x); try congruence;
      destruct (rmatch _ _ _ _); congruence.
  - inversion Hrun as [|? ? Hch Hrun']; subst.
    assert (Hrec : rep_loop (rmatch ci (Cls c)) (clear_caps []) fuel (pred min)
                     (option_map pred max) greedy (advance x ch (run ++ rest)) k
                   <> None).
    { apply IH with (rest := rest); auto.
      - simpl in Hmin. lia.
      - destruct max as [m|]; simpl in *; [lia | exact I].
      - simpl in Hfuel. lia.
      - now rewrite adv_cons. }
    destruct max as [[|m]|]; [simpl in Hmax; lia| |]; cbv zeta;
      rewrite (rep_cls_step _ _ _ _ _ _ _ _ E Hch);
      destruct (negb (min =? 0)); try exact Hrec;
      destruct greedy;
      destruct (rep_loop _ _ fuel _ _ _ _ _); try congruence;
      destruct (k x); congruence.
Qed.

(** Conversely, a success of a quantified class comes from an admissible
    run. *)
Lemma rep_cls_sound ci c greedy k : forall fuel min max x z,
  within min max ->
  rep_loop (rmatch ci (Cls c)) (clear_caps []) fuel min max greedy x k = Some z ->
  exists run rest,
    ms_rest x = run ++ rest /\ in_class ci c run
    /\ min <= List.length run /\ within (List.length run) max
    /\ k (adv x run rest) = Some z.
Proof.
  induction fuel as [|fuel IH]; intros min max x z Hw H; [discriminate|].
  rewrite rep_loop_unfold in H.
  assert (Hstop : k x = Some z -> min = 0 ->
            exists run rest, ms_rest x = run ++ rest /\ in_class ci c run
              /\ min <= List.length run /\ within (List.length run) max
              /\ k (adv x run rest) = Some z).
  { intros Hk ->. exists [], (ms_rest x). rewrite adv_nil.
    split; [reflexivity|]. split; [constructor|]. split; [simpl; lia|].
    split; [destruct max; simpl; [lia | exact I] | exact Hk]. }
  assert (Hgo : forall d,
            d = (fun y : mstate =>
                   if (min =? 0) && (ms_pos y =? ms_pos x) then None
                   else rep_loop (rmatch ci (Cls c)) (clear_caps []) fuel (pred min)
                          (option_map pred max) greedy y k) ->
            max <> Some 0 ->
            rmatch ci (Cls c) (clear_caps [] x) d = Some z ->
            exists run rest, ms_rest x = run ++ rest /\ in_class ci c run
              /\ min <= List.length run /\ within (List.length run) max
              /\ k (adv x run rest) = Some z).
  { intros d -> Hmax Hb. cbn [rmatch clear_caps fold_left] in Hb.
    destruct (ms_rest x) as [|ch rest] eqn:E; [discriminate|].
    destruct (class_mem ci c ch) eqn:M; [|discriminate].
    cbn [advance ms_pos] in Hb. rewrite succ_eqb_false, andb_false_r in Hb.
    apply IH in Hb as (run & rest' & E' & Hrun & Hmin & Hmx & Hk).
    - exists (ch :: run), rest'. simpl in E'. subst rest.
      rewrite adv_cons in Hk. repeat split; auto.
      + constructor; auto.
      + simpl. lia.
      + destruct max as [m|]; simpl in *; [|exact I].
        destruct m; [congruence | lia].
    - destruct max as [m|]; simpl in *; [|exact I].
      destruct m; [congruence | lia]. }
  destruct max as [[|m]|]; cbv zeta in H.
  - apply Hstop; [exact H | simpl in Hw; lia].
  - destruct (min =? 0) eqn:E0; simpl negb in H; cbv iota in H.
    + apply Nat.eqb_eq in E0.
      destruct greedy.
      * destruct (rmatch ci (Cls c) (clear_caps [] x) _) eqn:Eb.
        -- injection H as ->. eapply Hgo; [| |exact Eb]; [reflexivity | discriminate].
        -- now apply Hstop.
      * destruct (k x) eqn:Ek.
        -- injection H as ->. now apply Hstop.
        -- eapply Hgo; [| |exact H]; [reflexivity | discriminate].
    + eapply Hgo; [| |exact H]; [reflexivity | discriminate].
  - destruct (min =? 0) eqn:E0; simpl negb in H; cbv iota in H.
    + apply Nat.eqb_eq in E0.
      destruct greedy.
      * destruct (rmatch ci (Cls c) (clear_caps [] x) _) eqn:Eb.
        -- injection H as ->. eapply Hgo; [| |exact Eb]; [reflexivity | discriminate].
        -- now apply Hstop.
      * destruct (k x) eqn:Ek.
        -- injection H as ->. now apply Hstop.
        -- eapply Hgo; [| |exact H]; [reflexivity | discriminate].
    + eapply Hgo; [| |exact H]; [reflexivity | discriminate].
Qed.

Lemma rmatch_Rep ci min max greedy r x k :
  rmatch ci (Rep min max greedy r) x k
  = rep_loop (rmatch ci r) (clear_caps (groups r))
      (S (min + List.length (ms_rest x))) min max greedy x k.
Proof. reflexivity. Qed.

(** The rest does not start in the class. *)
Definition stops (ci : bool) (c : charclass) (rest : list N) : Prop :=
  match rest with [] => True | ch :: _ => class_mem ci c ch = false end.

(** A greedy unbounded quantified class whose continuation always succeeds
    takes the longest run. *)
Lemma rep_cls_munch ci c : forall run fuel min x rest,
  ms_rest x = run ++ rest -> in_class ci c run -> stops ci c rest ->
  min <= List.length run -> List.length run < fuel ->
  rep_loop (rmatch ci (Cls c)) (clear_caps []) fuel min None true x Some
  = Some (adv x run rest).
Proof.
  induction run as [|ch run IH]; intros fuel min x rest E Hrun Hstop Hmin Hfuel;
    (destruct fuel as [|fuel]; [simpl in Hfuel; lia|]); rewrite rep_loop_unfold;
    cbv zeta.
  - simpl in E. simpl in Hmin. assert (min = 0) as -> by lia. simpl negb. cbv iota.
    rewrite rep_cls_stop by (rewrite E; exact Hstop).
    now rewrite <- E, adv_nil.
  - inversion Hrun as [|? ? Hch Hrun']; subst.
    cbn [app] in E.
    rewrite (rep_cls_step _ _ _ _ _ _ _ _ E Hch). cbn [option_map].
    rewrite (IH fuel (pred min) (advance x ch (run ++ rest)) rest); auto.
    + rewrite adv_cons. now destruct (negb (min =? 0)).
    + simpl in Hmin. lia.
    + simpl in Hfuel. lia.
Qed.

Lemma rep_cls_fail ci c fuel min greedy x k :
  1 <= min -> stops ci c (ms_rest x) ->
  rep_loop (rmatch ci (Cls c)) (clear_caps []) fuel min None greedy x k = None.
Proof.
  intros Hmin Hstop. destruct fuel as [|fuel]; [reflexivity|].
  rewrite rep_loop_unfold. cbv zeta.
  destruct min as [|min]; [lia|]. simpl negb. cbv iota.
  now apply rep_cls_stop.
Qed.

(* ---------------------------------------------------------------- *)
(** ** Global replacement *)

(** A description of the scan of a pattern that lets [replace] be computed
    piece by piece: either nothing matches and [F] leaves the rest alone,
    or the first match is a non-empty [mid] after [pre], and [F] keeps
    [pre], puts the replacement and goes on after [mid]. *)
Definition scan_chunks (re : RegExp) (by_ : jsstring) (F : jsstring -> jsstring)
  : Prop :=
  forall pos prev rest,
    (scan re pos prev rest = None /\ F rest = rest)
    \/ exists pre mid rest' caps,
         rest = pre ++ mid ++ rest' /\ mid <> []
         /\ scan re pos prev rest
            = Some {| m_start := pos + List.length pre;
                      m_end := pos + List.length pre + List.length mid;
                      m_caps := caps |}
         /\ F rest = pre ++ by_ ++ F rest'.

Lemma splice_chunks re by_ F (s : jsstring) :
  scan_chunks re by_ F ->
  forall fuel i,
    i <= List.length s -> List.length s - i < fuel ->
    splice s i (all_matches fuel re s i) by_ = F (skipn i s).
Proof.
  intros HF. induction fuel as [|fuel IH]; intros i Hi Hfuel; [lia|].
  cbn [all_matches]. unfold exec_from.
  replace (List.length s <? i) with false by (symmetry; apply Nat.ltb_ge; lia).
  destruct (HF i (prev_at s i) (skipn i s))
    as [[Hnone HFr]|(pre & mid & rest' & caps & Hrest & Hmid & Hsome & HFr)].
  - rewrite Hnone. cbn [splice]. now rewrite HFr.
  - rewrite Hsome. cbn [m_start m_end splice].
    assert (Hlen : List.length s - i
                   = List.length pre + List.length mid + List.length rest').
    { rewrite <- length_skipn, Hrest, !length_app. lia. }
    assert (Hm : 0 < List.length mid) by (destruct mid; [congruence | simpl; lia]).
    replace (i + List.length pre + List.length mid =? i + List.length pre)
      with false by (symmetry; apply Nat.eqb_neq; lia).
    replace (i <=? i + List.length pre) with true by (symmetry; apply Nat.leb_le; lia).
    rewrite IH by lia. rewrite HFr. f_equal.
    + unfold substring. rewrite Hrest.
      replace (i + List.length pre - i) with (List.length pre) by lia.
      now rewrite firstn_app, firstn_all, Nat.sub_diag, firstn_O, app_nil_r.
    + f_equal. f_equal.
      replace (i + List.length pre + List.length mid)
        with ((List.length pre + List.length mid) + i) by lia.
      rewrite <- skipn_skipn, Hrest, app_assoc.
      rewrite skipn_app, skipn_all2 by (rewrite length_app; lia).
      rewrite length_app, Nat.sub_diag. reflexivity.
Qed.

Lemma replace_all_chunks re by_ F (s : jsstring) :
  scan_chunks re by_ F -> replace_all re by_ s = F s.
Proof.
  intros HF. unfold replace_all, matches_of.
  rewrite (splice_chunks s HF) by lia. reflexivity.
Qed.

(** The characters outside a class. *)
Definition outside (k : charclass) (s : jsstring) : jsstring :=
  filter (fun c => negb (class_mem false k c)) s.

Lemma match_here_cls k pos prev rest :
  match_here (mk_re (Cls k)) pos prev rest =
  match rest with
  | ch :: _ =>
    if class_mem false k ch
    then Some {| m_start := pos; m_end := S pos; m_caps := [None] |}
    else None
  | [] => None
  end.
Proof.
  unfold match_here. cbn [mk_re re_src re_icase re_groups rmatch ms_rest repeat].
  destruct rest as [|ch rest]; [reflexivity|].
  destruct (class_mem false k ch); reflexivity.
Qed.

Lemma scan_chunks_cls k : scan_chunks (mk_re (Cls k)) [] (outside k).
Proof.
  intros pos prev rest. revert pos prev.
  induction rest as [|ch rest IH]; intros pos prev.
  - left. split; reflexivity.
  - cbn [scan]. rewrite match_here_cls. unfold outside. cbn [filter].
    destruct (class_mem false k ch) eqn:M; cbn [negb].
    + right. exists [], [ch], rest, [None]. cbn [List.length app].
      rewrite Nat.add_0_r, Nat.add_1_r.
      split; [reflexivity|]. split; [discriminate|]. split; reflexivity.
    + destruct (IH (S pos) (Some ch))
        as [[Hnone HF]|(pre & mid & rest' & caps & Hrest & Hmid & Hsome & HF)].
      * left. split; [exact Hnone|]. fold (outside k rest). now rewrite HF.
      * right. exists (ch :: pre), mid, rest', caps. cbn [List.length app].
        rewrite Hsome, Nat.add_succ_r. fold (outside k rest). rewrite HF, Hrest.
        split; [reflexivity|]. split; [exact Hmid|]. split; reflexivity.
Qed.

(** [s.replace(/[k]/g, '')] removes the characters of the class. *)
Lemma replace_all_cls k s : replace_all (mk_re (Cls k)) [] s = outside k s.
Proof. apply replace_all_chunks, scan_chunks_cls. Qed.

(** Collapsing each run of white space into one space. *)
Fixpoint collapse_from (in_run : bool) (s : jsstring) : jsstring :=
  match s with
  | [] => []
  | c :: s' =>
    if is_space c
    then if in_run then collapse_from true s' else 32%N :: collapse_from true s'
    else c :: collapse_from false s'
  end.

Definition collapse (s : jsstring) : jsstring := collapse_from false s.

Fixpoint take_spaces (s : jsstring) : jsstring :=
  match s with
  | c :: s' => if is_space c then c :: take_spaces s' else []
  | [] => []
  end.

Lemma take_drop_spaces s : s = take_spaces s ++ trimStart s.
Proof.
  induction s as [|c s IH]; simpl; [reflexivity|].
  destruct (is_space c); simpl; [now rewrite <- IH | reflexivity].
Qed.

Lemma take_spaces_in_class s : in_class false (cls r_space) (take_spaces s).
Proof.
  induction s as [|c s IH]; simpl; [constructor|].
  destruct (is_space c) eqn:E; constructor; [now rewrite class_space | exact IH].
Qed.

Lemma trimStart_stops s : stops false (cls r_space) (trimStart s).
Proof.
  induction s as [|c s IH]; simpl; [exact I|].
  destruct (is_space c) eqn:E; [exact IH|]. simpl. now rewrite class_space.
Qed.

Lemma collapse_from_run s : collapse_from true s = collapse_from true (trimStart s).
Proof.
  induction s as [|c s IH]; simpl; [reflexivity|].
  destruct (is_space c) eqn:E; [exact IH|]. simpl. now rewrite E.
Qed.

Lemma collapse_from_true_stop s :
  stops false (cls r_space) s -> collapse_from true s = collapse_from false s.
Proof.
  destruct s as [|c s]; simpl; [reflexivity|].
  rewrite class_space. now intros ->.
Qed.

Lemma match_here_spaces pos prev rest :
  match_here re_spaces pos prev rest =
  match rest with
  | ch :: rest' =>
    if is_space ch
    then Some {| m_start := pos;
                 m_end := pos + S (List.length (take_spaces rest'));
                 m_caps := [None] |}
    else None
  | [] => None
  end.
Proof.
  unfold match_here, re_spaces, Re.plus, Re.s.
  cbn [mk_re re_src re_icase re_groups repeat]. rewrite rmatch_Rep.
  cbn [groups ms_rest].
  destruct rest as [|ch rest].
  - rewrite rep_cls_fail; [reflexivity | lia | exact I].
  - destruct (is_space ch) eqn:E.
    + rewrite (@rep_cls_munch false (cls r_space) (ch :: take_spaces rest) _ 1 _
                 (trimStart rest)).
      * reflexivity.
      * cbn [ms_rest]. simpl. now rewrite <- take_drop_spaces.
      * constructor; [now rewrite class_space | apply take_spaces_in_class].
      * apply trimStart_stops.
      * simpl. lia.
      * cbn [List.length]. rewrite (take_drop_spaces rest) at 2.
        rewrite length_app. lia.
    + rewrite rep_cls_fail; [reflexivity | lia |].
      simpl. now rewrite class_space.
Qed.

Lemma scan_chunks_spaces : scan_chunks re_spaces [32%N] collapse.
Proof.
  intros pos prev rest. revert pos prev.
  induction rest as [|ch rest IH]; intros pos prev.
  - left. split; reflexivity.
  - cbn [scan]. rewrite match_here_spaces. unfold collapse. cbn [collapse_from].
    destruct (is_space ch) eqn:E.
    + right. exists [], (ch :: take_spaces rest), (trimStart rest), [None].
      cbn [List.length app]. rewrite Nat.add_0_r.
      split; [simpl; now rewrite <- take_drop_spaces|].
      split; [discriminate|]. split; [reflexivity|].
      rewrite collapse_from_run.
      now rewrite collapse_from_true_stop by apply trimStart_stops.
    + destruct (IH (S pos) (Some ch))
        as [[Hnone HF]|(pre & mid & rest' & caps & Hrest & Hmid & Hsome & HF)].
      * left. split; [exact Hnone|]. unfold collapse in HF. now rewrite HF.
      * right. exists (ch :: pre), mid, rest', caps. cbn [List.length app].
        rewrite Hsome, Nat.add_succ_r. unfold collapse in HF. rewrite HF, Hrest.
        split; [reflexivity|]. split; [exact Hmid|]. split; reflexivity.
Qed.

(** [s.replace(/\s+/g, ' ')] collapses the runs of white space. *)
Lemma replace_all_spaces s : replace_all re_spaces (js " ") s = collapse s.
Proof. apply (@replace_all_chunks re_spaces [32%N] collapse), scan_chunks_spaces. Qed.

(* ---------------------------------------------------------------- *)
(** ** Trimming and collapsing *)

Lemma trimStart_idem s : trimStart (trimStart s) = trimStart s.
Proof.
  induction s as [|c s IH]; simpl; [reflexivity|].
  destruct (is_space c) eqn:E; [exact IH|]. simpl. now rewrite E.
Qed.

Lemma trimStart_snoc s c :
  is_space c = false -> trimStart (s ++ [c]) = trimStart s ++ [c].
Proof.
  intros Hc. induction s as [|d s IH]; simpl; [now rewrite Hc|].
  destruct (is_space d); [exact IH | reflexivity].
Qed.

Lemma trimEnd_idem s : trimEnd (trimEnd s) = trimEnd s.
Proof. unfold trimEnd. now rewrite rev_involutive, trimStart_idem. Qed.

Lemma trimEnd_keeps_head c s :
  is_space c = false -> exists t, trimEnd (c :: s) = c :: t.
Proof.
  intros Hc. unfold trimEnd. simpl rev. rewrite trimStart_snoc by exact Hc.
  rewrite rev_app_distr. simpl. eauto.
Qed.

Lemma trim_idem s : trim (trim s) = trim s.
Proof.
  unfold trim.
  assert (H : trimStart (trimEnd (trimStart s)) = trimEnd (trimStart s)).
  { destruct (trimStart s) as [|c y] eqn:E; [reflexivity|].
    assert (Hc : is_space c = false).
    { clear -E. induction s as [|d s IH]; simpl in E; [discriminate|].
      destruct (is_space d) eqn:Ed; [now apply IH | congruence]. }
    destruct (@trimEnd_keeps_head c y Hc) as [t ->]. simpl. now rewrite Hc. }
  rewrite H. apply trimEnd_idem.
Qed.

(** The string ends where [trimEnd] cuts it, up to what was cut. *)
Lemma trimEnd_prefix s : exists t, s = trimEnd s ++ t.
Proof.
  unfold trimEnd. exists (rev (take_spaces (rev s))).
  rewrite <- rev_app_distr, <- take_drop_spaces. now rewrite rev_involutive.
Qed.

(** No white space but single spaces, none of them after another ([b]: a
    space came just before). *)
Fixpoint neat (b : bool) (s : jsstring) : bool :=
  match s with
  | [] => true
  | c :: s' =>
    if is_space c then (c =? 32)%N && negb b && neat true s'
    else neat false s'
  end.

Lemma neat_collapse_id s : forall b, neat b s = true -> collapse_from b s = s.
Proof.
  induction s as [|c s IH]; intros b H; simpl in *; [reflexivity|].
  destruct (is_space c).
  - apply andb_true_iff in H as [H Hs]. apply andb_true_iff in H as [Hc Hb].
    apply N.eqb_eq in Hc. apply negb_true_iff in Hb. subst.
    now rewrite IH.
  - now rewrite IH.
Qed.

Lemma neat_collapse s : forall b, neat b (collapse_from b s) = true.
Proof.
  induction s as [|c s IH]; intros b; simpl; [reflexivity|].
  destruct (is_space c) eqn:E.
  - destruct b; [apply IH|]. simpl. now rewrite IH.
  - simpl. rewrite E. apply IH.
Qed.

Lemma neat_relax s : neat true s = true -> neat false s = true.
Proof.
  destruct s as [|c s]; simpl; [reflexivity|].
  destruct (is_space c); [|auto]. rewrite andb_false_r. discriminate.
Qed.

Lemma neat_trimStart s : forall b, neat b s = true -> neat false (trimStart s) = true.
Proof.
  induction s as [|c s IH]; intros b H; simpl in *; [reflexivity|].
  destruct (is_space c) eqn:E.
  - apply andb_true_iff in H as [_ H]. now apply IH with (b := true).
  - simpl. now rewrite E.
Qed.

Lemma neat_prefix s t : forall b, neat b (s ++ t) = true -> neat b s = true.
Proof.
  induction s as [|c s IH]; intros b H; simpl in *; [reflexivity|].
  destruct (is_space c).
  - apply andb_true_iff in H as [H Hs]. rewrite H. simpl. now apply IH.
  - now apply IH.
Qed.

Lemma neat_trim s : neat false s = true -> neat false (trim s) = true.
Proof.
  intros H. unfold trim. apply neat_trimStart in H.
  destruct (trimEnd_prefix (trimStart s)) as [t Ht].
  rewrite Ht in H. now apply neat_prefix in H.
Qed.

(** Normalising white space twice is normalising it once. *)
Lemma trim_collapse_idem s :
  trim (collapse (trim (collapse s))) = trim (collapse s).
Proof.
  unfold collapse at 1.
  rewrite neat_collapse_id by (apply neat_trim, neat_collapse).
  apply trim_idem.
Qed.


Lemma Forall_trimStart (P : N -> Prop) s : Forall P s -> Forall P (trimStart s).
Proof.
  induction 1 as [|c s Hc Hs IH]; simpl; [constructor|].
  destruct (is_space c); [exact IH | now constructor].
Qed.

Lemma Forall_trim (P : N -> Prop) s : Forall P s -> Forall P (trim s).
Proof.
  intros H. unfold trim, trimEnd.
  apply Forall_rev, Forall_trimStart, Forall_rev, Forall_trimStart, H.
Qed.

(* ---------------------------------------------------------------- *)
(** ** Patterns that match nowhere *)

Lemma exec_none_matches re s : exec_from re s 0 = None -> matches_of re s = [].
Proof. unfold matches_of. cbn [all_matches]. now intros ->. Qed.

Lemma replace_all_none re by_ s : exec_from re s 0 = None -> replace_all re by_ s = s.
Proof.
  intros H. unfold replace_all. now rewrite (exec_none_matches _ _ H).
Qed.

Lemma re_test_false re s : re_test re s = false -> exec_from re s 0 = None.
Proof. unfold re_test. now destruct (exec_from re s 0). Qed.

(** A class that matches nowhere has no member in the text. *)
Lemma scan_cls_none k s : forall pos prev,
  scan (mk_re (Cls k)) pos prev s = None <->
  Forall (fun c => class_mem false k c = false) s.
Proof.
  induction s as [|c s IH]; intros pos prev; cbn [scan]; rewrite match_here_cls.
  - split; [constructor | reflexivity].
  - destruct (class_mem false k c) eqn:M.
    + split; [discriminate|]. intros H. inversion H; subst. congruence.
    + rewrite IH. split; intros H; [now constructor | now inversion H].
Qed.

Lemma re_test_cls_false k s :
  re_test (mk_re (Cls k)) s = false <->
  Forall (fun c => class_mem false k c = false) s.
Proof.
  rewrite <- (scan_cls_none k s 0 None).
  unfold re_test, exec_from. cbn [Nat.ltb Nat.leb skipn prev_at].
  destruct (scan _ 0 None s); split; congruence.
Qed.
End RegexFacts.

(* ================================================================== *)
(** * Properties of the price normalizer and of the price predicates *)
(* ================================================================== *)

(** From here on the statements mention the results of whole runs of the
    normalizer and of the extraction; arguments are passed explicitly. *)
Unset Implicit Arguments.

Module PriceFacts.
Import RegexFacts TextUtils PriceRemoval.

(* ---------------------------------------------------------------- *)
(** ** Standalone numbers *)

Definition standalone_re (lo hi : nat) : RegExp :=
  mk_re (Re.seq [WordB; Re.rep lo hi Re.d; WordB]).

Definition is_digits (ds : list N) : Prop := Forall (fun c => is_digit c = true) ds.

(** A run of [lo] to [hi] digits between two word boundaries. *)
Definition standalone (lo : nat) (hi : option nat) (s : jsstring) : Prop :=
  exists pre ds post,
    s = pre ++ ds ++ post
    /\ lo <= List.length ds /\ within (List.length ds) hi
    /\ is_digits ds
    /\ is_word_opt (prev_after None pre) = false
    /\ is_word_opt (hd_error post) = false.

Lemma is_digit_word c : is_digit c = true -> is_word c = true.
Proof.
  unfold is_word, is_digit, is_ascii_letter, is_upper_ascii, is_lower_ascii, in_range.
  intros H. rewrite H. now rewrite !orb_true_r.
Qed.

Lemma prev_after_digits ds : forall prev,
  is_digits ds -> ds <> [] -> is_word_opt (prev_after prev ds) = true.
Proof.
  induction ds as [|c ds IH]; intros prev H Hne; [congruence|].
  inversion H; subst. destruct ds as [|c' ds].
  - simpl. now apply is_digit_word.
  - change (prev_after prev (c :: c' :: ds)) with (prev_after (Some c) (c' :: ds)).
    apply IH; [assumption | discriminate].
Qed.

Lemma is_digits_in_class ds : is_digits ds <-> in_class false (cls r_digit) ds.
Proof.
  unfold is_digits, in_class. split; apply Forall_impl; intros c;
    now rewrite class_digit.
Qed.

Lemma match_here_standalone lo hi pos prev rest :
  match_here (standalone_re lo hi) pos prev rest =
  let x := {| ms_pos := pos; ms_prev := prev; ms_rest := rest; ms_caps := [None] |} in
  match
    (if xorb (is_word_opt prev) (is_word_opt (hd_error rest))
     then rep_loop (rmatch false (Cls (cls r_digit))) (clear_caps [])
            (S (lo + List.length rest)) lo (Some hi) true x
            (fun y => if xorb (is_word_opt (ms_prev y))
                              (is_word_opt (hd_error (ms_rest y)))
                      then Some y else None)
     else None)
  with
  | Some y => Some {| m_start := pos; m_end := ms_pos y; m_caps := ms_caps y |}
  | None => None
  end.
Proof. reflexivity. Qed.

Lemma standalone_complete lo hi s :
  1 <= lo -> standalone lo (Some hi) s -> re_test (standalone_re lo hi) s = true.
Proof.
  intros Hlo (pre & ds & post & -> & Hmin & Hmax & Hds & Hpre & Hpost).
  assert (Hne : ds <> []) by (destruct ds; [simpl in Hmin; lia | discriminate]).
  unfold re_test, exec_from. cbn [Nat.ltb Nat.leb skipn prev_at].
  destruct (scan _ 0 None _) eqn:E; [reflexivity|]. exfalso.
  revert E. apply scan_complete. rewrite match_here_standalone. cbv zeta.
  rewrite Hpre.
  destruct ds as [|d0 ds']; [congruence|].
  assert (Hd0 : is_word d0 = true) by (inversion Hds; now apply is_digit_word).
  cbn [app hd_error is_word_opt]. rewrite Hd0. cbn [xorb].
  match goal with
  | |- match ?r with _ => _ end <> None =>
    assert (Hr : r <> None); [|destruct r; congruence]
  end.
  apply rep_cls_some with (run := d0 :: ds') (rest := post).
  - reflexivity.
  - now apply is_digits_in_class.
  - exact Hmin.
  - exact Hmax.
  - cbn [List.length app]. rewrite length_app. cbn [List.length] in *. lia.
  - unfold adv. cbn [ms_prev ms_rest].
    rewrite prev_after_digits, Hpost by assumption. discriminate.
Qed.

Lemma standalone_sound lo hi s :
  1 <= lo -> lo <= hi ->
  re_test (standalone_re lo hi) s = true -> standalone lo (Some hi) s.
Proof.
  intros Hlo Hhi H. unfold re_test, exec_from in H.
  cbn [Nat.ltb Nat.leb skipn prev_at] in H.
  destruct (scan _ 0 None s) as [m|] eqn:E; [clear H|discriminate].
  apply scan_found in E as (pre & suf & -> & E).
  rewrite match_here_standalone in E. cbv zeta in E.
  destruct (xorb _ _) eqn:X; [|discriminate].
  destruct (rep_loop _ _ _ _ _ _ _ _) as [y|] eqn:R; [clear E|discriminate].
  apply rep_cls_sound in R; [|exact Hhi].
  destruct R as (run & rest & Hrest & Hrun & Hmin & Hmax & Hk).
  cbn [ms_rest] in Hrest. subst suf.
  unfold adv in Hk. cbn [ms_prev ms_rest] in Hk.
  destruct (xorb (is_word_opt (prev_after _ run)) _) eqn:X2; [clear Hk|discriminate].
  apply is_digits_in_class in Hrun.
  assert (Hne : run <> []) by (destruct run; [simpl in Hmin; lia | discriminate]).
  rewrite prev_after_digits in X2 by assumption.
  exists pre, run, rest. split; [reflexivity|]. split; [exact Hmin|].
  split; [exact Hmax|]. split; [exact Hrun|].
  destruct run as [|d0 run']; [congruence|].
  assert (Hd0 : is_word d0 = true) by (inversion Hrun; now apply is_digit_word).
  cbn [app hd_error is_word_opt] in X. rewrite Hd0 in X.
  split.
  - destruct (is_word_opt (prev_after None pre)); [discriminate | reflexivity].
  - destruct (is_word_opt (hd_error rest)); [discriminate | reflexivity].
Qed.

(* ---------------------------------------------------------------- *)
(** ** Currency symbols *)

Lemma class_currency c :
  class_mem false (cls r_currency) c = false <-> ~ In c (js "$€£¥").
Proof.
  change (js "$€£¥") with [36; 8364; 163; 165]%N.
  unfold class_mem, cls, r_currency, range_mem, in_range. cbn -[N.leb].
  rewrite !orb_false_r. rewrite !orb_false_iff, !andb_false_iff, !N.leb_gt.
  lia.
Qed.

Definition no_currency (s : jsstring) : Prop := Forall (fun c => ~ In c (js "$€£¥")) s.

Lemma no_currency_test s : re_test re_currency s = false <-> no_currency s.
Proof.
  unfold re_currency, Re.currency. rewrite re_test_cls_false.
  unfold no_currency. split; apply Forall_impl; intros c; apply class_currency.
Qed.

(* ---------------------------------------------------------------- *)
(** ** Shared pattern objects *)

Lemma some_test_none ps : forall i text li,
  Forall (fun p => forall j, exec_from p text j = None) ps ->
  fst (some_test ps i text li) = false.
Proof.
  induction ps as [|p ps IH]; intros i text li H; cbn [some_test]; [reflexivity|].
  inversion H as [|? ? Hp Hps]; subst.
  unfold test_global. rewrite Hp. now apply IH.
Qed.

(** When no pattern of the list is found by [some], each one had no match
    from its own [lastIndex]. *)
Lemma some_test_false ps : forall i text li,
  fst (some_test ps i text li) = false ->
  forall n p, nth_error ps n = Some p -> exec_from p text (li (i + n)) = None.
Proof.
  induction ps as [|q ps IH]; intros i text li H n p Hn;
    [destruct n; discriminate|].
  cbn [some_test] in H. unfold test_global in H.
  destruct n as [|n].
  - injection Hn as ->. rewrite Nat.add_0_r.
    destruct (exec_from p text (li i)); [discriminate | reflexivity].
  - destruct (exec_from q text (li i)); [discriminate|].
    specialize (IH _ _ _ H n p Hn). unfold upd in IH.
    replace (S i + n =? i) with false in IH by (symmetry; apply Nat.eqb_neq; lia).
    now rewrite Nat.add_succ_r.
Qed.

Lemma replace_each_state ps : forall i text li j,
  snd (replace_each ps i text li) j
  = if (i <=? j) && (j <? i + List.length ps) then 0 else li j.
Proof.
  induction ps as [|p ps IH]; intros i text li j; cbn [replace_each List.length].
  - destruct (Nat.leb_spec i j), (Nat.ltb_spec j (i + 0)); simpl;
      try reflexivity; lia.
  - rewrite IH. unfold upd.
    destruct (Nat.leb_spec (S i) j), (Nat.ltb_spec j (S i + List.length ps)),
      (Nat.leb_spec i j), (Nat.ltb_spec j (i + S (List.length ps))),
      (Nat.eqb_spec j i); simpl; try reflexivity; lia.
Qed.

Lemma replace_each_id ps : forall i text li,
  Forall (fun p => exec_from p text 0 = None) ps ->
  fst (replace_each ps i text li) = text.
Proof.
  induction ps as [|p ps IH]; intros i text li H; cbn [replace_each]; [reflexivity|].
  inversion H as [|? ? Hp Hps]; subst.
  rewrite (@replace_all_none _ _ _ Hp). now apply IH.
Qed.

(* ---------------------------------------------------------------- *)
(** ** The price predicates *)

Lemma PRICE_PATTERNS_need_digit :
  forallb (fun p => needs_digit (re_src p)) TextUtils.PRICE_PATTERNS = true.
Proof. reflexivity. Qed.

Lemma containsPrice_digit_free text st :
  digit_free text -> fst (TextUtils.containsPrice text st) = false.
Proof.
  intros H. unfold TextUtils.containsPrice.
  pose proof (@some_test_digit_free TextUtils.PRICE_PATTERNS 0 text (st_price st)
                PRICE_PATTERNS_need_digit H) as E.
  destruct (some_test _ _ _ _). exact E.
Qed.

Lemma containsAnyPrice_market text st :
  re_test re_market_price text = true -> fst (containsAnyPrice text st) = true.
Proof.
  intros H. unfold containsAnyPrice. destruct (some_test _ _ _ _).
  cbn [fst]. rewrite H. apply orb_true_r.
Qed.

Lemma comprehensive_quiet text :
  digit_free text -> re_test re_market_price text = false ->
  Forall (fun p => forall j, exec_from p text j = None) COMPREHENSIVE_PRICE_PATTERNS.
Proof.
  intros Hd Hm. unfold COMPREHENSIVE_PRICE_PATTERNS.
  repeat (apply Forall_cons;
          [first [ intros j; apply exec_from_digit_free; [reflexivity | exact Hd]
                 | apply exec_from_none, re_test_false, Hm ] |]).
  constructor.
Qed.

Lemma validateNoPrices_digit_free text st :
  digit_free text -> no_currency text -> re_test re_market_price text = false ->
  fst (validateNoPrices text st) = true.
Proof.
  intros Hd Hc Hm. unfold validateNoPrices, bind, ret, containsAnyPrice.
  pose proof (@some_test_none _ 0 text (st_comprehensive st)
                (@comprehensive_quiet text Hd Hm)) as E.
  destruct (some_test _ _ _ _) as [b li]. cbn [fst] in *. subst b.
  rewrite Hm. apply no_currency_test in Hc. rewrite Hc.
  assert (Hs : re_test re_standalone_2_4 text = false).
  { unfold re_test. now rewrite exec_from_digit_free. }
  rewrite Hs. reflexivity.
Qed.

(* ---------------------------------------------------------------- *)
(** ** The normalizer *)

Lemma removeAllPrices_eq text st :
  fst (removeAllPrices text st) =
  trim (collapse (outside (cls r_currency)
    (replace_all re_standalone_3_4 []
       (fst (replace_each COMPREHENSIVE_PRICE_PATTERNS 0 text (st_comprehensive st)))))).
Proof.
  unfold removeAllPrices. destruct (replace_each _ _ _ _) as [t li]. cbn [fst].
  rewrite replace_all_spaces. unfold re_currency, Re.currency.
  now rewrite replace_all_cls.
Qed.

Lemma removeAllPrices_state text st j :
  j < 9 -> st_comprehensive (snd (removeAllPrices text st)) j = 0.
Proof.
  intros Hj. unfold removeAllPrices.
  pose proof (replace_each_state COMPREHENSIVE_PRICE_PATTERNS 0 text
                (st_comprehensive st) j) as E.
  destruct (replace_each _ _ _ _) as [t li]. cbn [snd fst set_comprehensive st_comprehensive] in *.
  rewrite E. change (List.length COMPREHENSIVE_PRICE_PATTERNS) with 9.
  replace (j <? 0 + 9) with true by (symmetry; apply Nat.ltb_lt; lia).
  reflexivity.
Qed.


Lemma removeAllPrices_tidy text st :
  trim (collapse (fst (removeAllPrices text st))) = fst (removeAllPrices text st).
Proof. rewrite removeAllPrices_eq. apply trim_collapse_idem. Qed.

Lemma outside_id k s :
  Forall (fun c => class_mem false k c = false) s -> outside k s = s.
Proof.
  unfold outside. induction 1 as [|c s Hc Hs IH]; cbn [filter]; [reflexivity|].
  rewrite Hc. cbn [negb]. now rewrite IH.
Qed.

(** A text on which no pattern of the list matches, which has no standalone
    number of 2 to 4 digits and no currency symbol, and whose white space is
    normalised, is left unchanged. *)
Lemma removeAllPrices_fixpoint u st :
  Forall (fun p => exec_from p u 0 = None) COMPREHENSIVE_PRICE_PATTERNS ->
  re_test re_standalone_2_4 u = false ->
  re_test re_currency u = false ->
  trim (collapse u) = u ->
  fst (removeAllPrices u st) = u.
Proof.
  intros Hps Hs Hc Ht. rewrite removeAllPrices_eq, replace_each_id by exact Hps.
  assert (H34 : exec_from re_standalone_3_4 u 0 = None).
  { apply re_test_false.
    destruct (re_test re_standalone_3_4 u) eqn:E; [|reflexivity].
    apply (@standalone_sound 3 4) in E; [|lia|lia].
    destruct E as (pre & ds & post & He & Hmin & Hmax & Hrest).
    assert (Hc2 : re_test re_standalone_2_4 u = true).
    { apply (@standalone_complete 2 4); [lia|].
      exists pre, ds, post. split; [exact He|]. split; [lia|]. split; assumption. }
    congruence. }
  rewrite (@replace_all_none _ _ _ H34).
  rewrite outside_id; [exact Ht|].
  unfold re_currency, Re.currency in Hc. now apply re_test_cls_false.
Qed.

Lemma validateNoPrices_true text st :
  fst (validateNoPrices text st) = true ->
  fst (some_test COMPREHENSIVE_PRICE_PATTERNS 0 text (st_comprehensive st)) = false
  /\ re_test re_standalone_2_4 text = false
  /\ re_test re_currency text = false.
Proof.
  unfold validateNoPrices, bind, ret, containsAnyPrice.
  destruct (some_test _ _ _ _) as [b li]. cbn [fst].
  intros H.
  apply andb_true_iff in H as [H _].
  apply andb_true_iff in H as [H Hc].
  apply andb_true_iff in H as [Hp Hs].
  apply negb_true_iff in Hp, Hs, Hc.
  apply orb_false_iff in Hp as [Hp _]. auto.
Qed.
(* ---------------------------------------------------------------- *)
(** ** Idempotence and validation *)

(** C2 (as stated). [removeAllPrices] is not idempotent: the phrase rule
    runs last, so removing [market price] can leave a number at the end of
    the line, which the next application removes. *)
Lemma removeAllPrices_not_idempotent :
  fst (removeAllPrices (js "a 1 market price") init_state) = js "a 1"
  /\ fst (removeAllPrices (fst (removeAllPrices (js "a 1 market price") init_state))
            (snd (removeAllPrices (js "a 1 market price") init_state))) = js "a"
  /\ js "a" <> js "a 1".
Proof. repeat apply conj; [vm_compute; reflexivity .. | discriminate]. Qed.

(** C2 (amended). Whenever [validateNoPrices], called next on the output of
    [removeAllPrices], accepts it, applying [removeAllPrices] to that output
    again returns it unchanged, whatever the state of the pattern objects
    at the second application. *)
Theorem removeAllPrices_stable_when_valid (text : jsstring) (st st' : State) :
  fst (validateNoPrices (fst (removeAllPrices text st))
         (snd (removeAllPrices text st))) = true ->
  fst (removeAllPrices (fst (removeAllPrices text st)) st')
  = fst (removeAllPrices text st).
Proof.
  intros H. apply validateNoPrices_true in H as (Hp & Hs & Hc).
  apply removeAllPrices_fixpoint; [|exact Hs|exact Hc|apply removeAllPrices_tidy].
  apply Forall_forall. intros p Hin.
  apply In_nth_error in Hin as [n Hn].
  assert (Hlt : n < 9).
  { change 9 with (List.length COMPREHENSIVE_PRICE_PATTERNS).
    apply nth_error_Some. congruence. }
  pose proof (@some_test_false _ _ _ _ Hp n p Hn) as E.
  cbn [Nat.add] in E. now rewrite removeAllPrices_state in E.
Qed.

Lemma removeAllPrices_stable_when_valid_witness :
  fst (removeAllPrices (fst (removeAllPrices (js "Grilled Salmon $24") init_state))
         init_state)
  = fst (removeAllPrices (js "Grilled Salmon $24") init_state).
Proof.
  apply (@removeAllPrices_stable_when_valid (js "Grilled Salmon $24")
           init_state init_state).
  vm_compute. reflexivity.
Defined.

(* ---------------------------------------------------------------- *)
(** ** The phrase [market price] *)

(** [w] spells the lower-case word [t], each letter in either case. *)
Definition any_case (t w : jsstring) : Prop :=
  Forall2 (fun c ch => is_lower_ascii c = true /\ (ch = c \/ ch = (c - 32)%N)) t w.

Lemma any_case_class c ch :
  is_lower_ascii c = true -> ch = c \/ ch = (c - 32)%N ->
  class_mem true (cls [one c]) ch = true /\ is_word ch = true.
Proof.
  intros Hc H. unfold is_lower_ascii, in_range in Hc.
  apply andb_true_iff in Hc as [H1 H2]. apply N.leb_le in H1, H2.
  unfold class_mem, cls, one, range_mem, swap_case, is_word, is_ascii_letter,
    is_upper_ascii, is_lower_ascii, is_digit, in_range.
  cbn [cc_neg cc_ranges existsb fst snd xorb andb].
  destruct H as [->| ->].
  - split.
    + replace ((c <=? c)%N) with true by (symmetry; apply N.leb_le; lia).
      reflexivity.
    + replace ((97 <=? c)%N) with true by (symmetry; apply N.leb_le; lia).
      replace ((c <=? 122)%N) with true by (symmetry; apply N.leb_le; lia).
      cbn. now rewrite orb_true_r.
  - replace ((65 <=? c - 32)%N) with true by (symmetry; apply N.leb_le; lia).
    replace ((c - 32 <=? 90)%N) with true by (symmetry; apply N.leb_le; lia).
    cbn [andb]. split.
    + replace ((c - 32 + 32)%N) with c by lia.
      replace ((c <=? c)%N) with true by (symmetry; apply N.leb_le; lia).
      cbn. now rewrite orb_true_r.
    + reflexivity.
Qed.

(** A literal matches each spelling of its letters. *)
Lemma rmatch_lit t : forall w x (k : cont) rest,
  any_case t w -> ms_rest x = w ++ rest ->
  rmatch true (Re.lit_js t) x k = k (adv x w rest).
Proof.
  induction t as [|c t IH]; intros w x k rest Hw Hx; inversion Hw; subst.
  - cbn [Re.lit_js fold_right rmatch]. cbn [app] in Hx. now rewrite <- Hx, adv_nil.
  - destruct H1 as [Hc Hch].
    destruct (@any_case_class c y Hc Hch) as [Hm _].
    change (Re.lit_js (c :: t)) with (Seq (Cls (cls [one c])) (Re.lit_js t)).
    cbn [rmatch]. cbn [app] in Hx. rewrite Hx, Hm.
    rewrite (IH l' (advance x y (l' ++ rest)) k rest H3 eq_refl). now rewrite adv_cons.
Qed.

Lemma any_case_words t w : any_case t w -> Forall (fun ch => is_word ch = true) w.
Proof.
  induction 1 as [|c ch t w [Hc Hch] _ IH]; constructor; [|exact IH].
  now destruct (@any_case_class c ch Hc Hch).
Qed.

Lemma prev_after_words w : forall prev,
  Forall (fun ch => is_word ch = true) w -> w <> [] ->
  is_word_opt (prev_after prev w) = true.
Proof.
  induction w as [|c w IH]; intros prev H Hne; [congruence|].
  inversion H; subst. destruct w as [|c' w].
  - assumption.
  - change (prev_after prev (c :: c' :: w)) with (prev_after (Some c) (c' :: w)).
    apply IH; [assumption | discriminate].
Qed.

(** The phrase between two word boundaries: the letters of [market] in any
    case, white space, the letters of [price] in any case. *)
Definition market_price_phrase (text : jsstring) : Prop :=
  exists pre w1 sp w2 post,
    text = pre ++ w1 ++ sp ++ w2 ++ post
    /\ any_case (js "market") w1
    /\ sp <> [] /\ Forall (fun c => is_space c = true) sp
    /\ any_case (js "price") w2
    /\ is_word_opt (prev_after None pre) = false
    /\ is_word_opt (hd_error post) = false.

Lemma class_space_ci c : is_space c = true -> class_mem true (cls r_space) c = true.
Proof.
  intros H. rewrite <- class_space in H.
  unfold class_mem, cls in *. cbn [cc_neg cc_ranges xorb] in *.
  apply existsb_exists in H as (r & Hin & Hr). apply existsb_exists.
  exists r. split; [exact Hin|]. unfold range_mem in *.
  cbn [andb orb] in Hr. rewrite orb_false_r in Hr. now rewrite Hr.
Qed.

Lemma market_price_found text :
  market_price_phrase text -> re_test re_market_price text = true.
Proof.
  intros (pre & w1 & sp & w2 & post & -> & H1 & Hne & Hsp & H2 & Hpre & Hpost).
  unfold re_test, exec_from. cbn [Nat.ltb Nat.leb skipn prev_at].
  destruct (scan _ 0 None _) eqn:E; [reflexivity|]. exfalso.
  revert E. apply scan_complete.
  unfold match_here, re_market_price, mk_re_i, Re.seq, Re.lit.
  cbn [re_src re_icase re_groups fold_right repeat].
  match goal with
  | |- match ?r with _ => _ end <> None =>
    assert (Hr : r <> None); [|destruct r; congruence]
  end.
  pose proof (@any_case_words _ _ H1) as Hw1.
  pose proof (@any_case_words _ _ H2) as Hw2.
  assert (N1 : w1 <> []) by (inversion H1; discriminate).
  assert (N2 : w2 <> []) by (inversion H2; discriminate).
  cbn [rmatch ms_prev ms_rest]. rewrite Hpre.
  destruct w1 as [|m0 w1']; [congruence|].
  assert (Hm0 : is_word m0 = true) by now inversion Hw1.
  cbn [app hd_error is_word_opt]. rewrite Hm0. cbn [xorb].
  rewrite rmatch_lit with (w := m0 :: w1') (rest := sp ++ w2 ++ post);
    [|exact H1|reflexivity].
  cbv beta. unfold Re.plus, Re.s. rewrite rmatch_Rep.
  apply rep_cls_some with (run := sp) (rest := w2 ++ post).
  - reflexivity.
  - unfold in_class. eapply Forall_impl; [|exact Hsp].
    intros c Hc. now apply class_space_ci.
  - destruct sp; [congruence | cbn; lia].
  - exact I.
  - unfold adv. cbn [ms_rest]. rewrite !length_app. lia.
  - rewrite rmatch_lit with (w := w2) (rest := post); [|exact H2|reflexivity].
    unfold adv. cbn [ms_prev ms_rest rmatch].
    rewrite (@prev_after_words w2 _ Hw2 N2), Hpost. discriminate.
Qed.

Ltac spell :=
  repeat (apply Forall2_cons;
          [split; [reflexivity | first [left; reflexivity | right; reflexivity]]|]);
  apply Forall2_nil.

(* ---------------------------------------------------------------- *)
(** ** A currency symbol followed by a number *)

Lemma class_word c : class_mem false (cls r_word) c = is_word c.
Proof.
  unfold class_mem, cls, r_word, range_mem, is_word, is_ascii_letter,
    is_upper_ascii, is_lower_ascii, is_digit, in_range.
  cbn [cc_neg cc_ranges existsb fst snd xorb andb].
  rewrite !orb_false_r.
  replace ((95 <=? c)%N && (c <=? 95)%N) with (c =? 95)%N
    by (destruct (N.eqb_spec c 95), (N.leb_spec 95 c), (N.leb_spec c 95);
        simpl; try reflexivity; lia).
  now rewrite !orb_assoc.
Qed.

Lemma class_one c ch : class_mem false (cls [one c]) ch = (ch =? c)%N.
Proof.
  unfold class_mem, cls, one, range_mem, in_range.
  cbn [cc_neg cc_ranges existsb fst snd xorb andb].
  rewrite !orb_false_r.
  destruct (N.eqb_spec ch c), (N.leb_spec c ch), (N.leb_spec ch c);
    simpl; try reflexivity; lia.
Qed.

(** An optional part can be skipped. *)
Lemma rep_opt_skip body clear fuel greedy x (k : cont) :
  k x <> None -> rep_loop body clear (S fuel) 0 (Some 1) greedy x k <> None.
Proof.
  intros Hk. rewrite rep_loop_unfold. cbv zeta. cbn [Nat.eqb negb].
  destruct greedy.
  - destruct (body _ _); [discriminate | exact Hk].
  - destruct (k x); [discriminate | congruence].
Qed.

(** The text [pre ++ symbol :: ds ++ post]: a symbol followed by [lo] to
    [hi] digits, no word character before the symbol nor after the
    digits. *)
Definition symbol_number (symbol : N) (hi : nat) (text : jsstring) : Prop :=
  exists pre ds post,
    text = pre ++ symbol :: ds ++ post
    /\ 1 <= List.length ds <= hi
    /\ is_digits ds
    /\ is_word_opt (prev_after None pre) = false
    /\ is_word_opt (hd_error post) = false.

Lemma not_ahead_ok x (k : cont) :
  is_word_opt (hd_error (ms_rest x)) = false ->
  rmatch false Re.not_ahead_w x k = k x.
Proof.
  unfold Re.not_ahead_w. cbn [rmatch]. destruct (ms_rest x) as [|ch rest]; [reflexivity|].
  cbn [hd_error is_word_opt]. rewrite class_word. now intros ->.
Qed.

Lemma not_behind_ok x (k : cont) :
  is_word_opt (ms_prev x) = false ->
  rmatch false Re.not_behind_w x k = k x.
Proof.
  unfold Re.not_behind_w. cbn [rmatch]. destruct (ms_prev x) as [ch|]; [|reflexivity].
  cbn [is_word_opt]. rewrite class_word. now intros ->.
Qed.

Lemma rmatch_Seq ci a b x k :
  rmatch ci (Seq a b) x k = rmatch ci a x (fun y => rmatch ci b y k).
Proof. reflexivity. Qed.

Lemma rmatch_Cls_hit ci c x (k : cont) ch rest :
  ms_rest x = ch :: rest -> class_mem ci c ch = true ->
  rmatch ci (Cls c) x k = k (advance x ch rest).
Proof. intros E M. cbn [rmatch]. now rewrite E, M. Qed.

(** The digits, then the optional cents skipped, then the look-ahead. *)
Lemma number_tail_found lo hi (tail : regex) x ds post :
  ms_rest x = ds ++ post -> is_digits ds -> ds <> [] ->
  lo <= List.length ds <= hi ->
  (forall y, ms_rest y = post -> rmatch false tail y Some <> None) ->
  rmatch false (Seq (Re.rep lo hi Re.d) tail) x Some <> None.
Proof.
  intros Hx Hds Hne Hlen Htail. rewrite rmatch_Seq. unfold Re.rep, Re.d.
  rewrite rmatch_Rep. cbn [groups].
  apply rep_cls_some with (run := ds) (rest := post).
  - exact Hx.
  - now apply is_digits_in_class.
  - lia.
  - cbn. lia.
  - rewrite Hx, length_app. lia.
  - apply Htail. reflexivity.
Qed.

Lemma cents_tail_found y :
  is_word_opt (hd_error (ms_rest y)) = false ->
  rmatch false (Re.seq [opt_cents; Re.not_ahead_w]) y Some <> None.
Proof.
  intros H. unfold Re.seq. cbn [fold_right]. rewrite rmatch_Seq.
  unfold opt_cents, Re.opt. rewrite rmatch_Rep. cbn [Nat.add].
  apply rep_opt_skip. rewrite rmatch_Seq, (not_ahead_ok _ _ H).
  cbn [rmatch]. discriminate.
Qed.

Lemma opt_space_skip x (k : cont) :
  k x <> None -> rmatch false (Re.opt Re.s) x k <> None.
Proof.
  intros H. unfold Re.opt, Re.s. rewrite rmatch_Rep. cbn [Nat.add].
  now apply rep_opt_skip.
Qed.

Lemma symbol_then_number_found (c : string) text :
  symbol_number (chr c) 3 text ->
  exec_from (mk_re (symbol_then_number c)) text 0 <> None.
Proof.
  intros (pre & ds & post & -> & Hlen & Hds & Hpre & Hpost).
  unfold exec_from. cbn [Nat.ltb Nat.leb skipn prev_at].
  apply scan_complete. unfold match_here, mk_re.
  cbn [re_src re_icase re_groups repeat].
  match goal with
  | |- match ?r with _ => _ end <> None =>
    assert (Hr : r <> None); [|destruct r; congruence]
  end.
  unfold symbol_then_number, Re.seq. cbn [fold_right].
  rewrite rmatch_Seq, not_behind_ok by exact Hpre.
  rewrite rmatch_Seq. unfold Re.ch at 1.
  rewrite rmatch_Cls_hit with (ch := chr c) (rest := ds ++ post);
    [|reflexivity|now rewrite class_one, N.eqb_refl].
  rewrite rmatch_Seq. apply opt_space_skip.
  apply number_tail_found with (ds := ds) (post := post).
  - reflexivity.
  - exact Hds.
  - destruct ds; [cbn in Hlen; lia | discriminate].
  - exact Hlen.
  - intros y Hy. apply cents_tail_found. now rewrite Hy.
Qed.

(** [some] finds a pattern that matches from index 0 when its [lastIndex]
    is 0. *)
Lemma some_test_found ps : forall i text li n p,
  nth_error ps n = Some p -> li (i + n) = 0 -> exec_from p text 0 <> None ->
  fst (some_test ps i text li) = true.
Proof.
  induction ps as [|q ps IH]; intros i text li n p Hn Hli Hp;
    [destruct n; discriminate|].
  cbn [some_test]. unfold test_global.
  destruct (exec_from q text (li i)) as [m|] eqn:E; [reflexivity|].
  destruct n as [|n].
  - injection Hn as ->. rewrite Nat.add_0_r in Hli. rewrite Hli in E. congruence.
  - apply IH with (n := n) (p := p); [exact Hn| |exact Hp].
    unfold upd. replace (S i + n =? i) with false by (symmetry; apply Nat.eqb_neq; lia).
    now rewrite Nat.add_succ_r in Hli.
Qed.

Lemma euro_first text :
  exec_from (mk_re (symbol_then_number "€")) text 0 <> None ->
  forall r, exec_from (mk_re (Alt (symbol_then_number "€") r)) text 0 <> None.
Proof.
  intros H r. unfold exec_from in *. cbn [Nat.ltb Nat.leb skipn prev_at] in *.
  destruct (scan (mk_re (symbol_then_number "€")) 0 None text) as [m|] eqn:E;
    [clear H | congruence].
  apply scan_found in E as (pre & suf & -> & E).
  apply scan_complete. unfold match_here in *.
  cbn [mk_re re_src re_icase re_groups repeat] in *. cbn [rmatch].
  destruct (rmatch false (symbol_then_number "€") _ Some); [discriminate|discriminate].
Qed.

Lemma yen_found text :
  symbol_number (chr "¥") 4 text ->
  exec_from (mk_re (Re.seq [Re.not_behind_w; Re.ch "¥"; Re.opt Re.s; Re.rep 1 4 Re.d;
                            Re.not_ahead_w])) text 0 <> None.
Proof.
  intros (pre & ds & post & -> & Hlen & Hds & Hpre & Hpost).
  unfold exec_from. cbn [Nat.ltb Nat.leb skipn prev_at].
  apply scan_complete. unfold match_here, mk_re.
  cbn [re_src re_icase re_groups repeat].
  match goal with
  | |- match ?r with _ => _ end <> None =>
    assert (Hr : r <> None); [|destruct r; congruence]
  end.
  unfold Re.seq. cbn [fold_right].
  rewrite rmatch_Seq, not_behind_ok by exact Hpre.
  rewrite rmatch_Seq. unfold Re.ch at 1.
  rewrite rmatch_Cls_hit with (ch := chr "¥") (rest := ds ++ post);
    [|reflexivity|now rewrite class_one, N.eqb_refl].
  rewrite rmatch_Seq. apply opt_space_skip.
  apply number_tail_found with (ds := ds) (post := post).
  - reflexivity.
  - exact Hds.
  - destruct ds; [cbn in Hlen; lia | discriminate].
  - exact Hlen.
  - intros y Hy. rewrite rmatch_Seq, not_ahead_ok by now rewrite Hy.
    cbn [rmatch]. discriminate.
Qed.

(** From freshly loaded patterns [containsPrice] accepts every text with
    one of the four symbols followed by a number. *)
Lemma containsPrice_symbol_number text :
  symbol_number (chr "$") 3 text \/ symbol_number (chr "€") 3 text
  \/ symbol_number (chr "£") 3 text \/ symbol_number (chr "¥") 4 text ->
  fst (containsPrice text init_state) = true.
Proof.
  intros H. unfold containsPrice.
  assert (E : fst (some_test PRICE_PATTERNS 0 text (st_price init_state)) = true).
  { destruct H as [H|[H|[H|H]]].
    - apply some_test_found with (n := 0) (p := mk_re (symbol_then_number "$"));
        [reflexivity | reflexivity | now apply symbol_then_number_found].
    - eapply some_test_found with (n := 1); [reflexivity | reflexivity |].
      apply euro_first. now apply symbol_then_number_found.
    - apply some_test_found with (n := 2) (p := mk_re (symbol_then_number "£"));
        [reflexivity | reflexivity | now apply symbol_then_number_found].
    - eapply some_test_found with (n := 3); [reflexivity | reflexivity |].
      now apply yen_found. }
  destruct (some_test _ _ _ _). exact E.
Qed.

(* ---------------------------------------------------------------- *)
(** ** A number followed by the euro sign, with two decimals, or at the end
    of the line *)

(** The second branch of an alternation is tried when the first fails. *)
Lemma alt_second ci a b x (k : cont) :
  rmatch ci b x k <> None -> rmatch ci (Alt a b) x k <> None.
Proof. intros H. cbn [rmatch]. destruct (rmatch ci a x k); [discriminate | exact H]. Qed.

Lemma opt_cents_skip x (k : cont) :
  k x <> None -> rmatch false opt_cents x k <> None.
Proof.
  intros H. unfold opt_cents, Re.opt. rewrite rmatch_Rep. cbn [Nat.add].
  now apply rep_opt_skip.
Qed.

(** At most one white space, taken by [\s?]. *)
Lemma opt_space_found x (k : cont) sp rest :
  ms_rest x = sp ++ rest -> List.length sp <= 1 ->
  Forall (fun c => is_space c = true) sp ->
  k (adv x sp rest) <> None ->
  rmatch false (Re.opt Re.s) x k <> None.
Proof.
  intros Hx Hlen Hsp Hk. unfold Re.opt, Re.s. rewrite rmatch_Rep. cbn [Nat.add].
  apply rep_cls_some with (run := sp) (rest := rest).
  - exact Hx.
  - unfold in_class. revert Hsp. apply Forall_impl. intros c Hc. now rewrite class_space.
  - lia.
  - exact Hlen.
  - rewrite Hx, length_app. lia.
  - exact Hk.
Qed.

(** White space up to the end, taken by [\s*$]. *)
Lemma spaces_to_end x sp :
  ms_rest x = sp -> Forall (fun c => is_space c = true) sp ->
  rmatch false (Re.seq [Re.star Re.s; Eol]) x Some <> None.
Proof.
  intros Hx Hsp. unfold Re.seq, Re.star, Re.s. cbn [fold_right].
  rewrite rmatch_Seq, rmatch_Rep. cbn [Nat.add].
  apply rep_cls_some with (run := sp) (rest := []).
  - now rewrite app_nil_r.
  - unfold in_class. revert Hsp. apply Forall_impl. intros c Hc. now rewrite class_space.
  - lia.
  - exact I.
  - rewrite Hx. lia.
  - rewrite rmatch_Seq. cbn [rmatch adv ms_rest]. discriminate.
Qed.

(** The text [pre ++ ds ++ sp ++ € :: post]: one to three digits, at most
    one white space, the euro sign; no word character before the digits nor
    after the sign. *)
Definition number_euro (text : jsstring) : Prop :=
  exists pre ds sp post,
    text = pre ++ ds ++ sp ++ chr "€" :: post
    /\ 1 <= List.length ds <= 3
    /\ is_digits ds
    /\ List.length sp <= 1
    /\ Forall (fun c => is_space c = true) sp
    /\ is_word_opt (prev_after None pre) = false
    /\ is_word_opt (hd_error post) = false.

(** The text [pre ++ ds ++ sep :: d1 :: d2 :: post]: one to three digits, a
    dot or a comma, two digits; no word character before nor after. *)
Definition bare_decimal (text : jsstring) : Prop :=
  exists pre ds sep d1 d2 post,
    text = pre ++ ds ++ sep :: d1 :: d2 :: post
    /\ 1 <= List.length ds <= 3
    /\ is_digits ds
    /\ (sep = chr "." \/ sep = chr ",")
    /\ is_digits [d1; d2]
    /\ is_word_opt (prev_after None pre) = false
    /\ is_word_opt (hd_error post) = false.

(** The text [pre ++ ds ++ sp]: one to three digits, then white space only
    up to the end; no word character before the digits. *)
Definition number_at_end (text : jsstring) : Prop :=
  exists pre ds sp,
    text = pre ++ ds ++ sp
    /\ 1 <= List.length ds <= 3
    /\ is_digits ds
    /\ Forall (fun c => is_space c = true) sp
    /\ is_word_opt (prev_after None pre) = false.

Lemma found_at (re : regex) pre suf :
  (forall x, ms_prev x = prev_after None pre -> ms_rest x = suf ->
             rmatch false re x Some <> None) ->
  exec_from (mk_re re) (pre ++ suf) 0 <> None.
Proof.
  intros H. unfold exec_from. cbn [Nat.ltb Nat.leb skipn prev_at].
  apply scan_complete. unfold match_here, mk_re.
  cbn [re_src re_icase re_groups].
  match goal with
  | |- match ?r with _ => _ end <> None =>
    assert (Hr : r <> None); [apply H; reflexivity|destruct r; congruence]
  end.
Qed.

Lemma number_euro_found text :
  number_euro text ->
  exec_from (mk_re (Alt (symbol_then_number "€")
                        (Re.seq [Re.not_behind_w; Re.rep 1 3 Re.d; opt_cents;
                                 Re.opt Re.s; Re.ch "€"; Re.not_ahead_w])))
            text 0 <> None.
Proof.
  intros (pre & ds & sp & post & -> & Hlen & Hds & Hsl & Hsp & Hpre & Hpost).
  apply found_at. intros x Hp Hx. apply alt_second.
  unfold Re.seq. cbn [fold_right].
  rewrite rmatch_Seq, not_behind_ok by (now rewrite Hp).
  apply number_tail_found with (ds := ds) (post := sp ++ chr "€" :: post).
  - exact Hx.
  - exact Hds.
  - destruct ds; [cbn in Hlen; lia | discriminate].
  - exact Hlen.
  - intros y Hy. rewrite rmatch_Seq. apply opt_cents_skip.
    rewrite rmatch_Seq.
    apply opt_space_found with (sp := sp) (rest := chr "€" :: post);
      [exact Hy | exact Hsl | exact Hsp|].
    rewrite rmatch_Seq. unfold Re.ch.
    rewrite rmatch_Cls_hit with (ch := chr "€") (rest := post);
      [|reflexivity|now rewrite class_one, N.eqb_refl].
    rewrite rmatch_Seq, not_ahead_ok by exact Hpost.
    cbn [rmatch]. discriminate.
Qed.

Lemma bare_decimal_found text :
  bare_decimal text ->
  exec_from (mk_re (Re.seq [Re.not_behind_w; Re.rep 1 3 Re.d; Re.cents;
                            Re.not_ahead_w])) text 0 <> None.
Proof.
  intros (pre & ds & sep & d1 & d2 & post & -> & Hlen & Hds & Hsep & Hdd & Hpre & Hpost).
  apply found_at. intros x Hp Hx. unfold Re.seq. cbn [fold_right].
  rewrite rmatch_Seq, not_behind_ok by (now rewrite Hp).
  apply number_tail_found with (ds := ds) (post := sep :: d1 :: d2 :: post).
  - exact Hx.
  - exact Hds.
  - destruct ds; [cbn in Hlen; lia | discriminate].
  - exact Hlen.
  - intros y Hy. rewrite rmatch_Seq. unfold Re.cents, Re.dot_comma.
    rewrite rmatch_Seq.
    rewrite rmatch_Cls_hit with (ch := sep) (rest := d1 :: d2 :: post);
      [|exact Hy|destruct Hsep as [-> | ->]; reflexivity].
    unfold Re.rep, Re.d. rewrite rmatch_Rep.
    apply rep_cls_some with (run := [d1; d2]) (rest := post).
    + reflexivity.
    + now apply is_digits_in_class.
    + cbn. lia.
    + cbn. lia.
    + cbn. lia.
    + rewrite rmatch_Seq, not_ahead_ok by exact Hpost.
      cbn [rmatch]. discriminate.
Qed.

Lemma number_at_end_found text :
  number_at_end text ->
  exec_from (mk_re (Re.seq [Re.not_behind_w; Re.rep 1 3 Re.d; opt_cents;
                            Re.star Re.s; Eol])) text 0 <> None.
Proof.
  intros (pre & ds & sp & -> & Hlen & Hds & Hsp & Hpre).
  apply found_at. intros x Hp Hx. unfold Re.seq. cbn [fold_right].
  rewrite rmatch_Seq, not_behind_ok by (now rewrite Hp).
  apply number_tail_found with (ds := ds) (post := sp).
  - exact Hx.
  - exact Hds.
  - destruct ds; [cbn in Hlen; lia | discriminate].
  - exact Hlen.
  - intros y Hy. rewrite rmatch_Seq. apply opt_cents_skip.
    now apply (spaces_to_end y sp).
Qed.

(** From freshly loaded patterns [containsPrice] accepts every text with a
    number followed by the euro sign, a number with two decimals, or a
    number at the end of the line. *)
Lemma containsPrice_number_forms text :
  number_euro text \/ bare_decimal text \/ number_at_end text ->
  fst (containsPrice text init_state) = true.
Proof.
  intros H. unfold containsPrice.
  assert (E : fst (some_test PRICE_PATTERNS 0 text (st_price init_state)) = true).
  { destruct H as [H|[H|H]].
    - eapply some_test_found with (n := 1); [reflexivity | reflexivity |].
      now apply number_euro_found.
    - eapply some_test_found with (n := 4); [reflexivity | reflexivity |].
      now apply bare_decimal_found.
    - eapply some_test_found with (n := 5); [reflexivity | reflexivity |].
      now apply number_at_end_found. }
  destruct (some_test _ _ _ _). exact E.
Qed.
(* ---------------------------------------------------------------- *)
(** ** Recognised forms and repeated calls *)

(** C7 (as stated). [containsPrice] does not recognise the phrase
    [market price], nor a number followed by a dollar sign, nor a number at
    the start of the line. *)
Lemma containsPrice_misses_market_price :
  includes (js "market price") (js "market price") = true
  /\ fst (containsPrice (js "market price") init_state) = false
  /\ fst (containsPrice (js "12$") init_state) = false
  /\ fst (containsPrice (js "12 Salad") init_state) = false.
Proof. repeat apply conj; vm_compute; reflexivity. Qed.

(** C7 (amended). From freshly loaded patterns [containsPrice] accepts every
    text in which one of the four currency symbols is followed by a number
    (1 to 3 digits, 1 to 4 after the yen sign) with no word character
    around; every text in which a number of 1 to 3 digits, not preceded by
    a word character, is followed by the euro sign (after at most one white
    space, no word character behind the sign), or by a dot or a comma and
    two digits (no word character behind), or by white space only up to the
    end of the text. It accepts no text without a digit, whatever the state
    of its patterns, so not the phrase [market price]; that phrase, between
    word boundaries and in any letter case, is recognised by
    [containsAnyPrice] of the price normalizer from any state. *)
Theorem containsPrice_recognized_forms :
  (forall text,
     symbol_number (chr "$") 3 text \/ symbol_number (chr "€") 3 text
     \/ symbol_number (chr "£") 3 text \/ symbol_number (chr "¥") 4 text ->
     fst (containsPrice text init_state) = true)
  /\ (forall text,
        number_euro text \/ bare_decimal text \/ number_at_end text ->
        fst (containsPrice text init_state) = true)
  /\ forallb (fun t => fst (containsPrice (js t) init_state))
       ["Chicken Parmigiana $18.50"; "Pasta €12,50"; "Steak £25.00"; "Sushi ¥1500";
        "Pasta 12€"; "Salad 12.99 each"; "Salad 12"]%string = true
  /\ (forall text st, digit_free text -> fst (containsPrice text st) = false)
  /\ (forall text st,
        market_price_phrase text -> fst (containsAnyPrice text st) = true)
  /\ (includes (js "supermarket prices") (js "market price") = true
      /\ fst (containsAnyPrice (js "supermarket prices") init_state) = false).
Proof.
  split; [exact containsPrice_symbol_number|].
  split; [exact containsPrice_number_forms|].
  split; [vm_compute; reflexivity|].
  split; [intros text st; apply containsPrice_digit_free|].
  split.
  - intros text st H. apply containsAnyPrice_market. now apply market_price_found.
  - split; vm_compute; reflexivity.
Qed.

Lemma containsPrice_recognized_forms_witness :
  fst (containsPrice (js "Steak £25 net") init_state) = true
  /\ (fst (containsPrice (js "Pasta 12 € net") init_state) = true
      /\ fst (containsPrice (js "Salad 12,99 each") init_state) = true
      /\ fst (containsPrice (js "Salad 12  ") init_state) = true)
  /\ fst (containsPrice (js "market price") (snd (containsPrice (js "$12") init_state)))
     = false
  /\ fst (containsAnyPrice (js "Lobster  MARKET   Price")
            (snd (containsAnyPrice (js "Dish $12 x") init_state))) = true.
Proof.
  split; [|split; [split; [|split]|split]].
  - apply (proj1 containsPrice_recognized_forms).
    right. right. left.
    exists (js "Steak "), (js "25"), (js " net").
    split; [reflexivity|]. split; [cbn; lia|].
    split; [repeat constructor|]. split; reflexivity.
  - apply (proj1 (proj2 containsPrice_recognized_forms)). left.
    exists (js "Pasta "), (js "12"), (js " "), (js " net").
    split; [reflexivity|]. split; [cbn; lia|].
    split; [repeat constructor|]. split; [cbn; lia|].
    split; [repeat constructor|]. split; reflexivity.
  - apply (proj1 (proj2 containsPrice_recognized_forms)). right. left.
    exists (js "Salad "), (js "12"), (chr ","), (chr "9"), (chr "9"), (js " each").
    split; [reflexivity|]. split; [cbn; lia|].
    split; [repeat constructor|]. split; [now right|].
    split; [repeat constructor|]. split; reflexivity.
  - apply (proj1 (proj2 containsPrice_recognized_forms)). right. right.
    exists (js "Salad "), (js "12"), (js "  ").
    split; [reflexivity|]. split; [cbn; lia|].
    split; [repeat constructor|]. split; [repeat constructor | reflexivity].
  - apply (proj1 (proj2 (proj2 (proj2 containsPrice_recognized_forms)))).
    vm_compute. repeat constructor.
  - apply (proj1 (proj2 (proj2 (proj2 (proj2 containsPrice_recognized_forms))))).
    exists (js "Lobster  "), (js "MARKET"), (js "   "), (js "Price"), [].
    split; [reflexivity|].
    split; [spell|].
    split; [discriminate|].
    split; [repeat constructor|].
    split; [spell|split; reflexivity].
Defined.

(** The page on which two runs of the extraction differ. *)
Definition stale_page : list Extract.OcrLine :=
  Reference.page ["a b c d e with 5"; "Mixed Grill Platter 9  $"; "x"]%string.

(** C5. The price predicates test shared pattern objects that carry the
    global flag, so each call starts where the previous match ended: the
    same call repeated gives [true] then [false], and a second run of the
    extraction on the same page, in the state left by the first, returns a
    different list. *)
Theorem price_tests_depend_on_history :
  (fst (containsPrice (js "$12 x") init_state) = true
   /\ fst (containsPrice (js "$12 x") (snd (containsPrice (js "$12 x") init_state)))
      = false)
  /\ (fst (containsAnyPrice (js "Dish $12 x") init_state) = true
      /\ fst (containsAnyPrice (js "Dish $12 x")
                (snd (containsAnyPrice (js "Dish $12 x") init_state)))
         = false)
  /\ (map Extract.c_text
        (fst (Extract.extractCandidates (RT := Reference.runtime) Reference.world
                stale_page 1 100 init_state)) = []
      /\ map Extract.c_text
           (fst (Extract.extractCandidates (RT := Reference.runtime) Reference.world
                   stale_page 1 100
                   (snd (Extract.extractCandidates (RT := Reference.runtime)
                           Reference.world stale_page 1 100 init_state))))
         = [js "a b c d e with"]).
Proof. repeat apply conj; vm_compute; reflexivity. Qed.
End PriceFacts.

(* ================================================================== *)
(** * Properties of the emitted candidates *)
(* ================================================================== *)

Module CandidateFacts.
Import PriceRemoval Extract Monadic ExtractFacts RegexFacts PriceFacts.

Definition long_number_page : list OcrLine := Reference.page ["Foo 12345 Bar"]%string.

(** C1 (as stated). A candidate can carry a standalone number of more than
    four digits: the validator only looks for runs of 2 to 4 digits. *)
Lemma five_digit_number_survives :
  exists c,
    nth_error (fst (extractCandidates (RT := Reference.runtime) Reference.world
                      long_number_page 1 100 init_state)) 0 = Some c
    /\ c_text c = js "Foo 12345 Bar"
    /\ standalone 2 None (c_text c).
Proof.
  destruct (nth_error
              (fst (extractCandidates (RT := Reference.runtime) Reference.world
                      long_number_page 1 100 init_state)) 0)
    as [c|] eqn:E; [|vm_compute in E; discriminate].
  exists c. split; [reflexivity|].
  assert (Ht : c_text c = js "Foo 12345 Bar").
  { vm_compute in E. injection E as <-. reflexivity. }
  split; [exact Ht|]. rewrite Ht.
  exists (js "Foo "), (js "12345"), (js " Bar").
  split; [reflexivity|]. split; [vm_compute; lia|]. split; [exact I|].
  split; [vm_compute; repeat constructor|]. split; reflexivity.
Qed.

(** C1 (amended). Every candidate returned by [extractCandidates] has a text
    without currency symbol and without standalone number of 2 to 4 digits
    (a run of 2 to 4 digits between two word boundaries), whatever the
    lines, the page number, the count, the world and the state of the
    pattern objects. *)
Theorem candidate_text_has_no_price `{RT : Runtime} (W : World)
    (ocrLines : list OcrLine) (pageNumber : Q) (topN : Z) (st : State)
    (c : Candidate) :
  In c (fst (extractCandidates W ocrLines pageNumber topN st)) ->
  no_currency (c_text c) /\ ~ standalone 2 (Some 4) (c_text c).
Proof.
  intros Hin.
  pose proof (extractCandidates_ok W ocrLines pageNumber topN st) as Hok.
  rewrite Forall_forall in Hok. destruct (Hok c Hin) as [[Hs Hc] _].
  split; [now apply no_currency_test|].
  intros Hst. apply (@standalone_complete 2 4) in Hst; [|lia].
  change (standalone_re 2 4) with re_standalone_2_4 in Hst. congruence.
Qed.

Definition priced_page : list OcrLine :=
  Reference.page ["ENTREES"; "Grilled Salmon $24"]%string.

Lemma candidate_text_has_no_price_witness :
  exists c,
    nth_error (fst (extractCandidates (RT := Reference.runtime) Reference.world
                      priced_page 1 100 init_state)) 0 = Some c
    /\ c_text c = js "Grilled Salmon"
    /\ no_currency (c_text c) /\ ~ standalone 2 (Some 4) (c_text c).
Proof.
  destruct (nth_error
              (fst (extractCandidates (RT := Reference.runtime) Reference.world
                      priced_page 1 100 init_state)) 0)
    as [c|] eqn:E; [|vm_compute in E; discriminate].
  exists c. split; [reflexivity|].
  split; [vm_compute in E; injection E as <-; reflexivity|].
  exact (@candidate_text_has_no_price Reference.runtime Reference.world
           priced_page 1%Q 100%Z init_state c (nth_error_In _ _ E)).
Defined.
End CandidateFacts.

(* ================================================================== *)
(** * Properties of the header detector *)
(* ================================================================== *)

Module HeaderFacts.
Import TextUtils Headers RankingFacts.

(** ** Numbers *)






(** ** Word vectors *)


Lemma str_eqb_sym a b : str_eqb a b = str_eqb b a.
Proof.
  destruct (str_eqb a b) eqn:E.
  - apply str_eqb_eq in E. subst. now rewrite str_eqb_refl.
  - destruct (str_eqb b a) eqn:E'; [|reflexivity].
    apply str_eqb_eq in E'. subst. now rewrite str_eqb_refl in E.
Qed.








(** ** Term frequencies *)

Definition jsstring_eq_dec : forall a b : jsstring, {a = b} + {a <> b} :=
  list_eq_dec N.eq_dec.

(** The similarity in the words of the description: the term frequency of
    a word in a list of words is its number of occurrences; the cosine of
    two lists of words is the dot product of their term-frequency vectors
    over the norms of those vectors, and 0 when a list is empty or a norm
    is 0. *)
Module TermFrequency.
Definition tf (words : list jsstring) (w : jsstring) : nat :=
  count_occ jsstring_eq_dec words w.

Definition vocabulary (words : list jsstring) : list jsstring :=
  nodup jsstring_eq_dec words.

Definition dot (words1 words2 : list jsstring) : nat :=
  list_sum (map (fun w => tf words1 w * tf words2 w) (vocabulary (words1 ++ words2))).


End TermFrequency.
Import TermFrequency.









(** ** The sums *)










(** ** Words that are inherited names *)










(** ** The header score *)

Section WithRuntime.
Context {RT : Runtime}.

(** The penalties of [calculateHeaderConfidence], added up. *)
Definition penalty (line : jsstring) : Q :=
  ((if re_test re_hasPrice line then 5 # 10 else 0)
   + (if 4 <? List.length (words_of (normalizeText line)) then 3 # 10 else 0)
   + (if existsb (fun word => includes (normalizeText line) word) foodWords
      then 4 # 10 else 0))%Q.

(** The header score of a line before it is floored at 0. *)
Definition headerScore (line : jsstring) : jsnum :=
  jsub (maxSimilarityOf (normalizeText line)) (Fin (penalty line)).












End WithRuntime.

(** The result of a loop of [Math.max] over finite numbers: the largest of
    the initial value and the values of the list. *)
Lemma fold_max_spec (f : jsstring -> Q) (l : list jsstring) : forall a,
  ((a <= fold_left (fun m x => Math_max m (f x)) l a)%Q
   /\ forall x, In x l -> (f x <= fold_left (fun m x => Math_max m (f x)) l a)%Q)
  /\ (fold_left (fun m x => Math_max m (f x)) l a = a
      \/ exists x, In x l /\ fold_left (fun m x => Math_max m (f x)) l a = f x).
Proof.
  induction l as [|y l IH]; intros a; cbn [fold_left].
  - split; [split; [apply Qle_refl | contradiction] | now left].
  - destruct (IH (Math_max a (f y))) as [[Hge Hall] Hone].
    assert (Hy : (f y <= Math_max a (f y))%Q).
    { unfold Math_max. destruct (Qle_bool a (f y)) eqn:E; [apply Qle_refl|].
      apply Qlt_le_weak, Qnot_le_lt. intros H. apply Qle_bool_iff in H. congruence. }
    split; [split|].
    + eapply Qle_trans; [apply ScorerFacts.Math_max_ge_l | exact Hge].
    + intros x [<-|Hx]; [eapply Qle_trans; [exact Hy | exact Hge] | now apply Hall].
    + destruct Hone as [Hone|(x & Hx & Hone)].
      * rewrite Hone. unfold Math_max. destruct (Qle_bool a (f y)).
        -- right. exists y. split; [now left | reflexivity].
        -- now left.
      * right. exists x. split; [now right | exact Hone].
Qed.




(** The header score in the words of the description: the price penalty
    applies when the price detection of the text utilities ([containsPrice],
    on freshly loaded patterns) accepts the line, the length penalty when
    the line has more than 4 meaningful words, those that are not stop words
    ([countMeaningfulWords]). *)
Module SpecWords.
Section WithRuntime.
Context {RT : Runtime}.
Definition headerScore (line : jsstring) : jsnum :=
  jsub (maxSimilarityOf (normalizeText line))
       (Fin ((if fst (containsPrice line init_state) then 5 # 10 else 0)
             + (if 4 <? countMeaningfulWords line then 3 # 10 else 0)
             + (if existsb (fun word => includes (normalizeText line) word) foodWords
                then 4 # 10 else 0))%Q).
End WithRuntime.
End SpecWords.



End HeaderFacts.

(* ================================================================== *)
(** * Properties of the dictionary lookup *)
(* ================================================================== *)

Module LookupFacts.
Import TextUtils EntreeLookup.

(** The sum of the terms of a list, from the right. *)
Fixpoint total (l : list Q) : Q :=
  match l with
  | [] => 0
  | q :: l' => q + total l'
  end.

(** The combined score in the words of the description: 0.7 times the
    average over the tokens of the first text of their best similarity to a
    token of the second, plus 0.3 times the fraction of those tokens whose
    best similarity exceeds 0.7. *)
Definition combined (words1 words2 : list jsstring) : Q :=
  ((7 # 10) * (total (map (fun w => bestMatchOf w words2) words1)
               / Qnat (List.length words1))
   + (3 # 10) * (Qnat (List.length
                         (filter (fun w => Qgtb (bestMatchOf w words2) (7 # 10)) words1))
                 / Qnat (List.length words1)))%Q.

Lemma Qnat_S n : (Qnat (S n) == Qnat n + 1)%Q.
Proof.
  unfold Qnat. rewrite Nat2Z.inj_succ, <- Z.add_1_r, inject_Z_plus. reflexivity.
Qed.

Lemma fuzzy_fold words2 words1 : forall acc,
  let r := fold_left (fun acc word1 =>
                        let bestMatch := bestMatchOf word1 words2 in
                        ((fst acc + bestMatch)%Q,
                         if Qgtb bestMatch (7 # 10) then S (snd acc) else snd acc))
                     words1 acc in
  (fst r == fst acc + total (map (fun w => bestMatchOf w words2) words1))%Q
  /\ snd r = snd acc
             + List.length (filter (fun w => Qgtb (bestMatchOf w words2) (7 # 10)) words1).
Proof.
  induction words1 as [|w ws IH]; intros acc; cbn [fold_left map total filter].
  - cbv zeta. cbn [List.length]. split; [ring | lia].
  - cbv zeta in *.
    destruct (IH ((fst acc + bestMatchOf w words2)%Q,
                  if Qgtb (bestMatchOf w words2) (7 # 10)
                  then S (snd acc) else snd acc)) as [H1 H2].
    split.
    + rewrite H1. cbn [fst]. ring.
    + rewrite H2. cbn [snd].
      destruct (Qgtb (bestMatchOf w words2) (7 # 10)); cbn [List.length]; lia.
Qed.

(** [calculateFuzzyMatchScore] computes the combined score of the tokens of
    more than two characters. *)
Lemma calculateFuzzyMatchScore_combined text1 text2 :
  text1 <> [] -> text2 <> [] -> long_words text1 <> [] -> long_words text2 <> [] ->
  (calculateFuzzyMatchScore text1 text2
   == combined (long_words text1) (long_words text2))%Q.
Proof.
  intros H1 H2 H3 H4. unfold calculateFuzzyMatchScore, combined.
  destruct text1 as [|c1 t1]; [congruence|].
  destruct text2 as [|c2 t2]; [congruence|].
  cbn [List.length Nat.eqb orb].
  destruct (long_words (c1 :: t1)) as [|w1 ws1] eqn:E1; [congruence|].
  destruct (long_words (c2 :: t2)) as [|w2 ws2] eqn:E2; [congruence|].
  cbn [List.length Nat.eqb orb].
  pose proof (fuzzy_fold (w2 :: ws2) (w1 :: ws1) (0%Q, 0)) as HF.
  cbv zeta in HF.
  destruct (fold_left _ (w1 :: ws1) (0%Q, 0)) as [totalScore matchCount].
  cbn [fst snd] in HF. destruct HF as [HT HC].
  rewrite HT, HC. cbn [Nat.add List.length].
  assert (Hn : ~ (Qnat (S (List.length ws1)) == 0)%Q).
  { unfold Qnat, Qeq. simpl. lia. }
  field. exact Hn.
Qed.

Section WithRuntime.
Context {RT : Runtime}.













End WithRuntime.

End LookupFacts.

(* ================================================================== *)
(** * The edit distance of the dictionary lookup *)
(* ================================================================== *)

Module DistanceFacts.
Import EntreeLookup.

(** The edit distance by its recurrence, on the two texts read from their
    last character: equal last characters cost nothing, otherwise one more
    than the cheapest of a substitution, an insertion and a deletion. *)
Fixpoint edit (a : list N) : list N -> nat :=
  fix inner (b : list N) : nat :=
    match a, b with
    | [], _ => List.length b
    | _, [] => List.length a
    | x :: a', y :: b' =>
      if (x =? y)%N then edit a' b'
      else S (min3 (edit a' b') (inner b') (edit a' b))
    end.

Lemma edit_nil_l b : edit [] b = List.length b.
Proof. destruct b; reflexivity. Qed.

Lemma edit_nil_r a : edit a [] = List.length a.
Proof. destruct a; reflexivity. Qed.

Lemma edit_cons x a y b :
  edit (x :: a) (y :: b) =
  if (x =? y)%N then edit a b
  else S (min3 (edit a b) (edit (x :: a) b) (edit a (y :: b))).
Proof. reflexivity. Qed.

(** The row of the matrix for the text [a] of the rows read so far: one
    entry per prefix of [s], [acc] being the reversed prefix before [s]. *)
Fixpoint row_of (a acc s : list N) : list nat :=
  edit a acc ::
  match s with
  | [] => []
  | c :: s' => row_of a (c :: acc) s'
  end.

Lemma row_of_first s : forall acc, row_of [] acc s = seq (List.length acc) (S (List.length s)).
Proof.
  induction s as [|c s IH]; intros acc; cbn [row_of].
  - now rewrite edit_nil_l.
  - rewrite edit_nil_l, IH. reflexivity.
Qed.

Lemma row_of_head a acc s : exists t, row_of a acc s = edit a acc :: t.
Proof. destruct s; cbn [row_of]; eauto. Qed.

Lemma lev_row_cons c2 c1 s diag up p left :
  lev_row c2 (c1 :: s) (diag :: up :: p) left =
  (if (c2 =? c1)%N then diag else min3 (diag + 1) (left + 1) (up + 1))
  :: lev_row c2 s (up :: p)
       (if (c2 =? c1)%N then diag else min3 (diag + 1) (left + 1) (up + 1)).
Proof. reflexivity. Qed.

Lemma lev_row_step c2 a s : forall acc,
  row_of (c2 :: a) acc s
  = edit (c2 :: a) acc :: lev_row c2 s (row_of a acc s) (edit (c2 :: a) acc).
Proof.
  induction s as [|c1 s IH]; intros acc; [reflexivity|].
  cbn [row_of]. f_equal.
  destruct (row_of_head a (c1 :: acc) s) as [t Ht].
  rewrite (IH (c1 :: acc)), Ht, lev_row_cons.
  assert (E : edit (c2 :: a) (c1 :: acc)
              = if (c2 =? c1)%N then edit a acc
                else min3 (edit a acc + 1) (edit (c2 :: a) acc + 1)
                          (edit a (c1 :: acc) + 1)).
  { rewrite edit_cons. destruct (N.eqb c2 c1); [reflexivity|]. unfold min3. lia. }
  now rewrite <- E.
Qed.

Lemma lev_rows_rows str1 str2 : forall a,
  lev_rows str1 str2 (List.length a) (row_of a [] str1)
  = row_of (rev str2 ++ a) [] str1.
Proof.
  induction str2 as [|c2 str2 IH]; intros a; [reflexivity|].
  cbn [lev_rows rev].
  replace (S (List.length a)) with (edit (c2 :: a) []) at 2 3
    by (rewrite edit_nil_r; reflexivity).
  rewrite <- lev_row_step.
  replace (S (List.length a)) with (List.length (c2 :: a)) by reflexivity.
  rewrite IH, <- app_assoc. reflexivity.
Qed.

Lemma row_of_last a s : forall acc, last (row_of a acc s) 0 = edit a (rev s ++ acc).
Proof.
  induction s as [|c s IH]; intros acc; [reflexivity|].
  cbn [row_of rev]. rewrite <- app_assoc. cbn [app]. rewrite <- IH.
  destruct s; reflexivity.
Qed.

(** The matrix computes the recurrence. *)
Lemma levenshteinDistance_edit str1 str2 :
  levenshteinDistance str1 str2 = edit (rev str2) (rev str1).
Proof.
  unfold levenshteinDistance.
  change (seq 0 (S (List.length str1)))
    with (seq (List.length (@nil N)) (S (List.length str1))).
  rewrite <- (row_of_first str1 []).
  pose proof (lev_rows_rows str1 str2 []) as H. cbn [List.length] in H.
  rewrite H, row_of_last, !app_nil_r. reflexivity.
Qed.

(* ---------------------------------------------------------------- *)
(** ** The recurrence is a distance *)

Lemma edit_refl a : edit a a = 0.
Proof.
  induction a as [|x a IH]; [reflexivity|].
  rewrite edit_cons, N.eqb_refl. exact IH.
Qed.

Lemma edit_sym a : forall b, edit a b = edit b a.
Proof.
  induction a as [|x a IHa]; intros b.
  - now rewrite edit_nil_l, edit_nil_r.
  - induction b as [|y b IHb].
    + now rewrite edit_nil_l, edit_nil_r.
    + rewrite !edit_cons, (N.eqb_sym y x), (IHa b), (IHa (y :: b)), IHb.
      destruct (N.eqb x y); [reflexivity|]. unfold min3. f_equal. lia.
Qed.

Lemma edit_upper a : forall b, edit a b <= Nat.max (List.length a) (List.length b).
Proof.
  induction a as [|x a IHa]; intros b.
  - rewrite edit_nil_l. cbn [List.length]. lia.
  - destruct b as [|y b].
    + rewrite edit_nil_r. lia.
    + rewrite edit_cons. specialize (IHa b). cbn [List.length].
      destruct (N.eqb x y); unfold min3; lia.
Qed.

Lemma edit_lower a : forall b,
  List.length a <= List.length b + edit a b
  /\ List.length b <= List.length a + edit a b.
Proof.
  induction a as [|x a IHa]; intros b.
  - rewrite edit_nil_l. cbn [List.length]. lia.
  - induction b as [|y b IHb].
    + rewrite edit_nil_r. cbn [List.length]. lia.
    + rewrite edit_cons. pose proof (IHa b) as H1. pose proof (IHa (y :: b)) as H2.
      cbn [List.length] in *.
      destruct (N.eqb x y); unfold min3; lia.
Qed.

Lemma edit_zero a : forall b, edit a b = 0 -> a = b.
Proof.
  induction a as [|x a IHa]; intros b H.
  - rewrite edit_nil_l in H. symmetry. now apply length_zero_iff_nil.
  - destruct b as [|y b]; [rewrite edit_nil_r in H; discriminate|].
    rewrite edit_cons in H. destruct (N.eqb_spec x y) as [->|]; [|discriminate].
    f_equal. now apply IHa.
Qed.

(** Adding a character to one of the two strings moves the distance by at
    most one. *)
Lemma edit_step : forall n a b, List.length a + List.length b <= n ->
  forall x,
    edit (x :: a) b <= S (edit a b) /\ edit a b <= S (edit (x :: a) b).
Proof.
  induction n as [|n IH]; intros a b Hn x.
  - destruct a, b; cbn [List.length] in Hn; try lia.
    rewrite edit_nil_r, edit_nil_l. cbn [List.length]. lia.
  - destruct b as [|y b].
    + rewrite !edit_nil_r. cbn [List.length]. lia.
    + cbn [List.length] in Hn.
      assert (Hb : forall z, edit a (z :: b) <= S (edit a b)
                             /\ edit a b <= S (edit a (z :: b))).
      { intros z. rewrite (edit_sym a (z :: b)), (edit_sym a b).
        apply IH. lia. }
      destruct (IH a b ltac:(lia) x) as [I1 I2].
      destruct (Hb y) as [B1 B2].
      rewrite edit_cons. destruct (N.eqb x y); unfold min3; lia.
Qed.


Lemma edit_triangle : forall n a b c,
  List.length a + List.length b + List.length c <= n ->
  edit a c <= edit a b + edit b c.
Proof.
  induction n as [|n IH]; intros a b c Hn.
  - destruct a, b, c; cbn [List.length] in Hn; lia.
  - destruct a as [|x a].
    { rewrite !edit_nil_l. pose proof (edit_lower b c). lia. }
    destruct c as [|z c].
    { rewrite !edit_nil_r. pose proof (edit_lower (x :: a) b). lia. }
    destruct b as [|y b].
    { rewrite edit_nil_r, edit_nil_l. pose proof (edit_upper (x :: a) (z :: c)).
      cbn [List.length] in *. lia. }
    cbn [List.length] in Hn.
    pose proof (IH a (y :: b) (z :: c) ltac:(cbn [List.length]; lia)) as T1.
    pose proof (IH (x :: a) (y :: b) c ltac:(cbn [List.length]; lia)) as T2.
    pose proof (IH (x :: a) b (z :: c) ltac:(cbn [List.length]; lia)) as T3.
    pose proof (IH a b c ltac:(lia)) as T4.
    destruct (edit_step (List.length a + List.length (z :: c)) a (z :: c) (Nat.le_refl _) x)
      as [A1 _].
    destruct (edit_step (List.length c + List.length (x :: a)) c (x :: a) (Nat.le_refl _) z)
      as [C1 _].
    rewrite (edit_sym (z :: c) (x :: a)), (edit_sym c (x :: a)) in C1.
    destruct (edit_step (List.length b + List.length (z :: c)) b (z :: c) (Nat.le_refl _) y)
      as [_ B2].
    destruct (edit_step (List.length b + List.length (x :: a)) b (x :: a) (Nat.le_refl _) y)
      as [_ B3].
    rewrite (edit_sym (y :: b) (x :: a)), (edit_sym b (x :: a)) in B3.
    pose proof (edit_cons x a y b) as E1. pose proof (edit_cons y b z c) as E2.
    pose proof (edit_cons x a z c) as E3. revert E1 E2 E3.
    destruct (N.eqb_spec x y) as [Hxy|Hxy], (N.eqb_spec y z) as [Hyz|Hyz],
      (N.eqb_spec x z) as [Hxz|Hxz]; intros E1 E2 E3; unfold min3 in *;
      try lia; congruence.
Qed.

Lemma lev_zero str1 str2 : levenshteinDistance str1 str2 = 0 <-> str1 = str2.
Proof.
  rewrite levenshteinDistance_edit. split.
  - intros H. apply edit_zero in H. apply (f_equal (@rev N)) in H.
    now rewrite !rev_involutive in H.
  - intros ->. apply edit_refl.
Qed.

Lemma lev_sym str1 str2 : levenshteinDistance str1 str2 = levenshteinDistance str2 str1.
Proof. rewrite !levenshteinDistance_edit. apply edit_sym. Qed.

Lemma lev_upper str1 str2 :
  levenshteinDistance str1 str2 <= Nat.max (List.length str1) (List.length str2).
Proof.
  rewrite levenshteinDistance_edit.
  pose proof (edit_upper (rev str2) (rev str1)) as Hu.
  rewrite !length_rev in Hu. lia.
Qed.

Lemma lev_lower str1 str2 :
  List.length str1 - List.length str2 <= levenshteinDistance str1 str2
  /\ List.length str2 - List.length str1 <= levenshteinDistance str1 str2.
Proof.
  rewrite levenshteinDistance_edit.
  pose proof (edit_lower (rev str2) (rev str1)) as [Hl1 Hl2].
  rewrite !length_rev in *. lia.
Qed.

Lemma lev_triangle str1 str2 str3 :
  levenshteinDistance str1 str3
  <= levenshteinDistance str1 str2 + levenshteinDistance str2 str3.
Proof.
  rewrite !levenshteinDistance_edit.
  pose proof (edit_triangle _ (rev str3) (rev str2) (rev str1) (Nat.le_refl _)). lia.
Qed.
(** X1. [levenshteinDistance] is a metric on strings: it is 0 exactly on
    equal strings, it does not depend on the order of its arguments, and it
    satisfies the triangle inequality. It lies between the difference of
    the two lengths and the longer length. *)
Theorem levenshteinDistance_metric (str1 str2 : jsstring) :
  (levenshteinDistance str1 str2 = 0 <-> str1 = str2)
  /\ levenshteinDistance str1 str2 = levenshteinDistance str2 str1
  /\ (forall str3 : jsstring,
        levenshteinDistance str1 str3
        <= levenshteinDistance str1 str2 + levenshteinDistance str2 str3)
  /\ levenshteinDistance str1 str2 <= Nat.max (List.length str1) (List.length str2)
  /\ List.length str1 - List.length str2 <= levenshteinDistance str1 str2
  /\ List.length str2 - List.length str1 <= levenshteinDistance str1 str2.
Proof.
  split; [apply lev_zero|]. split; [apply lev_sym|].
  split; [intros str3; apply lev_triangle|]. split; [apply lev_upper|].
  apply lev_lower.
Qed.

(** X2. [levenshteinDistance] satisfies the recurrence of the edit distance
    on the last characters: against the empty string it is the length of the
    other string; on two non-empty strings it is the distance of the two
    strings without their last character when these are equal, and
    otherwise one more than the least of the distances obtained by dropping
    the last character of both, of the second or of the first. *)
Theorem levenshteinDistance_recurrence (str1 str2 : jsstring) (c1 c2 : N) :
  levenshteinDistance str1 [] = List.length str1
  /\ levenshteinDistance [] str2 = List.length str2
  /\ levenshteinDistance (str1 ++ [c1]) (str2 ++ [c2])
     = if (c1 =? c2)%N then levenshteinDistance str1 str2
       else S (min3 (levenshteinDistance str1 str2)
                    (levenshteinDistance (str1 ++ [c1]) str2)
                    (levenshteinDistance str1 (str2 ++ [c2]))).
Proof.
  rewrite !levenshteinDistance_edit, !rev_app_distr.
  cbn [rev app]. rewrite edit_nil_l, edit_nil_r, !length_rev, edit_cons.
  split; [reflexivity|]. split; [reflexivity|].
  rewrite (N.eqb_sym c2 c1). destruct (N.eqb c1 c2); [reflexivity|].
  unfold min3. f_equal. lia.
Qed.
End DistanceFacts.

(* ================================================================== *)
(** * The edit distance as the least number of edits *)
(* ================================================================== *)

Module EditScripts.
Import EntreeLookup DistanceFacts.

(** ** The least number of edits *)


















End EditScripts.

(* ================================================================== *)
(** * The policy of the dictionary lookup *)
(* ================================================================== *)

Module PolicyFacts.
Import TextUtils EntreeLookup LookupFacts DistanceFacts EditScripts.



End PolicyFacts.

(* ================================================================== *)
(** * The similarity scores of the dictionary lookup *)
(* ================================================================== *)

Module SimilarityFacts.
Import EntreeLookup DistanceFacts.

Lemma Qnat_le a b : a <= b -> (Qnat a <= Qnat b)%Q.
Proof. intros H. unfold Qnat, Qle. simpl. lia. Qed.

Lemma Qnat_pos a : 0 < a -> (0 < Qnat a)%Q.
Proof. intros H. unfold Qnat, Qlt. simpl. lia. Qed.

(** The ratio [(n - d) / n] of a distance [d <= n] to a positive length. *)
Lemma ratio_bounds n d :
  0 < n -> d <= n ->
  (0 <= (Qnat n - Qnat d) / Qnat n)%Q /\ ((Qnat n - Qnat d) / Qnat n <= 1)%Q.
Proof.
  intros Hn Hd. pose proof (Qnat_pos n Hn) as Hp. pose proof (Qnat_le d n Hd) as Hle.
  assert (H0 : (0 <= Qnat d)%Q) by (unfold Qnat, Qle; simpl; lia).
  split.
  - apply Qle_shift_div_l; [exact Hp|]. rewrite Qmult_0_l.
    unfold Qminus. rewrite <- (Qplus_opp_r (Qnat d)).
    apply Qplus_le_compat; [exact Hle | apply Qle_refl].
  - apply Qle_shift_div_r; [exact Hp|]. rewrite Qmult_1_l.
    unfold Qminus. rewrite <- (Qplus_0_r (Qnat n)) at 2.
    apply Qplus_le_compat; [apply Qle_refl|].
    apply Qopp_le_compat in H0. exact H0.
Qed.

Lemma ratio_one n d :
  0 < n -> ((Qnat n - Qnat d) / Qnat n == 1)%Q <-> d = 0.
Proof.
  intros Hn. pose proof (Qnat_pos n Hn) as Hp.
  assert (Hnz : ~ (Qnat n == 0)%Q) by (intros E; rewrite E in Hp; now apply Qlt_irrefl in Hp).
  split.
  - intros H.
    assert (E : (Qnat n - Qnat d == Qnat n)%Q).
    { rewrite <- (Qmult_div_r (Qnat n - Qnat d) (Qnat n)) by exact Hnz.
      rewrite H. apply Qmult_1_r. }
    assert (Ed : (Qnat d == 0)%Q).
    { setoid_replace (Qnat d) with (Qnat n - (Qnat n - Qnat d))%Q by ring.
      rewrite E. ring. }
    unfold Qnat, Qeq in Ed. simpl in Ed. lia.
  - intros ->. change (Qnat 0) with 0%Q. field. exact Hnz.
Qed.

Lemma calculateWordSimilarity_bounds word1 word2 :
  (0 <= calculateWordSimilarity word1 word2)%Q
  /\ (calculateWordSimilarity word1 word2 <= 1)%Q.
Proof.
  unfold calculateWordSimilarity.
  destruct (Nat.eqb_spec (Nat.max (List.length word1) (List.length word2)) 0) as [E|E];
    [split; discriminate|].
  apply ratio_bounds; [lia|].
  apply lev_upper.
Qed.

(** X3. The two similarity ratios built on the Levenshtein distance,
    [calculatePartialMatchScore] and [calculateWordSimilarity], lie between
    0 and 1, do not depend on the order of their arguments, and are 1
    exactly when the two strings are equal. *)
Theorem similarity_ratios (text1 text2 : jsstring) :
  ((0 <= calculatePartialMatchScore text1 text2)%Q
   /\ (calculatePartialMatchScore text1 text2 <= 1)%Q
   /\ calculatePartialMatchScore text1 text2 = calculatePartialMatchScore text2 text1
   /\ ((calculatePartialMatchScore text1 text2 == 1)%Q <-> text1 = text2))
  /\ ((0 <= calculateWordSimilarity text1 text2)%Q
      /\ (calculateWordSimilarity text1 text2 <= 1)%Q
      /\ calculateWordSimilarity text1 text2 = calculateWordSimilarity text2 text1
      /\ ((calculateWordSimilarity text1 text2 == 1)%Q <-> text1 = text2)).
Proof.
  pose proof (lev_zero text1 text2) as Hz. pose proof (lev_sym text1 text2) as Hs.
  pose proof (lev_upper text1 text2) as Hu.
  pose proof (lev_lower text1 text2) as [Hl1 Hl2].
  pose proof (lev_zero text2 text1) as Hz'. pose proof (lev_upper text2 text1) as Hu'.
  split.
  - unfold calculatePartialMatchScore.
    destruct (Nat.ltb_spec (List.length text2) (List.length text1)) as [L|L];
      destruct (Nat.ltb_spec (List.length text1) (List.length text2)) as [L'|L'];
      try lia.
    + (* text1 is the longer *)
      destruct (Nat.eqb_spec (List.length text1) 0) as [E|E]; [lia|].
      destruct (ratio_bounds (List.length text1) (levenshteinDistance text1 text2))
        as [H0 H1]; [lia|lia|].
      split; [exact H0|]. split; [exact H1|]. split; [reflexivity|].
      rewrite ratio_one by lia. exact Hz.
    + (* text2 is the longer *)
      destruct (Nat.eqb_spec (List.length text2) 0) as [E|E]; [lia|].
      destruct (ratio_bounds (List.length text2) (levenshteinDistance text2 text1))
        as [H0 H1]; [lia|lia|].
      split; [exact H0|]. split; [exact H1|]. split; [reflexivity|].
      rewrite ratio_one by lia. rewrite Hz'. split; congruence.
    + (* equal lengths *)
      assert (El : List.length text1 = List.length text2) by lia.
      rewrite El, Hs.
      destruct (Nat.eqb_spec (List.length text2) 0) as [E|E].
      * split; [discriminate|]. split; [discriminate|]. split; [reflexivity|].
        split; [intros _|reflexivity].
        apply length_zero_iff_nil in E. rewrite E in El.
        apply length_zero_iff_nil in El. congruence.
      * destruct (ratio_bounds (List.length text2) (levenshteinDistance text2 text1))
          as [H0 H1]; [lia|lia|].
        split; [exact H0|]. split; [exact H1|]. split; [now rewrite <- Hs|].
        rewrite ratio_one by lia. rewrite Hz'. split; congruence.
  - destruct (calculateWordSimilarity_bounds text1 text2) as [H0 H1].
    split; [exact H0|]. split; [exact H1|].
    unfold calculateWordSimilarity.
    rewrite (Nat.max_comm (List.length text2)), <- Hs. split; [reflexivity|].
    destruct (Nat.eqb_spec (Nat.max (List.length text1) (List.length text2)) 0) as [E|E].
    + split; [intros _|reflexivity].
      assert (E1 : List.length text1 = 0) by lia.
      assert (E2 : List.length text2 = 0) by lia.
      apply length_zero_iff_nil in E1, E2. congruence.
    + rewrite ratio_one by lia. exact Hz.
Qed.

(* ---------------------------------------------------------------- *)
(** ** The combined score *)

Lemma bestMatchOf_bounds word1 words2 :
  (0 <= bestMatchOf word1 words2)%Q /\ (bestMatchOf word1 words2 <= 1)%Q.
Proof.
  unfold bestMatchOf.
  destruct (HeaderFacts.fold_max_spec (calculateWordSimilarity word1) words2 0%Q)
    as [[H0 _] [E|(w & _ & E)]].
  - split; [exact H0|]. rewrite E. discriminate.
  - rewrite E. apply calculateWordSimilarity_bounds.
Qed.

Lemma total_bounds (l : list Q) :
  Forall (fun q => (0 <= q)%Q /\ (q <= 1)%Q) l ->
  (0 <= LookupFacts.total l)%Q /\ (LookupFacts.total l <= Qnat (List.length l))%Q.
Proof.
  induction 1 as [|q l [H0 H1] _ [IH0 IH1]]; cbn [LookupFacts.total List.length].
  - split; discriminate.
  - split.
    + change 0%Q with (0 + 0)%Q. now apply Qplus_le_compat.
    + rewrite LookupFacts.Qnat_S, (Qplus_comm (Qnat _)). now apply Qplus_le_compat.
Qed.

Lemma calculateWordSimilarity_self word : (calculateWordSimilarity word word == 1)%Q.
Proof.
  unfold calculateWordSimilarity.
  destruct (Nat.eqb_spec (Nat.max (List.length word) (List.length word)) 0) as [E|E];
    [reflexivity|].
  rewrite (proj2 (lev_zero word word) eq_refl).
  change (Qnat 0) with 0%Q. field.
  unfold Qnat, Qeq. simpl. lia.
Qed.

Lemma bestMatchOf_self word words : In word words -> (bestMatchOf word words == 1)%Q.
Proof.
  intros Hin. apply Qle_antisym; [apply bestMatchOf_bounds|].
  unfold bestMatchOf.
  destruct (HeaderFacts.fold_max_spec (calculateWordSimilarity word) words 0%Q)
    as [[_ Hall] _].
  rewrite <- (calculateWordSimilarity_self word). now apply Hall.
Qed.

Lemma total_ones (f : jsstring -> Q) (l : list jsstring) :
  (forall w, In w l -> (f w == 1)%Q) ->
  (LookupFacts.total (map f l) == Qnat (List.length l))%Q.
Proof.
  induction l as [|w l IH]; intros H; cbn [map LookupFacts.total List.length].
  - reflexivity.
  - rewrite (H w (or_introl eq_refl)), IH by (intros v Hv; apply H; now right).
    rewrite LookupFacts.Qnat_S. ring.
Qed.

Lemma filter_all {A} (f : A -> bool) (l : list A) :
  (forall a, In a l -> f a = true) -> filter f l = l.
Proof.
  induction l as [|a l IH]; intros H; cbn [filter]; [reflexivity|].
  rewrite (H a (or_introl eq_refl)), IH by (intros b Hb; apply H; now right).
  reflexivity.
Qed.

(** A text with a word of more than two characters matches itself fully. *)
Lemma calculateFuzzyMatchScore_self text :
  long_words text <> [] -> (calculateFuzzyMatchScore text text == 1)%Q.
Proof.
  intros Hw.
  assert (Ht : text <> []).
  { intros ->. apply Hw. reflexivity. }
  rewrite LookupFacts.calculateFuzzyMatchScore_combined by assumption.
  unfold LookupFacts.combined.
  set (ws := long_words text) in *.
  rewrite total_ones by (intros w Hin; now apply bestMatchOf_self).
  rewrite filter_all.
  - assert (Hn : ~ (Qnat (List.length ws) == 0)%Q).
    { destruct ws; [congruence|]. unfold Qnat, Qeq. simpl. lia. }
    field. exact Hn.
  - intros w Hin. pose proof (bestMatchOf_self w ws Hin) as E.
    unfold Qgtb, Qltb. apply negb_true_iff.
    destruct (Qle_bool (bestMatchOf w ws) (7 # 10)) eqn:L; [|reflexivity].
    apply Qle_bool_iff in L. rewrite E in L. unfold Qle in L. simpl in L. lia.
Qed.
Lemma fuzzy_range text1 text2 :
  (0 <= calculateFuzzyMatchScore text1 text2)%Q
  /\ (calculateFuzzyMatchScore text1 text2 <= 1)%Q
  /\ (long_words text1 = [] \/ long_words text2 = [] ->
      calculateFuzzyMatchScore text1 text2 = 0%Q).
Proof.
  assert (Hzero : long_words text1 = [] \/ long_words text2 = [] ->
                  calculateFuzzyMatchScore text1 text2 = 0%Q).
  { intros H. unfold calculateFuzzyMatchScore.
    destruct (_ || _); [reflexivity|].
    destruct H as [-> | ->]; cbn [List.length Nat.eqb orb]; [reflexivity|].
    now rewrite orb_true_r. }
  destruct text1 as [|c1 t1];
    [split; [discriminate | split; [discriminate | exact Hzero]]|].
  destruct text2 as [|c2 t2];
    [split; [discriminate | split; [discriminate | exact Hzero]]|].
  destruct (long_words (c1 :: t1)) as [|w1 ws1] eqn:E1.
  { rewrite Hzero by (now left).
    split; [discriminate | split; [discriminate | reflexivity]]. }
  destruct (long_words (c2 :: t2)) as [|w2 ws2] eqn:E2.
  { rewrite Hzero by (now right).
    split; [discriminate | split; [discriminate | reflexivity]]. }
  split; [|split; [|exact Hzero]].
  - rewrite LookupFacts.calculateFuzzyMatchScore_combined
      by (try discriminate; congruence).
    rewrite E1, E2. unfold LookupFacts.combined.
    set (ws := w1 :: ws1). set (vs := w2 :: ws2).
    destruct (total_bounds (map (fun w => bestMatchOf w vs) ws)) as [T0 _].
    { apply Forall_forall. intros q Hq. apply in_map_iff in Hq as (w & <- & _).
      apply bestMatchOf_bounds. }
    assert (Hn : (0 < Qnat (List.length ws))%Q) by (apply Qnat_pos; cbn; lia).
    assert (C0 : (0 <= Qnat (List.length
                     (filter (fun w => Qgtb (bestMatchOf w vs) (7 # 10)) ws)))%Q)
      by (unfold Qnat, Qle; simpl; lia).
    change 0%Q with (0 + 0)%Q. apply Qplus_le_compat.
    + apply Qmult_le_0_compat; [discriminate|].
      apply Qle_shift_div_l; [exact Hn|]. now rewrite Qmult_0_l.
    + apply Qmult_le_0_compat; [discriminate|].
      apply Qle_shift_div_l; [exact Hn|]. now rewrite Qmult_0_l.
  - rewrite LookupFacts.calculateFuzzyMatchScore_combined
      by (try discriminate; congruence).
    rewrite E1, E2. unfold LookupFacts.combined.
    set (ws := w1 :: ws1). set (vs := w2 :: ws2).
    destruct (total_bounds (map (fun w => bestMatchOf w vs) ws)) as [_ T1].
    { apply Forall_forall. intros q Hq. apply in_map_iff in Hq as (w & <- & _).
      apply bestMatchOf_bounds. }
    rewrite length_map in T1.
    assert (Hn : (0 < Qnat (List.length ws))%Q) by (apply Qnat_pos; cbn; lia).
    assert (C1 : (Qnat (List.length
                     (filter (fun w => Qgtb (bestMatchOf w vs) (7 # 10)) ws))
                  <= Qnat (List.length ws))%Q)
      by (apply Qnat_le, filter_length_le).
    setoid_replace 1%Q with ((7 # 10) * 1 + (3 # 10) * 1)%Q by reflexivity.
    apply Qplus_le_compat.
    + apply Qmult_le_l; [reflexivity|].
      apply Qle_shift_div_r; [exact Hn | now rewrite Qmult_1_l].
    + apply Qmult_le_l; [reflexivity|].
      apply Qle_shift_div_r; [exact Hn | now rewrite Qmult_1_l].
Qed.

(** X4. [calculateFuzzyMatchScore] lies between 0 and 1; it is 0 as soon
    as one of the two texts has no word of more than two characters, and it
    is 1 for a text that has one, compared with itself. *)
Theorem calculateFuzzyMatchScore_bounds (text1 text2 : jsstring) :
  (0 <= calculateFuzzyMatchScore text1 text2)%Q
  /\ (calculateFuzzyMatchScore text1 text2 <= 1)%Q
  /\ (long_words text1 = [] \/ long_words text2 = [] ->
      calculateFuzzyMatchScore text1 text2 = 0%Q)
  /\ (long_words text1 <> [] -> (calculateFuzzyMatchScore text1 text1 == 1)%Q).
Proof.
  destruct (fuzzy_range text1 text2) as (H0 & H1 & Hz).
  split; [exact H0|]. split; [exact H1|]. split; [exact Hz|].
  apply calculateFuzzyMatchScore_self.
Qed.
End SimilarityFacts.

(* ================================================================== *)
(** * The nearest section header above a line *)
(* ================================================================== *)

Module NearestHeaderFacts.
Import Headers.

(** A header above the line, at most [maxDistance] lines away. *)
Definition above_within (lineIndex maxDistance : nat) (header : SectionHeader) : Prop :=
  h_lineIndex header < lineIndex /\ lineIndex - h_lineIndex header <= maxDistance.

(** The state of the loop after the headers [seen]. *)
Definition nearest_so_far (lineIndex maxDistance : nat) (seen : list SectionHeader)
    (nearestHeader : option SectionHeader) (minDistance : option nat) : Prop :=
  match nearestHeader, minDistance with
  | None, None => forall h, In h seen -> ~ above_within lineIndex maxDistance h
  | Some n, Some d =>
    In n seen /\ above_within lineIndex maxDistance n
    /\ d = lineIndex - h_lineIndex n
    /\ forall h, In h seen -> above_within lineIndex maxDistance h ->
                 h_lineIndex h <= h_lineIndex n
  | _, _ => False
  end.

Lemma nearest_loop_spec lineIndex maxDistance headers : forall seen nearestHeader minDistance,
  nearest_so_far lineIndex maxDistance seen nearestHeader minDistance ->
  nearest_so_far lineIndex maxDistance (seen ++ headers)
    (nearest_loop lineIndex maxDistance headers nearestHeader minDistance)
    (match nearest_loop lineIndex maxDistance headers nearestHeader minDistance with
     | Some n => Some (lineIndex - h_lineIndex n)
     | None => None
     end).
Proof.
  induction headers as [|header rest IH]; intros seen nearestHeader minDistance Inv.
  - cbn [nearest_loop]. rewrite app_nil_r.
    destruct nearestHeader as [n|], minDistance as [d|]; cbn in Inv |- *;
      try contradiction; [|exact Inv].
    destruct Inv as (H1 & H2 & H3 & H4). auto.
  - cbn [nearest_loop].
    replace (seen ++ header :: rest) with ((seen ++ [header]) ++ rest)
      by now rewrite <- app_assoc.
    assert (Hskip : ~ above_within lineIndex maxDistance header
                    \/ (exists n d, nearestHeader = Some n /\ minDistance = Some d
                                    /\ d <= lineIndex - h_lineIndex header) ->
              nearest_so_far lineIndex maxDistance (seen ++ [header])
                nearestHeader minDistance).
    { intros Hno.
      destruct nearestHeader as [n|], minDistance as [d|]; cbn in Inv |- *;
        try contradiction.
      - destruct Inv as (H1 & H2 & H3 & H4).
        split; [apply in_or_app; now left|]. split; [exact H2|]. split; [exact H3|].
        intros h Hin Hq. apply in_app_or in Hin as [Hin|[<-|[]]]; [now apply H4|].
        destruct Hno as [Hno|(n' & d' & [= <-] & [= <-] & Hle)]; [contradiction|].
        destruct H2, Hq. lia.
      - intros h Hin. apply in_app_or in Hin as [Hin|[<-|[]]]; [now apply Inv|].
        destruct Hno as [Hno|(n' & d' & [=] & _)]. exact Hno. }
    destruct (Nat.ltb_spec (h_lineIndex header) lineIndex) as [Hlt|Hge].
    + destruct (Nat.leb_spec (lineIndex - h_lineIndex header) maxDistance) as [Hle|Hgt].
      * destruct minDistance as [d|].
        -- destruct (Nat.ltb_spec (lineIndex - h_lineIndex header) d) as [Hd|Hd];
             cbn [andb].
           ++ apply IH. destruct nearestHeader as [n|]; cbn in Inv; [|contradiction].
              destruct Inv as (H1 & H2 & H3 & H4). cbn.
              split; [apply in_or_app; right; now left|].
              split; [split; assumption|]. split; [reflexivity|].
              intros h Hin Hq. apply in_app_or in Hin as [Hin|[<-|[]]]; [|lia].
              specialize (H4 h Hin Hq). destruct H2. lia.
           ++ apply IH, Hskip. right.
              destruct nearestHeader as [n|]; cbn in Inv; [|contradiction].
              exists n, d. auto.
        -- cbn [andb]. apply IH.
           destruct nearestHeader as [n|]; cbn in Inv; [contradiction|]. cbn.
           split; [apply in_or_app; right; now left|].
           split; [split; assumption|]. split; [reflexivity|].
           intros h Hin Hq. apply in_app_or in Hin as [Hin|[<-|[]]]; [|lia].
           now apply Inv in Hin.
      * cbn [andb]. apply IH, Hskip. left. intros [_ H]. lia.
    + apply IH, Hskip. left. intros [H _]. lia.
Qed.

(** X5. [findNearestHeaderAbove] returns a header of the list that lies
    strictly above the line, at most [maxDistance] lines away, and no header
    of the list that does so is closer to the line; it returns null exactly
    when no header of the list lies in that window. In that case
    [isUnderEntreeHeader] is false. *)
Theorem findNearestHeaderAbove_nearest `{RT : Runtime} (lineIndex : nat)
    (headers : list SectionHeader) (maxDistance : nat) :
  match findNearestHeaderAbove lineIndex headers maxDistance with
  | Some nearest =>
    In nearest headers
    /\ above_within lineIndex maxDistance nearest
    /\ forall header, In header headers ->
         above_within lineIndex maxDistance header ->
         lineIndex - h_lineIndex nearest <= lineIndex - h_lineIndex header
  | None =>
    forall header, In header headers -> ~ above_within lineIndex maxDistance header
  end
  /\ ((forall header, In header headers -> ~ above_within lineIndex 10 header) ->
      isUnderEntreeHeader lineIndex headers = false).
Proof.
  assert (H : forall maxDistance,
    match findNearestHeaderAbove lineIndex headers maxDistance with
    | Some nearest =>
      In nearest headers
      /\ above_within lineIndex maxDistance nearest
      /\ forall header, In header headers ->
           above_within lineIndex maxDistance header ->
           lineIndex - h_lineIndex nearest <= lineIndex - h_lineIndex header
    | None =>
      forall header, In header headers -> ~ above_within lineIndex maxDistance header
    end).
  { intros m. unfold findNearestHeaderAbove.
    pose proof (nearest_loop_spec lineIndex m headers [] None None) as S.
    cbn [app] in S.
    destruct (nearest_loop lineIndex m headers None None) as [n|]; cbn in S.
    - destruct S as (H1 & H2 & _ & H4); [intros h []|].
      split; [exact H1|]. split; [exact H2|].
      intros h Hin Hq. specialize (H4 h Hin Hq). lia.
    - apply S. intros h []. }
  split; [apply H|].
  intros Hno. unfold isUnderEntreeHeader. specialize (H 10).
  destruct (findNearestHeaderAbove lineIndex headers 10) as [n|]; [|reflexivity].
  destruct H as (Hin & Hq & _). exfalso. exact (Hno n Hin Hq).
Qed.
End NearestHeaderFacts.

(* ================================================================== *)
(** * The state of the shared patterns *)
(* ================================================================== *)

Module PatternStateFacts.
Import RegexFacts TextUtils PriceRemoval PriceFacts.

(* ---------------------------------------------------------------- *)
(** ** What a stale [lastIndex] can and cannot do *)

Lemma exec_from_some re s i m :
  exec_from re s i = Some m -> re_test re s = true.
Proof.
  intros H. unfold re_test.
  destruct (exec_from re s 0) eqn:E; [reflexivity|].
  rewrite (@exec_from_none re s E i) in H. discriminate.
Qed.

Lemma some_test_sound ps : forall i text li,
  fst (some_test ps i text li) = true ->
  existsb (fun p => re_test p text) ps = true.
Proof.
  induction ps as [|p ps IH]; intros i text li H; cbn [some_test] in H;
    [discriminate|].
  cbn [existsb]. unfold test_global in H.
  destruct (exec_from p text (li i)) as [m|] eqn:E.
  - now rewrite (exec_from_some _ _ _ _ E).
  - apply IH in H. rewrite H. apply orb_true_r.
Qed.

Lemma some_test_exact ps : forall i text li,
  (forall n, n < List.length ps -> li (i + n) = 0) ->
  fst (some_test ps i text li) = existsb (fun p => re_test p text) ps.
Proof.
  induction ps as [|p ps IH]; intros i text li Hz; [reflexivity|].
  cbn [some_test existsb]. unfold test_global, re_test.
  pose proof (Hz 0 ltac:(cbn; lia)) as H0. rewrite Nat.add_0_r in H0. rewrite H0.
  destruct (exec_from p text 0) as [m|]; [reflexivity|].
  cbn [orb]. apply IH. intros n Hn. unfold upd.
  replace (S i + n =? i) with false by (symmetry; apply Nat.eqb_neq; lia).
  replace (S i + n) with (i + S n) by lia. apply Hz. cbn [List.length]. lia.
Qed.

(** The nine shared patterns are reset. *)
Definition patterns_reset (st : State) : Prop :=
  forall n, n < 9 -> st_comprehensive st n = 0.

(** State-free matching: some pattern of the list matches the text. *)
Definition some_pattern_matches (text : jsstring) : bool :=
  existsb (fun p => re_test p text) COMPREHENSIVE_PRICE_PATTERNS.

Lemma market_listed text :
  re_test re_market_price text = true -> some_pattern_matches text = true.
Proof.
  intros H. apply existsb_exists. exists re_market_price. split; [|exact H].
  unfold COMPREHENSIVE_PRICE_PATTERNS. cbn [In]. do 8 right. left. reflexivity.
Qed.

Lemma containsAnyPrice_exact text st :
  patterns_reset st -> fst (containsAnyPrice text st) = some_pattern_matches text.
Proof.
  intros Hr. unfold containsAnyPrice.
  pose proof (some_test_exact COMPREHENSIVE_PRICE_PATTERNS 0 text
                (st_comprehensive st) (fun n Hn => Hr n Hn)) as He.
  destruct (some_test _ _ _ _) as [b li]. cbn [fst] in *. rewrite He.
  fold (some_pattern_matches text).
  pose proof (market_listed text) as Hm.
  destruct (some_pattern_matches text); [reflexivity|]. cbn [orb].
  destruct (re_test re_market_price text); [|reflexivity].
  discriminate (Hm eq_refl).
Qed.

Lemma some_test_false_state ps : forall i text li,
  fst (some_test ps i text li) = false ->
  forall j, snd (some_test ps i text li) j
            = if (i <=? j) && (j <? i + List.length ps) then 0 else li j.
Proof.
  induction ps as [|p ps IH]; intros i text li H j; cbn [some_test List.length] in *.
  - destruct (Nat.leb_spec i j), (Nat.ltb_spec j (i + 0)); simpl; try reflexivity; lia.
  - unfold test_global in *.
    destruct (exec_from p text (li i)) as [m|]; [discriminate|].
    rewrite (IH _ _ _ H j). unfold upd.
    destruct (Nat.leb_spec (S i) j), (Nat.ltb_spec j (S i + List.length ps)),
      (Nat.leb_spec i j), (Nat.ltb_spec j (i + S (List.length ps))),
      (Nat.eqb_spec j i); simpl; try reflexivity; lia.
Qed.

(** A negative answer leaves the patterns reset. *)
Lemma containsAnyPrice_false_reset text st :
  fst (containsAnyPrice text st) = false ->
  patterns_reset (snd (containsAnyPrice text st)).
Proof.
  unfold containsAnyPrice.
  pose proof (some_test_false_state COMPREHENSIVE_PRICE_PATTERNS 0 text
                (st_comprehensive st)) as S.
  destruct (some_test _ _ _ _) as [b li]. cbn [fst snd] in *.
  intros H. apply orb_false_iff in H as [-> _]. intros n Hn.
  cbn [set_comprehensive st_comprehensive]. rewrite (S eq_refl n).
  change (List.length COMPREHENSIVE_PRICE_PATTERNS) with 9.
  replace (n <? 0 + 9) with true by (symmetry; apply Nat.ltb_lt; lia).
  reflexivity.
Qed.

Lemma containsAnyPrice_sound text st :
  fst (containsAnyPrice text st) = true -> some_pattern_matches text = true.
Proof.
  unfold containsAnyPrice.
  pose proof (some_test_sound COMPREHENSIVE_PRICE_PATTERNS 0 text (st_comprehensive st))
    as Hs.
  destruct (some_test _ _ _ _) as [b li]. cbn [fst] in *.
  intros H. apply orb_true_iff in H as [H|H]; [now apply Hs | now apply market_listed].
Qed.

(** The six shared patterns of the text utilities are reset. *)
Definition price_patterns_reset (st : State) : Prop :=
  forall n, n < 6 -> st_price st n = 0.

(** X6. Whatever the state of the shared patterns, [containsAnyPrice] and
    [containsPrice] report a price only on a text that one of their
    patterns matches from its start: a stale [lastIndex] can hide a price,
    never invent one. A negative answer of [containsAnyPrice] leaves the
    patterns reset, as does [removeAllPrices]; and when the patterns are
    reset ([lastIndex] 0) the answer is exactly whether some pattern
    matches. *)
Theorem price_predicates_no_false_positive (text : jsstring) (st : State) :
  (fst (containsAnyPrice text st) = true -> some_pattern_matches text = true)
  /\ (fst (containsAnyPrice text st) = false ->
      patterns_reset (snd (containsAnyPrice text st)))
  /\ (patterns_reset st -> fst (containsAnyPrice text st) = some_pattern_matches text)
  /\ (forall cleaned : jsstring,
        fst (containsAnyPrice text (snd (removeAllPrices cleaned st)))
        = some_pattern_matches text)
  /\ (forall RT : Runtime,
        (fst (containsPrice text st) = true ->
         existsb (fun p => re_test p text) PRICE_PATTERNS = true)
        /\ (price_patterns_reset st ->
            fst (containsPrice text st)
            = existsb (fun p => re_test p text) PRICE_PATTERNS)).
Proof.
  split; [apply containsAnyPrice_sound|].
  split; [apply containsAnyPrice_false_reset|].
  split; [apply containsAnyPrice_exact|]. split.
  - intros cleaned. apply containsAnyPrice_exact. intros n Hn.
    now apply removeAllPrices_state.
  - intros RT. unfold containsPrice.
    pose proof (some_test_sound PRICE_PATTERNS 0 text (st_price st)) as Hs.
    pose proof (some_test_exact PRICE_PATTERNS 0 text (st_price st)) as He.
    destruct (some_test _ _ _ _) as [b li]. cbn [fst] in *.
    split; [exact Hs|]. intros Hr. apply He. intros n Hn. apply Hr. exact Hn.
Qed.

(* ---------------------------------------------------------------- *)
(** ** [extractAllPrices] *)

Lemma match_each_state ps : forall i text li j,
  snd (match_each ps i text li) j
  = if (i <=? j) && (j <? i + List.length ps) then 0 else li j.
Proof.
  induction ps as [|p ps IH]; intros i text li j; cbn [match_each List.length].
  - destruct (Nat.leb_spec i j), (Nat.ltb_spec j (i + 0)); simpl;
      try reflexivity; lia.
  - specialize (IH (S i) text (upd li i 0) j).
    destruct (match_each ps (S i) text (upd li i 0)) as [rest li']. cbn [snd] in *.
    rewrite IH. unfold upd.
    destruct (Nat.leb_spec (S i) j), (Nat.ltb_spec j (S i + List.length ps)),
      (Nat.leb_spec i j), (Nat.ltb_spec j (i + S (List.length ps))),
      (Nat.eqb_spec j i); simpl; try reflexivity; lia.
Qed.

Lemma match_each_result ps : forall i text li,
  fst (match_each ps i text li) = flat_map (fun p => match_all p text) ps.
Proof.
  induction ps as [|p ps IH]; intros i text li; cbn [match_each flat_map];
    [reflexivity|].
  specialize (IH (S i) text (upd li i 0)).
  destruct (match_each ps (S i) text (upd li i 0)) as [rest li']. cbn [fst] in *.
  now rewrite IH.
Qed.

Lemma match_all_nil re s : match_all re s = [] <-> re_test re s = false.
Proof.
  unfold match_all, matches_of, re_test. cbn [all_matches].
  destruct (exec_from re s 0); cbn [map]; split; congruence.
Qed.

Lemma flat_map_nil {A B} (f : A -> list B) l :
  flat_map f l = [] <-> forallb (fun a => match f a with [] => true | _ => false end) l = true.
Proof.
  induction l as [|a l IH]; cbn [flat_map forallb]; [tauto|].
  destruct (f a) as [|b bs]; cbn [app andb]; [exact IH|].
  split; discriminate.
Qed.

Lemma extractAllPrices_result text st :
  fst (extractAllPrices text st)
  = flat_map (fun p => match_all p text) COMPREHENSIVE_PRICE_PATTERNS
    ++ match_all re_market_price text.
Proof.
  unfold extractAllPrices.
  pose proof (match_each_result COMPREHENSIVE_PRICE_PATTERNS 0 text
                (st_comprehensive st)) as E.
  destruct (match_each _ _ _ _) as [prices li]. cbn [fst] in *. now rewrite E.
Qed.

Lemma extractAllPrices_reset text st : patterns_reset (snd (extractAllPrices text st)).
Proof.
  intros n Hn. unfold extractAllPrices.
  pose proof (match_each_state COMPREHENSIVE_PRICE_PATTERNS 0 text
                (st_comprehensive st) n) as E.
  destruct (match_each _ _ _ _) as [prices li].
  cbn [snd set_comprehensive st_comprehensive] in *. rewrite E.
  change (List.length COMPREHENSIVE_PRICE_PATTERNS) with 9.
  replace (n <? 0 + 9) with true by (symmetry; apply Nat.ltb_lt; lia).
  reflexivity.
Qed.

Lemma extractAllPrices_nil text st :
  fst (extractAllPrices text st) = [] <-> some_pattern_matches text = false.
Proof.
  rewrite extractAllPrices_result. unfold some_pattern_matches. split.
  - intros H. apply app_eq_nil in H as [H _].
    apply flat_map_nil in H. rewrite forallb_forall in H.
    destruct (existsb _ _) eqn:E; [|reflexivity].
    apply existsb_exists in E as (p & Hp & Ht). specialize (H p Hp).
    destruct (match_all p text) eqn:Em; [|discriminate].
    apply match_all_nil in Em. congruence.
  - intros H.
    assert (Hall : forall p, In p COMPREHENSIVE_PRICE_PATTERNS -> match_all p text = []).
    { intros p Hp. apply match_all_nil.
      destruct (re_test p text) eqn:E; [|reflexivity].
      assert (X : existsb (fun p => re_test p text) COMPREHENSIVE_PRICE_PATTERNS = true)
        by (apply existsb_exists; eauto).
      congruence. }
    rewrite (Hall re_market_price)
      by (unfold COMPREHENSIVE_PRICE_PATTERNS; cbn [In]; do 8 right; left; reflexivity).
    rewrite app_nil_r. apply flat_map_nil, forallb_forall.
    intros p Hp. now rewrite (Hall p Hp).
Qed.

(** X7. [extractAllPrices] does not depend on the state of the shared
    patterns and leaves them reset; the matches are those of each pattern
    of the list in turn, then those of the phrase pattern; and the list is
    empty exactly when no pattern of the list matches the text, that is
    when [containsAnyPrice], called next, answers false. *)
Theorem extractAllPrices_complete (text : jsstring) (st : State) :
  fst (extractAllPrices text st)
  = flat_map (fun p => match_all p text) COMPREHENSIVE_PRICE_PATTERNS
    ++ match_all re_market_price text
  /\ patterns_reset (snd (extractAllPrices text st))
  /\ (fst (extractAllPrices text st) = [] <-> some_pattern_matches text = false)
  /\ (fst (extractAllPrices text st) = [] <->
      fst (containsAnyPrice text (snd (extractAllPrices text st))) = false).
Proof.
  split; [apply extractAllPrices_result|]. split; [apply extractAllPrices_reset|].
  split; [apply extractAllPrices_nil|].
  rewrite extractAllPrices_nil.
  now rewrite (containsAnyPrice_exact text _ (extractAllPrices_reset text st)).
Qed.

(* ---------------------------------------------------------------- *)
(** ** [removeAllPrices] *)

Lemma replace_each_result ps : forall i text li,
  fst (replace_each ps i text li) = fold_left (fun t p => replace_all p [] t) ps text.
Proof.
  induction ps as [|p ps IH]; intros i text li; cbn [replace_each fold_left];
    [reflexivity|]. apply IH.
Qed.

(** X8. [removeAllPrices] does not read the state of the shared patterns:
    its result is the same after any history of calls. It leaves the nine
    patterns reset and touches nothing else, and its result is in normal
    form for white space: collapsing the white space and trimming it again
    changes nothing. *)
Theorem removeAllPrices_history_free (text : jsstring) (st : State) :
  (forall st' : State, fst (removeAllPrices text st') = fst (removeAllPrices text st))
  /\ patterns_reset (snd (removeAllPrices text st))
  /\ st_price (snd (removeAllPrices text st)) = st_price st
  /\ st_clock (snd (removeAllPrices text st)) = st_clock st
  /\ trim (replace_all re_spaces (js " ") (fst (removeAllPrices text st)))
     = fst (removeAllPrices text st).
Proof.
  split; [|split; [|split; [|split]]].
  - intros st'. rewrite !removeAllPrices_eq, !replace_each_result. reflexivity.
  - intros n Hn. now apply removeAllPrices_state.
  - unfold removeAllPrices. destruct (replace_each _ _ _ _). reflexivity.
  - unfold removeAllPrices. destruct (replace_each _ _ _ _). reflexivity.
  - rewrite replace_all_spaces. apply removeAllPrices_tidy.
Qed.
End PatternStateFacts.

(* ================================================================== *)
(** * The validator on the output of the normalizer *)
(* ================================================================== *)

Module ValidatorFacts.
Import RegexFacts TextUtils PriceRemoval PriceFacts PatternStateFacts.






End ValidatorFacts.

(* ================================================================== *)
(** * Character counts and ratio features *)
(* ================================================================== *)

Module ClassFacts.
Import RegexFacts TextUtils.

(** The first member of the class in the rest of the input. *)
Lemma scan_cls_first k rest : forall pos prev,
  (scan (mk_re (Cls k)) pos prev rest = None
   /\ filter (class_mem false k) rest = [])
  \/ exists pre c suf,
       rest = pre ++ c :: suf
       /\ filter (class_mem false k) pre = []
       /\ class_mem false k c = true
       /\ scan (mk_re (Cls k)) pos prev rest
          = Some {| m_start := pos + List.length pre;
                    m_end := S (pos + List.length pre); m_caps := [None] |}.
Proof.
  induction rest as [|ch rest IH]; intros pos prev.
  - left. split; reflexivity.
  - cbn [scan]. rewrite match_here_cls. cbn [filter].
    destruct (class_mem false k ch) eqn:M.
    + right. exists [], ch, rest. cbn [List.length app filter].
      rewrite Nat.add_0_r. repeat apply conj; reflexivity || exact M.
    + destruct (IH (S pos) (Some ch)) as [[Hn Hf]|(pre & c & suf & -> & Hp & Hc & Hs)].
      * left. split; assumption.
      * right. exists (ch :: pre), c, suf. cbn [List.length app filter].
        rewrite M, Hs, Nat.add_succ_r.
        repeat apply conj; reflexivity || assumption.
Qed.

Lemma substring_one (pre : jsstring) c suf :
  substring (pre ++ c :: suf) (List.length pre) (S (List.length pre)) = [c].
Proof.
  unfold substring. rewrite skipn_app, skipn_all, Nat.sub_diag. cbn [app skipn].
  replace (S (List.length pre) - List.length pre) with 1 by lia. reflexivity.
Qed.

Lemma all_matches_cls k : forall fuel rest pre,
  List.length rest < fuel ->
  map (fun m => substring (pre ++ rest) (m_start m) (m_end m))
      (all_matches fuel (mk_re (Cls k)) (pre ++ rest) (List.length pre))
  = map (fun c => [c]) (filter (class_mem false k) rest).
Proof.
  induction fuel as [|fuel IH]; intros rest pre Hf; [lia|].
  cbn [all_matches]. unfold exec_from.
  replace (List.length (pre ++ rest) <? List.length pre) with false
    by (symmetry; apply Nat.ltb_ge; rewrite length_app; lia).
  rewrite skipn_app, skipn_all, Nat.sub_diag. cbn [app skipn].
  destruct (scan_cls_first k rest (List.length pre) (prev_at (pre ++ rest) (List.length pre)))
    as [[Hn Hnil]|(non & c & suf & -> & Hnon & Hc & Hs)].
  - rewrite Hn, Hnil. reflexivity.
  - rewrite Hs. cbn [m_start m_end map].
    replace (S (List.length pre + List.length non) =? List.length pre + List.length non)
      with false by (symmetry; apply Nat.eqb_neq; lia).
    rewrite filter_app, Hnon. cbn [app filter]. rewrite Hc. cbn [map].
    replace (pre ++ non ++ c :: suf) with ((pre ++ non) ++ c :: suf)
      by now rewrite <- app_assoc.
    rewrite <- length_app. rewrite substring_one. f_equal.
    replace ((pre ++ non) ++ c :: suf) with (((pre ++ non) ++ [c]) ++ suf)
      by now rewrite <- !app_assoc.
    replace (S (List.length (pre ++ non))) with (List.length ((pre ++ non) ++ [c]))
      by (rewrite (length_app (pre ++ non)); cbn [List.length]; lia).
    apply IH. rewrite length_app in Hf. cbn [List.length] in Hf. lia.
Qed.

(** [s.match(/[k]/g)] lists the characters of the class, in order. *)
Lemma match_all_cls k s :
  match_all (mk_re (Cls k)) s = map (fun c => [c]) (filter (class_mem false k) s).
Proof.
  unfold match_all, matches_of.
  apply (all_matches_cls k (S (S (List.length s))) s []). lia.
Qed.

Lemma count_class_filter rs text :
  count_class rs text = List.length (filter (class_mem false (cls rs)) text).
Proof. unfold count_class. now rewrite match_all_cls, length_map. Qed.

Lemma filter_length_mono {A} (f g : A -> bool) l :
  (forall a, f a = true -> g a = true) ->
  List.length (filter f l) <= List.length (filter g l).
Proof.
  intros H. induction l as [|a l IH]; cbn [filter List.length]; [lia|].
  destruct (f a) eqn:F.
  - rewrite (H a F). cbn [List.length]. lia.
  - destruct (g a); cbn [List.length]; lia.
Qed.

Lemma Qnat_ratio n d : n <= d -> 0 < d -> (0 <= Qnat n / Qnat d <= 1)%Q.
Proof.
  intros Hn Hd.
  assert (Hp : (0 < Qnat d)%Q) by (unfold Qnat, Qlt; simpl; lia).
  split.
  - apply Qle_shift_div_l; [exact Hp|]. rewrite Qmult_0_l.
    unfold Qnat, Qle. simpl. lia.
  - apply Qle_shift_div_r; [exact Hp|]. rewrite Qmult_1_l.
    unfold Qnat, Qle. simpl. lia.
Qed.

Lemma class_mem_cls rs c : class_mem false (cls rs) c = existsb (range_mem false c) rs.
Proof. unfold class_mem, cls. cbn [cc_neg cc_ranges]. now destruct (existsb _ _). Qed.

Lemma range_one c a : range_mem false c (one a) = (c =? a)%N.
Proof.
  unfold range_mem, one, in_range. cbn [fst snd andb]. rewrite orb_false_r.
  destruct (N.eqb_spec c a), (N.leb_spec a c), (N.leb_spec c a);
    simpl; try reflexivity; lia.
Qed.

Lemma upper_is_letter c :
  class_mem false (cls r_upper) c = true -> class_mem false (cls r_letter) c = true.
Proof.
  unfold class_mem, cls, r_upper, r_letter, range_mem. cbn [cc_neg cc_ranges existsb xorb andb fst snd].
  rewrite !orb_false_r. intros ->. apply orb_true_r.
Qed.

Lemma count_letters text :
  count_class r_letter text = List.length (filter is_ascii_letter text).
Proof.
  rewrite count_class_filter. f_equal. apply filter_ext. intros c.
  rewrite class_mem_cls. unfold r_letter, range_mem, is_ascii_letter, is_upper_ascii,
    is_lower_ascii. cbn [existsb andb fst snd].
  rewrite !orb_false_r. apply orb_comm.
Qed.

Lemma calculatePunctuationDensity_bounds text :
  (0 <= calculatePunctuationDensity text <= 1)%Q.
Proof.
  unfold calculatePunctuationDensity. rewrite count_class_filter.
  apply Qnat_ratio; [|lia].
  pose proof (filter_length_le (class_mem false (cls r_punct)) text). lia.
Qed.

Lemma calculateLetterRatio_bounds text : (0 <= calculateLetterRatio text <= 1)%Q.
Proof.
  unfold calculateLetterRatio. rewrite count_class_filter.
  apply Qnat_ratio; [|lia].
  pose proof (filter_length_le (class_mem false (cls r_letter)) text). lia.
Qed.

Lemma calculateUppercaseRatio_bounds text : (0 <= calculateUppercaseRatio text <= 1)%Q.
Proof.
  unfold calculateUppercaseRatio. rewrite !count_class_filter.
  destruct (Nat.ltb_spec 0 (List.length (filter (class_mem false (cls r_letter)) text)))
    as [L|L]; [|split; discriminate].
  apply Qnat_ratio; [|exact L].
  apply filter_length_mono, upper_is_letter.
Qed.

(** X9. The ratio features of a text are proportions: the counts of
    [calculatePunctuationDensity], [calculateLetterRatio] and
    [calculateUppercaseRatio] are the numbers of characters of the text
    among [,;:], the ASCII letters and the ASCII capitals, so each ratio
    lies between 0 and 1, for every text; on the empty text each is 0. *)
Theorem ratio_features_bounds (text : jsstring) :
  (count_class r_punct text
   = List.length (filter (fun c => (c =? 44) || (c =? 59) || (c =? 58))%N text)
   /\ count_class r_letter text = List.length (filter is_ascii_letter text)
   /\ count_class r_upper text = List.length (filter is_upper_ascii text))
  /\ (0 <= calculatePunctuationDensity text <= 1)%Q
  /\ (0 <= calculateLetterRatio text <= 1)%Q
  /\ (0 <= calculateUppercaseRatio text <= 1)%Q
  /\ calculatePunctuationDensity [] = 0%Q
  /\ calculateLetterRatio [] = 0%Q
  /\ calculateUppercaseRatio [] = 0%Q.
Proof.
  split; [split; [|split]|split; [|split; [|split]]].
  - rewrite count_class_filter. f_equal. apply filter_ext. intros c.
    rewrite class_mem_cls. unfold r_punct. cbn [existsb]. rewrite !range_one.
    now rewrite orb_false_r, orb_assoc.
  - apply count_letters.
  - rewrite count_class_filter. f_equal. apply filter_ext. intros c.
    rewrite class_mem_cls. unfold r_upper, range_mem, is_upper_ascii.
    cbn [existsb andb fst snd]. now rewrite !orb_false_r.
  - apply calculatePunctuationDensity_bounds.
  - apply calculateLetterRatio_bounds.
  - apply calculateUppercaseRatio_bounds.
  - repeat apply conj; reflexivity.
Qed.
End ClassFacts.

(* ================================================================== *)
(** * The final normalisation and validation of a name *)
(* ================================================================== *)

Module NameFacts.
Import RegexFacts TextUtils PriceRemoval PriceFacts Extract PatternStateFacts ClassFacts.

(** The characters that survive [normalizeTextWithPriceRemoval]: ASCII
    letters, the underscore, the space, the hyphen, the apostrophe and the
    ampersand. *)
Definition name_char (c : N) : bool :=
  is_ascii_letter c || (c =? 95)%N || (c =? 32)%N
  || (c =? 45)%N || (c =? 39)%N || (c =? 38)%N.

Lemma Forall_collapse_nonspace (P : N -> Prop) s : forall b,
  P 32%N -> Forall (fun c => is_space c = false -> P c) s ->
  Forall P (collapse_from b s).
Proof.
  induction s as [|c s IH]; intros b H32 Hs; cbn [collapse_from]; [constructor|].
  inversion Hs as [|? ? Hc Hs']; subst.
  destruct (is_space c) eqn:E; [destruct b|]; try constructor; auto.
Qed.

Lemma Forall_outside (P : N -> Prop) k s :
  Forall P s -> Forall P (outside k s).
Proof.
  unfold outside. rewrite !Forall_forall. intros H c Hc.
  apply filter_In in Hc as [Hc _]. now apply H.
Qed.

Lemma Forall_outside_not k s :
  Forall (fun c => class_mem false k c = false) (outside k s).
Proof.
  unfold outside. apply Forall_forall. intros c Hc.
  apply filter_In in Hc as [_ Hc]. now apply negb_true_iff in Hc.
Qed.

Lemma kept_char c :
  class_mem false (ncls (r_word ++ r_space
                         ++ [one (chr "-"); one (chr "'"); one (chr "&")])) c = false ->
  class_mem false (cls r_digit) c = false ->
  is_space c = false -> name_char c = true.
Proof.
  intros Hk Hd Hs. rewrite class_digit in Hd. rewrite <- class_space in Hs.
  rewrite class_mem_cls in Hs.
  unfold class_mem, ncls in Hk. cbn [cc_neg cc_ranges] in Hk.
  apply negb_false_iff in Hk. rewrite !existsb_app, Hs in Hk.
  cbn [existsb] in Hk. rewrite !range_one in Hk.
  change (chr "-") with 45%N in Hk. change (chr "'") with 39%N in Hk.
  change (chr "&") with 38%N in Hk.
  assert (Hw : existsb (range_mem false c) r_word = is_ascii_letter c || (c =? 95)%N).
  { unfold r_word. cbn [existsb].
    pose proof (range_one c 95) as H95. unfold one in H95. rewrite H95.
    unfold range_mem. cbn [fst snd andb]. rewrite !orb_false_r.
    fold (is_upper_ascii c). fold (is_lower_ascii c). fold (is_digit c).
    rewrite Hd. unfold is_ascii_letter.
    destruct (is_upper_ascii c), (is_lower_ascii c), (c =? 95)%N; reflexivity. }
  rewrite Hw in Hk. unfold name_char.
  destruct (is_ascii_letter c), (c =? 95)%N, (c =? 45)%N, (c =? 39)%N, (c =? 38)%N,
    (c =? 32)%N; try reflexivity; discriminate Hk.
Qed.

Lemma normalizeTextWithPriceRemoval_eq text st :
  fst (normalizeTextWithPriceRemoval text st)
  = trim (collapse
      (outside (cls r_digit)
         (outside (ncls (r_word ++ r_space
                         ++ [one (chr "-"); one (chr "'"); one (chr "&")]))
            (collapse (trim (fst (removeAllPrices text st))))))).
Proof.
  unfold normalizeTextWithPriceRemoval, bind, ret.
  destruct (removeAllPrices text st) as [u st1]. cbn [fst].
  rewrite !replace_all_spaces. unfold re_not_name_char, Re.d.
  now rewrite !replace_all_cls.
Qed.

Lemma normalizeTextWithPriceRemoval_state text st :
  snd (normalizeTextWithPriceRemoval text st) = snd (removeAllPrices text st).
Proof.
  unfold normalizeTextWithPriceRemoval, bind, ret.
  now destruct (removeAllPrices text st) as [u st1].
Qed.

Lemma normalized_chars text st :
  Forall (fun c => name_char c = true) (fst (normalizeTextWithPriceRemoval text st)).
Proof.
  rewrite normalizeTextWithPriceRemoval_eq.
  apply Forall_trim, Forall_collapse_nonspace; [reflexivity|].
  set (k := ncls _). set (s := collapse _).
  pose proof (Forall_outside_not (cls r_digit) (outside k s)) as Hd.
  pose proof (Forall_outside (fun c => class_mem false k c = false) (cls r_digit)
                (outside k s) (Forall_outside_not k s)) as Hk.
  rewrite Forall_forall in *. intros c Hc Hs.
  apply kept_char; [apply Hk | apply Hd | exact Hs]; exact Hc.
Qed.

Lemma name_char_not_digit c : name_char c = true -> is_digit c = false.
Proof.
  unfold name_char, is_ascii_letter, is_upper_ascii, is_lower_ascii, is_digit, in_range.
  intros H.
  destruct (N.leb_spec 48 c), (N.leb_spec c 57); cbn [andb]; try reflexivity.
  repeat (apply orb_true_iff in H as [H|H]);
    repeat match goal with
           | H : _ && _ = true |- _ => apply andb_true_iff in H as [? ?]
           | H : (_ <=? _)%N = true |- _ => apply N.leb_le in H
           | H : (_ =? _)%N = true |- _ => apply N.eqb_eq in H
           end; lia.
Qed.

Lemma name_char_not_currency c : name_char c = true -> ~ In c (js "$€£¥").
Proof.
  change (js "$€£¥") with [36; 8364; 163; 165]%N.
  unfold name_char, is_ascii_letter, is_upper_ascii, is_lower_ascii, in_range.
  intros H Hin.
  repeat (apply orb_true_iff in H as [H|H]);
    repeat match goal with
           | H : _ && _ = true |- _ => apply andb_true_iff in H as [? ?]
           | H : (_ <=? _)%N = true |- _ => apply N.leb_le in H
           | H : (_ =? _)%N = true |- _ => apply N.eqb_eq in H
           end; cbn [In] in Hin; lia.
Qed.

(** On a text without digit and without currency symbol the validator
    only looks for the phrase. *)
Lemma validateNoPrices_phrase text st :
  digit_free text -> no_currency text ->
  fst (validateNoPrices text st) = negb (re_test re_market_price text).
Proof.
  intros Hd Hc. destruct (re_test re_market_price text) eqn:Hm.
  - unfold validateNoPrices, bind, ret.
    destruct (containsAnyPrice text st) as [b st1]. cbn [fst].
    rewrite Hm. cbn [negb]. apply andb_false_r.
  - now apply validateNoPrices_digit_free.
Qed.

(** X10. The result of [normalizeTextWithPriceRemoval] (and of
    [normalizeCandidateText], which calls it) is made of ASCII letters,
    underscores, hyphens, apostrophes, ampersands and single spaces only: it
    has no digit and no currency symbol, and collapsing and trimming its
    white space again changes nothing. It does not depend on the state of the
    shared patterns, which it leaves reset. *)
Theorem normalizeTextWithPriceRemoval_alphabet (text : jsstring) (st : State) :
  Forall (fun c => name_char c = true) (fst (normalizeTextWithPriceRemoval text st))
  /\ digit_free (fst (normalizeTextWithPriceRemoval text st))
  /\ no_currency (fst (normalizeTextWithPriceRemoval text st))
  /\ trim (replace_all re_spaces (js " ") (fst (normalizeTextWithPriceRemoval text st)))
     = fst (normalizeTextWithPriceRemoval text st)
  /\ (forall st' : State,
        fst (normalizeTextWithPriceRemoval text st')
        = fst (normalizeTextWithPriceRemoval text st))
  /\ patterns_reset (snd (normalizeTextWithPriceRemoval text st))
  /\ (forall RT : Runtime,
        normalizeCandidateText text st = normalizeTextWithPriceRemoval text st).
Proof.
  pose proof (normalized_chars text st) as Hc.
  split; [exact Hc|]. split; [|split; [|split; [|split; [|split]]]].
  - unfold digit_free. eapply Forall_impl; [|exact Hc]. apply name_char_not_digit.
  - unfold no_currency. eapply Forall_impl; [|exact Hc]. apply name_char_not_currency.
  - rewrite replace_all_spaces, normalizeTextWithPriceRemoval_eq.
    apply trim_collapse_idem.
  - intros st'. rewrite !normalizeTextWithPriceRemoval_eq, !removeAllPrices_eq,
      !replace_each_result. reflexivity.
  - rewrite normalizeTextWithPriceRemoval_state. intros n Hn.
    now apply removeAllPrices_state.
  - reflexivity.
Qed.

(** X11. [validateEntreeName] accepts a text exactly when its normalized
    form has at least two words and four characters, at least 70% of ASCII
    letters, and does not contain the phrase [market price]: no other price
    pattern can match a normalized text, so the verdict does not depend on
    the state of the shared patterns. *)
Theorem validateEntreeName_characterized `{RT : Runtime} (text : jsstring) (st : State) :
  fst (validateEntreeName text st) = true <->
  2 <= List.length (filter nonempty
                      (split re_spaces (fst (normalizeTextWithPriceRemoval text st))))
  /\ 4 <= List.length (fst (normalizeTextWithPriceRemoval text st))
  /\ (7 # 10 <= Qnat (List.length (filter is_ascii_letter
                                    (fst (normalizeTextWithPriceRemoval text st))))
                / Qnat (List.length (fst (normalizeTextWithPriceRemoval text st))))%Q
  /\ re_test re_market_price (fst (normalizeTextWithPriceRemoval text st)) = false.
Proof.
  pose proof (normalized_chars text st) as Hc.
  unfold validateEntreeName, normalizeCandidateText, bind.
  destruct (normalizeTextWithPriceRemoval text st) as [n st1]. cbn [fst] in *.
  assert (Hd : digit_free n)
    by (unfold digit_free; eapply Forall_impl; [|exact Hc]; apply name_char_not_digit).
  assert (Hn : no_currency n)
    by (unfold no_currency; eapply Forall_impl; [|exact Hc]; apply name_char_not_currency).
  rewrite count_letters.
  destruct (Nat.ltb_spec (List.length (filter nonempty (split re_spaces n))) 2) as [W|W];
    [cbn [ret fst]; split; [discriminate | intros (? & _); lia]|].
  destruct (Nat.ltb_spec (List.length n) 4) as [L|L];
    [cbn [ret fst]; split; [discriminate | intros (_ & ? & _); lia]|].
  destruct (Qltb _ (7 # 10)) eqn:R.
  - cbn [ret fst]. split; [discriminate|]. intros (_ & _ & H & _).
    unfold Qltb in R. apply negb_true_iff in R.
    apply Qle_bool_iff in H. congruence.
  - unfold Qltb in R. apply negb_false_iff, Qle_bool_iff in R.
    pose proof (validateNoPrices_phrase n st1 Hd Hn) as V.
    destruct (validateNoPrices n st1) as [valid st2]. cbn [fst] in V. subst valid.
    destruct (re_test re_market_price n); cbn [negb ret fst].
    + split; [discriminate|]. intros (_ & _ & _ & H). discriminate.
    + split; [intros _ | reflexivity]. repeat apply conj; auto.
Qed.
End NameFacts.

(* ================================================================== *)
(** * Splitting a line into parts *)
(* ================================================================== *)

Module SplitFacts.
Import RegexFacts TextUtils PriceRemoval Headers EntreeLookup Extract Monadic
       PatternStateFacts.

Section WithRuntime.
Context {RT : Runtime}.

Lemma try_compound_length patterns baseText price text :
  try_compound patterns baseText price text = [text]
  \/ List.length (try_compound patterns baseText price text) = 2.
Proof.
  induction patterns as [|pattern rest IH]; cbn [try_compound]; [now left|].
  destruct (exec_from pattern baseText 0) as [m|]; [|exact IH].
  destruct (_ && _); [right; reflexivity | exact IH].
Qed.

(** What every list of parts returned for a line satisfies. *)
Definition parts_ok (line : OcrLine) (parts : list Part) : Prop :=
  parts <> [] /\ Forall (fun part => part_bbox part = line_bbox line) parts.

Lemma fallback_loop_bbox bbox parts : forall results,
  Forall (fun part => part_bbox part = bbox) results ->
  always (fallback_loop bbox parts results)
         (Forall (fun part => part_bbox part = bbox)).
Proof.
  induction parts as [|part rest IH]; intros results H; cbn [fallback_loop].
  - apply always_ret. exact H.
  - case_if; [now apply IH|]. case_if; [now apply IH|].
    cbv zeta. case_if; [|now apply IH].
    step_any. case_if; [|now apply IH].
    apply IH. apply Forall_app. split; [exact H|]. repeat constructor.
Qed.

Lemma nonempty_length {A} (l : list A) : (0 <? List.length l) = true -> l <> [].
Proof. destruct l; [discriminate | discriminate]. Qed.

Lemma splitLineByPrices_ok line : always (splitLineByPrices line) (parts_ok line).
Proof.
  assert (Hwhole : parts_ok line [{| part_text := trim (line_text line);
                                     part_bbox := line_bbox line |}]).
  { split; [discriminate | repeat constructor]. }
  unfold splitLineByPrices. cbv zeta. step_any.
  case_if; [apply always_ret; exact Hwhole|].
  match goal with |- always (if 0 <? List.length ?r then _ else _) _ =>
    destruct (0 <? List.length r) eqn:R end.
  { apply always_ret. split; [now apply nonempty_length|].
    apply Forall_flat_map, Forall_forall. intros m _.
    destruct (_ && _); repeat constructor. }
  match goal with |- always (if 1 <? List.length ?r then _ else _) _ =>
    destruct (Nat.ltb_spec 1 (List.length r)) as [C|C] end.
  { apply always_ret. split.
    - intros E. apply (f_equal (@List.length Part)) in E.
      rewrite length_map in E. cbn [List.length] in E. lia.
    - apply Forall_map, Forall_forall. intros item _. reflexivity. }
  case_if; [apply always_ret; exact Hwhole|].
  apply always_bind with (Q := Forall (fun part => part_bbox part = line_bbox line)).
  - apply fallback_loop_bbox. constructor.
  - intros results Hr.
    destruct (0 <? List.length results) eqn:F; apply always_ret; [|exact Hwhole].
    split; [now apply nonempty_length | exact Hr].
Qed.

(** X18. [splitLineByPrices] never returns an empty list, and every part
    carries the bounding box of the line. A line on which no price pattern
    matches is returned whole, as one part holding its trimmed text; this
    does not depend on the state of the shared patterns.
    [detectCompoundMenuItems] returns either its argument alone or exactly
    two items. *)
Theorem splitLineByPrices_parts (line : OcrLine) (st : State) :
  fst (splitLineByPrices line st) <> []
  /\ Forall (fun part => part_bbox part = line_bbox line) (fst (splitLineByPrices line st))
  /\ (some_pattern_matches (trim (line_text line)) = false ->
      fst (splitLineByPrices line st)
      = [{| part_text := trim (line_text line); part_bbox := line_bbox line |}])
  /\ (forall text : jsstring,
        detectCompoundMenuItems text = [text]
        \/ List.length (detectCompoundMenuItems text) = 2).
Proof.
  destruct (splitLineByPrices_ok line st) as [Hne Hb].
  split; [exact Hne|]. split; [exact Hb|]. split.
  - intros Hno. unfold splitLineByPrices, bind. cbv zeta.
    pose proof (proj2 (extractAllPrices_nil (trim (line_text line)) st) Hno) as E.
    destruct (extractAllPrices (trim (line_text line)) st) as [prices st1].
    cbn [fst] in E. subst prices. reflexivity.
  - intros text. unfold detectCompoundMenuItems. apply try_compound_length.
Qed.
End WithRuntime.
End SplitFacts.

(* ================================================================== *)
(** * Invariants of the extracted candidates *)
(* ================================================================== *)

Module CandidateInvariants.
Import TextUtils PriceRemoval Headers EntreeLookup Extract Monadic RegexFacts PriceFacts
       SplitFacts.


(** White space in normal form: collapsing and trimming changes nothing. *)
Definition tidy (text : jsstring) : Prop :=
  trim (replace_all re_spaces (js " ") text) = text.

Lemma removeAllPrices_always_tidy text : always (removeAllPrices text) tidy.
Proof.
  intros st. unfold tidy. rewrite replace_all_spaces. apply removeAllPrices_tidy.
Qed.

Section WithRuntime.
Context {RT : Runtime}.

(** The checks of [isValidEntreeName] that precede the price validation. *)
Definition name_shape (text : jsstring) : Prop :=
  existsb (fun word => startsWith (trim (toLowerCase text)) (word ++ js " "))
          invalidStartWords = false
  /\ re_test re_middle_punct text = false
  /\ 4 <= List.length (trim (toLowerCase text))
  /\ 2 <= List.length (filter nonempty (split re_spaces (trim (toLowerCase text)))).

Lemma isValidEntreeName_shape text :
  always (isValidEntreeName text) (fun b => b = true -> name_shape text).
Proof.
  unfold isValidEntreeName, name_shape. cbv zeta.
  repeat match goal with
         | |- always (if ?c then _ else _) _ =>
           destruct c eqn:?; [apply always_ret; discriminate|]
         end.
  step_any. case_if; apply always_ret; [discriminate|].
  intros _. repeat apply conj; try reflexivity; now apply Nat.ltb_ge.
Qed.

(** A number that is not above 1: NaN, minus infinity, or a finite value
    of at most 1. *)
Definition at_most_1 (c : jsnum) : Prop :=
  match c with
  | Fin q => (q <= 1)%Q
  | PInf => False
  | _ => True
  end.

Lemma calculateConfidenceScore_le_1 W features databaseMatch :
  always (calculateConfidenceScore W features databaseMatch) at_most_1.
Proof.
  intros st.
  destruct (ScorerFacts.calculateConfidenceScore_range W features databaseMatch st)
    as [-> | (q & -> & _ & H)]; [exact I | exact H].
Qed.

Lemma jmin_1_at_most_1 (c : jsnum) : at_most_1 (jmin (Fin 1) c).
Proof.
  destruct c as [q| | |]; try exact I.
  - cbv beta iota delta [jmin jltb].
    destruct (Qltb q 1) eqn:E; [|cbn; discriminate].
    cbn. apply Qlt_le_weak. unfold Qltb in E. apply negb_true_iff in E.
    apply Qnot_le_lt. intros H. apply Qle_bool_iff in H. congruence.
  - cbn. discriminate.
Qed.

(** Above a threshold of at least 0.03 and not above 1: a finite value in
    that range. *)
Lemma gate_confidence (c : jsnum) (threshold : Q) :
  at_most_1 c -> (3 # 100 <= threshold)%Q -> jgtb c (Fin threshold) = true ->
  exists q, c = Fin q /\ (3 # 100 < q)%Q /\ (q <= 1)%Q.
Proof.
  destruct c as [q| | |]; cbv beta iota delta [jgtb jltb at_most_1];
    try discriminate; try contradiction.
  intros H1 Ht Hg. exists q. split; [reflexivity|]. split; [|exact H1].
  eapply Qle_lt_trans; [exact Ht|].
  unfold Qltb in Hg. apply negb_true_iff in Hg.
  apply Qnot_le_lt. intros H. apply Qle_bool_iff in H. congruence.
Qed.

Section Page.
Variable W : World.
Variable pageNumber : Q.
Variable ocrLines : list OcrLine.
Variable lines : list jsstring.
Variable sectionHeaders : list SectionHeader.

(** A line the loop does not skip at once: a line of the page whose
    trimmed text has at least two characters, no blacklisted term, and is
    not a section header. *)
Definition eligible (line : OcrLine) : Prop :=
  In line ocrLines
  /\ 2 <= List.length (trim (line_text line))
  /\ containsBlacklistedTerms (trim (line_text line)) = false
  /\ isSectionHeader (trim (line_text line)) = false.

(** What every candidate pushed by the loop satisfies. *)
Definition well_formed (c : Candidate) : Prop :=
  c_page c = pageNumber
  /\ c_priceContext c = []
  /\ (exists q, c_confidence c = Fin q /\ (3 # 100 < q)%Q /\ (q <= 1)%Q)
  /\ name_shape (c_text c)
  /\ tidy (c_text c)
  /\ exists line, eligible line /\ c_bbox c = line_bbox line.

Definition all_wf (r : option (list Candidate)) : Prop :=
  match r with
  | Some cs => Forall well_formed cs
  | None => True
  end.

Lemma gated_push_wf {B} i text bbox features confidence threshold databaseMatch
    (candidates : list Candidate) (k : list Candidate -> M B) (e : M B)
    (P : B -> Prop) :
  tidy text -> at_most_1 confidence -> (3 # 100 <= threshold)%Q ->
  (exists line, eligible line /\ bbox = line_bbox line) ->
  Forall well_formed candidates ->
  (forall cs, Forall well_formed cs -> always (k cs) P) ->
  always e P ->
  always (ok <- andM (ret (jgtb confidence (Fin threshold))) (isValidEntreeName text) ;;
          if ok then
            candidate <- newCandidate W pageNumber sectionHeaders i text bbox features
                           confidence databaseMatch ;;
            k (candidates ++ [candidate])
          else e) P.
Proof.
  intros Ht Hle Hthr Hline Hc Hk He.
  apply always_bind
    with (Q := fun b => b = true ->
                       jgtb confidence (Fin threshold) = true /\ name_shape text).
  - apply always_andM_both, isValidEntreeName_shape.
  - intros ok Hok. destruct ok; [|exact He].
    destruct (Hok eq_refl) as [Hgt Hshape].
    apply always_bind with (Q := well_formed).
    + unfold newCandidate. step_any. apply always_ret.
      unfold well_formed. cbn [c_page c_priceContext c_confidence c_text c_bbox].
      split; [reflexivity|]. split; [reflexivity|].
      split; [|split; [exact Hshape|split; [exact Ht|exact Hline]]].
      exact (gate_confidence confidence threshold Hle Hthr Hgt).
    + intros cand Hcand. apply Hk. apply Forall_app. split; auto.
Qed.

Lemma allCapsPath_wf i line text vhs candidates :
  eligible line -> Forall well_formed candidates ->
  always (allCapsPath W pageNumber ocrLines lines sectionHeaders i line text vhs
            candidates) all_wf.
Proof.
  intros Hl Hc. unfold allCapsPath.
  destruct (isAllCapsText text); [|apply always_ret; exact I].
  apply always_bind with (Q := tidy); [apply removeAllPrices_always_tidy|].
  intros cleanText Ht.
  case_if; [apply always_ret; exact Hc|].
  step_any. step_any.
  apply gated_push_wf with (k := fun cs => ret (Some cs)); auto.
  - apply jmin_1_at_most_1.
  - discriminate.
  - exists line. auto.
  - intros cs Hcs. apply always_ret. exact Hcs.
  - apply always_ret. exact I.
Qed.

Lemma compound_loop_wf i line vhs items : forall candidates,
  eligible line -> Forall well_formed candidates ->
  always (compound_loop W pageNumber ocrLines lines sectionHeaders i line vhs items
            candidates) (Forall well_formed).
Proof.
  induction items as [|item rest IH]; intros candidates Hl Hc; cbn [compound_loop].
  - apply always_ret. exact Hc.
  - apply always_bind with (Q := tidy); [apply removeAllPrices_always_tidy|].
    intros cleanItem Ht.
    case_if; [|now apply IH].
    step_any. step_any.
    apply gated_push_wf
      with (k := compound_loop W pageNumber ocrLines lines sectionHeaders i line vhs rest);
      auto.
    + apply jmin_1_at_most_1.
    + discriminate.
    + exists line. auto.
Qed.

Lemma hierarchyPath_wf i line text vhs candidates :
  eligible line -> Forall well_formed candidates ->
  always (hierarchyPath W pageNumber ocrLines lines sectionHeaders i line text vhs
            candidates) all_wf.
Proof.
  intros Hl Hc. unfold hierarchyPath.
  case_if; [|apply always_ret; exact I].
  case_if.
  - apply always_bind with (Q := Forall well_formed).
    + now apply compound_loop_wf.
    + intros cs Hcs. apply always_ret. exact Hcs.
  - apply always_bind with (Q := tidy); [apply removeAllPrices_always_tidy|].
    intros cleanText Ht. step_any.
    case_if; [apply always_ret; exact Hc|].
    step_any. step_any.
    apply gated_push_wf with (k := fun cs => ret (Some cs)); auto.
    + apply jmin_1_at_most_1.
    + discriminate.
    + exists line. auto.
    + intros cs Hcs. apply always_ret. exact Hcs.
    + apply always_ret. exact I.
Qed.

Lemma parts_loop_wf i line lineParts : forall candidates,
  eligible line ->
  Forall (fun part => part_bbox part = line_bbox line) lineParts ->
  Forall well_formed candidates ->
  always (parts_loop W pageNumber ocrLines lines sectionHeaders i lineParts candidates)
         (Forall well_formed).
Proof.
  induction lineParts as [|part rest IH]; intros candidates Hl Hb Hc; cbn [parts_loop].
  - apply always_ret. exact Hc.
  - inversion Hb as [|? ? Hpart Hrest]; subst.
    apply always_bind with (Q := tidy); [apply removeAllPrices_always_tidy|].
    intros partText Ht.
    case_if; [now apply IH|].
    step_any.
    case_if; [now apply IH|].
    step_any.
    apply always_bind with (Q := at_most_1);
      [apply calculateConfidenceScore_le_1|].
    intros confidence Hle. step_any. step_any.
    apply gated_push_wf
      with (k := parts_loop W pageNumber ocrLines lines sectionHeaders i rest); auto.
    + apply Qle_refl.
    + exists line. auto.
    + step_any. now apply IH.
Qed.

Lemma clean_items_bbox bbox items :
  always (clean_items bbox items) (Forall (fun part => part_bbox part = bbox)).
Proof.
  induction items as [|item rest IH]; cbn [clean_items].
  - apply always_ret. constructor.
  - step_any. apply always_bind with (Q := Forall (fun part => part_bbox part = bbox));
      [exact IH|].
    intros parts Hp. apply always_ret. constructor; [reflexivity | exact Hp].
Qed.

Lemma processLine_wf i line candidates :
  In line ocrLines -> Forall well_formed candidates ->
  always (processLine W pageNumber ocrLines lines sectionHeaders i line candidates)
         (Forall well_formed).
Proof.
  intros Hin Hc. unfold processLine. cbv zeta.
  destruct (Nat.ltb_spec (List.length (trim (line_text line))) 2) as [L|L];
    [apply always_ret; exact Hc|].
  destruct (containsBlacklistedTerms (trim (line_text line))) eqn:B;
    [apply always_ret; exact Hc|].
  destruct (isSectionHeader (trim (line_text line))) eqn:S;
    [apply always_ret; exact Hc|].
  cbn [orb].
  assert (Hl : eligible line) by (repeat apply conj; assumption).
  step_any. step_any.
  case_if; [apply always_ret; exact Hc|].
  step_any. step_any.
  apply always_bind with (Q := all_wf); [now apply allCapsPath_wf|].
  intros [cs|] Hcs; [apply always_ret; exact Hcs|].
  apply always_bind with (Q := all_wf); [now apply hierarchyPath_wf|].
  intros [cs|] Hcs'; [apply always_ret; exact Hcs'|].
  unfold defaultPath. cbv zeta.
  apply always_bind with (Q := Forall (fun part => part_bbox part = line_bbox line)).
  { intros st. apply (splitLineByPrices_ok line st). }
  intros lineParts Hparts.
  apply always_bind with (Q := Forall (fun part => part_bbox part = line_bbox line)).
  { case_if; [apply clean_items_bbox | apply always_ret; exact Hparts]. }
  intros lineParts' Hparts'. now apply parts_loop_wf with (line := line).
Qed.

Lemma lines_loop_wf rest : forall i candidates,
  incl rest ocrLines -> Forall well_formed candidates ->
  always (lines_loop W pageNumber ocrLines lines sectionHeaders i rest candidates)
         (Forall well_formed).
Proof.
  induction rest as [|line rest IH]; intros i candidates Hi Hc; cbn [lines_loop].
  - apply always_ret. exact Hc.
  - apply always_bind with (Q := Forall well_formed).
    + apply processLine_wf; [apply Hi; now left | exact Hc].
    + intros cs Hcs. apply IH; [|exact Hcs]. intros x Hx. apply Hi. now right.
Qed.
End Page.

Lemma extractCandidates_always_wf (W : World) (ocrLines : list OcrLine)
    (pageNumber : Q) (topN : Z) :
  always (extractCandidates W ocrLines pageNumber topN)
         (Forall (well_formed pageNumber ocrLines)).
Proof.
  unfold extractCandidates.
  apply always_bind with (Q := Forall (well_formed pageNumber ocrLines)).
  - apply lines_loop_wf; [apply incl_refl | constructor].
  - intros cs Hcs. apply always_ret.
    rewrite Forall_forall in *. intros c' Hc'.
    apply Hcs. apply ExtractFacts.sort_desc_In. eapply ExtractFacts.slice0_In, Hc'.
Qed.
End WithRuntime.

(** X12. Every candidate returned by [extractCandidates] carries the page
    number of the call and an empty price context; its confidence is a
    finite number greater than 0.03 and at most 1; its text passed the shape checks of
    [isValidEntreeName] (no leading continuation word, no dot or comma
    followed by white space, at least four characters and two words once
    lower-cased and trimmed) and has its white space normalised. This holds
    for every world, page and state of the shared patterns. *)
Theorem extractCandidates_well_formed `{RT : Runtime} (W : World)
    (ocrLines : list OcrLine) (pageNumber : Q) (topN : Z) (st : State)
    (c : Candidate) :
  In c (fst (extractCandidates W ocrLines pageNumber topN st)) ->
  c_page c = pageNumber
  /\ c_priceContext c = []
  /\ (exists q, c_confidence c = Fin q /\ (3 # 100 < q)%Q /\ (q <= 1)%Q)
  /\ name_shape (c_text c)
  /\ trim (replace_all re_spaces (js " ") (c_text c)) = c_text c.
Proof.
  intros Hin.
  pose proof (extractCandidates_always_wf W ocrLines pageNumber topN st) as H.
  rewrite Forall_forall in H.
  destruct (H c Hin) as (H1 & H2 & H3 & H5 & H6 & _).
  exact (conj H1 (conj H2 (conj H3 (conj H5 H6)))).
Qed.

Definition salmon_page : list OcrLine :=
  Reference.page ["ENTREES"; "Grilled Salmon $24"]%string.

Lemma extractCandidates_well_formed_witness :
  exists c,
    nth_error (fst (extractCandidates (RT := Reference.runtime) Reference.world
                      salmon_page 1 100 init_state)) 0 = Some c
    /\ c_text c = js "Grilled Salmon"
    /\ c_page c = 1%Q
    /\ c_priceContext c = []
    /\ (exists q, c_confidence c = Fin q /\ (3 # 100 < q)%Q /\ (q <= 1)%Q)
    /\ name_shape (RT := Reference.runtime) (c_text c)
    /\ trim (replace_all re_spaces (js " ") (c_text c)) = c_text c.
Proof.
  destruct (nth_error
              (fst (extractCandidates (RT := Reference.runtime) Reference.world
                      salmon_page 1 100 init_state)) 0)
    as [c|] eqn:E; [|vm_compute in E; discriminate].
  exists c. split; [reflexivity|].
  split; [vm_compute in E; injection E as <-; reflexivity|].
  exact (@extractCandidates_well_formed Reference.runtime Reference.world
           salmon_page 1%Q 100%Z init_state c (nth_error_In _ _ E)).
Defined.

(** X19. Every candidate returned by [extractCandidates] carries the
    bounding box of a line of the page whose trimmed text has at least two
    characters, contains no blacklisted term and is not a section header:
    the lines that the loop skips at once give no candidate. In particular
    a page made of such lines only, or an empty page, gives none. *)
Theorem candidates_come_from_eligible_lines `{RT : Runtime} (W : World)
    (ocrLines : list OcrLine) (pageNumber : Q) (topN : Z) (st : State) :
  Forall (fun c => exists line,
            In line ocrLines
            /\ c_bbox c = line_bbox line
            /\ 2 <= List.length (trim (line_text line))
            /\ containsBlacklistedTerms (trim (line_text line)) = false
            /\ isSectionHeader (trim (line_text line)) = false)
         (fst (extractCandidates W ocrLines pageNumber topN st))
  /\ (Forall (fun line =>
                List.length (trim (line_text line)) < 2
                \/ containsBlacklistedTerms (trim (line_text line)) = true
                \/ isSectionHeader (trim (line_text line)) = true) ocrLines ->
      fst (extractCandidates W ocrLines pageNumber topN st) = []).
Proof.
  pose proof (extractCandidates_always_wf W ocrLines pageNumber topN st) as H.
  assert (Hfrom : Forall (fun c => exists line,
            In line ocrLines
            /\ c_bbox c = line_bbox line
            /\ 2 <= List.length (trim (line_text line))
            /\ containsBlacklistedTerms (trim (line_text line)) = false
            /\ isSectionHeader (trim (line_text line)) = false)
         (fst (extractCandidates W ocrLines pageNumber topN st))).
  { revert H. apply Forall_impl. intros c (_ & _ & _ & _ & _ & line & Hl & Hb).
    destruct Hl as (Hin & Hlen & Hbl & Hsh). exists line. auto. }
  split; [exact Hfrom|].
  intros Hskip.
  destruct (fst (extractCandidates W ocrLines pageNumber topN st)) as [|c cs];
    [reflexivity|].
  exfalso. inversion Hfrom as [|? ? (line & Hin & _ & Hlen & Hbl & Hsh) _]; subst.
  rewrite Forall_forall in Hskip.
  destruct (Hskip line Hin) as [X|[X|X]]; [lia | congruence | congruence].
Qed.
End CandidateInvariants.

(* ================================================================== *)
(** * The dictionary boost in the heuristic score *)
(* ================================================================== *)

Module BoostFacts.
Import EntreeLookup Extract Monadic.

Lemma Qle_bool_false a b : Qle_bool a b = false -> (b < a)%Q.
Proof.
  intros H. apply Qnot_le_lt. intros Hle. apply Qle_bool_iff in Hle. congruence.
Qed.

Lemma clamp_mono s s' :
  (s <= s')%Q -> (Math_max 0 (Math_min 1 s) <= Math_max 0 (Math_min 1 s'))%Q.
Proof.
  intros H. unfold Math_max, Math_min.
  destruct (Qle_bool 1 s) eqn:A, (Qle_bool 1 s') eqn:B;
    repeat match goal with
           | |- context [Qle_bool ?a ?b] => destruct (Qle_bool a b) eqn:?
           end;
    repeat match goal with
           | H : Qle_bool _ _ = true |- _ => apply Qle_bool_iff in H
           | H : Qle_bool _ _ = false |- _ => apply Qle_bool_false in H
           end; lra.
Qed.

(** One statement of the scoring chain: name its value, keep the order. *)
Ltac score_step :=
  lazymatch goal with
  | H : (?x <= ?x')%Q |- ((let s := ?a in @?B s) <= (let s' := ?a' in @?B' s'))%Q =>
    let H' := fresh "H" in
    assert (H' : (a <= a')%Q)
      by (repeat match goal with
                 | |- context [if ?c then _ else _] => destruct c
                 end; lra);
    change (B a <= B' a')%Q; cbv beta;
    let y := fresh "s" in let y' := fresh "s" in
    set (y := a) in *; set (y' := a') in *; clearbody y y'; clear H
  end.

Section WithRuntime.
Context {RT : Runtime}.

Lemma heuristicScore_mono (features : CandidateFeatures) (m m' : option EntreeMatch) :
  (boostOf m <= boostOf m')%Q ->
  (heuristicScore features m <= heuristicScore features m')%Q.
Proof.
  intros H. cbv beta delta [heuristicScore].
  assert (H0 : ((1 # 10) + boostOf m <= (1 # 10) + boostOf m')%Q) by lra.
  clear H. revert H0.
  generalize ((1 # 10) + boostOf m)%Q ((1 # 10) + boostOf m')%Q. intros s s' H.
  repeat score_step.
  now apply clamp_mono.
Qed.

(** The boost of a match returned by the lookup is one of the three
    constants of the policies. *)
Lemma findEntreeMatch_boost (db : Store) (text : jsstring) :
  match findEntreeMatch db text with
  | Some m => confidence_boost m = (95 # 100)%Q \/ confidence_boost m = (8 # 10)%Q
              \/ confidence_boost m = (7 # 10)%Q
  | None => True
  end.
Proof.
  unfold findEntreeMatch, findEntreeMatch_try, partialStep, fuzzyStep.
  repeat match goal with
         | |- context [match ?x with _ => _ end] =>
           lazymatch x with
           | context [match _ with _ => _ end] => fail
           | _ => destruct x
           end
         end; cbn [mkMatch confidence_boost]; auto.
Qed.

(** X13. The heuristic confidence is monotone in the dictionary boost: with
    the same features, a larger boost never gives a smaller score. A match
    returned by [findEntreeMatch] has a boost of 0.95, 0.8 or 0.7, so a
    candidate found in the dictionary never scores below the same candidate
    without a match. *)
Theorem heuristicScore_boost_monotone (features : CandidateFeatures) :
  (forall m m' : option EntreeMatch,
      (boostOf m <= boostOf m')%Q ->
      (heuristicScore features m <= heuristicScore features m')%Q)
  /\ (forall (db : Store) (text : jsstring),
        (heuristicScore features None
         <= heuristicScore features (findEntreeMatch db text))%Q).
Proof.
  split; [intros m m'; apply heuristicScore_mono|].
  intros db text. apply heuristicScore_mono.
  pose proof (findEntreeMatch_boost db text) as H.
  destruct (findEntreeMatch db text) as [m|]; cbn [boostOf]; [|apply Qle_refl].
  destruct H as [-> | [-> | ->]]; discriminate.
Qed.
End WithRuntime.
End BoostFacts.

(* ================================================================== *)
(** * The visual hierarchy score *)
(* ================================================================== *)

Module HierarchyFacts.
Import EntreeLookup Extract Monadic.

Ltac innermost_destruct :=
  repeat match goal with
         | |- context [match ?x with _ => _ end] =>
           lazymatch x with
           | context [match _ with _ => _ end] => fail
           | _ => destruct x
           end
         end.

Section WithRuntime.
Context {RT : Runtime}.

Lemma calculateSpacingScore_values (line : OcrLine) (lineIndex : nat)
    (allLines : list OcrLine) :
  calculateSpacingScore line lineIndex allLines = 0%Q
  \/ calculateSpacingScore line lineIndex allLines = (1 # 10)%Q
  \/ calculateSpacingScore line lineIndex allLines = (15 # 100)%Q
  \/ calculateSpacingScore line lineIndex allLines = (2 # 10)%Q.
Proof.
  unfold calculateSpacingScore. innermost_destruct; auto.
Qed.

Lemma calculateSpacingScore_nonneg line lineIndex allLines :
  (0 <= calculateSpacingScore line lineIndex allLines)%Q.
Proof.
  destruct (calculateSpacingScore_values line lineIndex allLines)
    as [-> | [-> | [-> | ->]]]; discriminate.
Qed.

(** One statement of the score computation: a running score stays
    non-negative. *)
Ltac hierarchy_step :=
  lazymatch goal with
  | |- always (let s := ?a in @?B s) ?P =>
    first
      [ let H' := fresh "H" in
        assert (H' : (0 <= a)%Q)
          by first [ apply calculateSpacingScore_nonneg
                   | repeat match goal with
                            | |- context [if ?c then _ else _] => destruct c
                            end; lra ];
        change (always (B a) P); cbv beta;
        let y := fresh "s" in set (y := a) in *; clearbody y
      | change (always (B a) P); cbv beta;
        let y := fresh "v" in set (y := a) in *; clearbody y ]
  | |- always (bind _ _) _ => apply always_bind_any; intros ?
  end.

(** X14. The visual hierarchy score lies between 0 and 1 for every line,
    page and state of the shared patterns, and the spacing score that
    enters it is 0, 0.1, 0.15 or 0.2. *)
Theorem calculateVisualHierarchyScore_bounds (line : OcrLine) (lineIndex : nat)
    (allLines : list OcrLine) (st : State) :
  (0 <= fst (calculateVisualHierarchyScore line lineIndex allLines st))%Q
  /\ (fst (calculateVisualHierarchyScore line lineIndex allLines st) <= 1)%Q
  /\ (calculateSpacingScore line lineIndex allLines = 0%Q
      \/ calculateSpacingScore line lineIndex allLines = (1 # 10)%Q
      \/ calculateSpacingScore line lineIndex allLines = (15 # 100)%Q
      \/ calculateSpacingScore line lineIndex allLines = (2 # 10)%Q).
Proof.
  assert (H : always (calculateVisualHierarchyScore line lineIndex allLines)
                     (fun s => (0 <= s)%Q /\ (s <= 1)%Q)).
  { cbv beta delta [calculateVisualHierarchyScore].
    repeat hierarchy_step.
    apply always_ret. split; [|apply ScorerFacts.Math_min_le_l].
    unfold Math_min. destruct (Qle_bool 1 _); [discriminate | assumption]. }
  destruct (H st) as [H0 H1]. split; [exact H0|]. split; [exact H1|].
  apply calculateSpacingScore_values.
Qed.
End WithRuntime.
End HierarchyFacts.

(* ================================================================== *)
(** * The batch lookup *)
(* ================================================================== *)

Module BatchFacts.
Import EntreeLookup.

Lemma map_get_set results : forall key value t,
  map_get (map_set results key value) t
  = if str_eqb key t then Some value else map_get results t.
Proof.
  induction results as [|[k v] rest IH]; intros key value t; cbn [map_set map_get].
  - reflexivity.
  - destruct (str_eqb k key) eqn:E; cbn [map_get].
    + apply str_eqb_eq in E. subst k. now destruct (str_eqb key t).
    + rewrite IH. destruct (str_eqb k t) eqn:E'; [|reflexivity].
      apply str_eqb_eq in E'. subst k.
      destruct (str_eqb key t) eqn:E2; [|reflexivity].
      apply str_eqb_eq in E2. subst. rewrite str_eqb_refl in E. discriminate.
Qed.

Lemma map_set_keys results : forall key value,
  map fst (map_set results key value)
  = if existsb (fun k => str_eqb k key) (map fst results) then map fst results
    else map fst results ++ [key].
Proof.
  induction results as [|[k v] rest IH]; intros key value;
    cbn [map_set map fst existsb app]; [reflexivity|].
  destruct (str_eqb k key) eqn:E; cbn [map fst orb]; [reflexivity|].
  rewrite IH. now destruct (existsb _ (map fst rest)).
Qed.

Lemma map_set_NoDup results key value :
  NoDup (map fst results) -> NoDup (map fst (map_set results key value)).
Proof.
  intros H. rewrite map_set_keys.
  destruct (existsb _ (map fst results)) eqn:E; [exact H|].
  apply NoDup_app; [exact H | repeat constructor; intros [] |].
  intros k Hk [<-|[]].
  assert (X : existsb (fun k => str_eqb k key) (map fst results) = true)
    by (apply existsb_exists; exists key; split; [exact Hk | apply str_eqb_refl]).
  congruence.
Qed.

Section WithRuntime.
Context {RT : Runtime}.
Variable db : Store.

(** Setting the result of each text of a list, in order. *)
Definition set_each (results : ResultMap) (texts : list jsstring) : ResultMap :=
  fold_left (fun results t => map_set results t (findEntreeMatch db t)) texts results.

Lemma forEach_set_each batch : forall pre results,
  fold_left (fun results ti =>
               map_set results (fst ti)
                 (nth (snd ti) (map (findEntreeMatch db) (pre ++ batch)) None))
            (combine batch (seq (List.length pre) (List.length batch))) results
  = set_each results batch.
Proof.
  induction batch as [|t batch IH]; intros pre results;
    cbn [List.length seq combine fold_left set_each]; [reflexivity|].
  cbn [fst snd]. rewrite map_app. rewrite app_nth2; rewrite length_map; [|lia].
  rewrite Nat.sub_diag. cbn [map nth].
  specialize (IH (pre ++ [t]) (map_set results t (findEntreeMatch db t))).
  rewrite <- app_assoc in IH. cbn [app] in IH.
  rewrite length_app in IH. cbn [List.length] in IH. rewrite Nat.add_1_r in IH.
  rewrite map_app in *. exact IH.
Qed.

Lemma set_each_app results a b :
  set_each results (a ++ b) = set_each (set_each results a) b.
Proof. unfold set_each. apply fold_left_app. Qed.

Lemma batches_loop_set_each : forall fuel i results (texts : list jsstring),
  List.length texts - i < fuel ->
  batches_loop fuel db texts i results = set_each results (skipn i texts).
Proof.
  induction fuel as [|fuel IH]; intros i results texts Hf; [lia|].
  cbn [batches_loop].
  destruct (Nat.ltb_spec i (List.length texts)) as [L|L].
  - cbv zeta.
    pose proof (forEach_set_each (slice texts i (i + batchSize)) [] results) as E.
    cbn [app List.length] in E. rewrite E. clear E.
    rewrite IH by (unfold batchSize; lia).
    rewrite <- set_each_app. f_equal. unfold slice.
    replace (i + batchSize - i) with batchSize by lia.
    rewrite <- (firstn_skipn batchSize (skipn i texts)) at 2.
    f_equal. rewrite skipn_skipn. f_equal. lia.
  - rewrite skipn_all2 by lia. reflexivity.
Qed.

Lemma set_each_get texts : forall results t,
  map_get (set_each results texts) t
  = if existsb (fun k => str_eqb k t) texts then Some (findEntreeMatch db t)
    else map_get results t.
Proof.
  induction texts as [|a texts IH]; intros results t; cbn [set_each fold_left existsb];
    [reflexivity|].
  fold (set_each (map_set results a (findEntreeMatch db a)) texts).
  rewrite IH, map_get_set.
  destruct (existsb _ texts); [now rewrite orb_true_r|]. rewrite orb_false_r.
  destruct (str_eqb a t) eqn:E; [|reflexivity].
  apply str_eqb_eq in E. now subst.
Qed.

Lemma set_each_NoDup texts : forall results,
  NoDup (map fst results) -> NoDup (map fst (set_each results texts)).
Proof.
  induction texts as [|a texts IH]; intros results H; cbn [set_each fold_left];
    [exact H|].
  apply IH. now apply map_set_NoDup.
Qed.

Lemma set_each_keys texts : forall results k,
  In k (map fst (set_each results texts)) <-> In k (map fst results) \/ In k texts.
Proof.
  induction texts as [|a texts IH]; intros results k; cbn [set_each fold_left In].
  - tauto.
  - fold (set_each (map_set results a (findEntreeMatch db a)) texts).
    rewrite IH, map_set_keys.
    destruct (existsb _ (map fst results)) eqn:E.
    + apply existsb_exists in E as (x & Hx & Ex). apply str_eqb_eq in Ex. subst x.
      split; [tauto|]. intros [H|[->|H]]; auto.
    + rewrite in_app_iff. cbn [In]. tauto.
Qed.
End WithRuntime.

(** X15. [findEntreeMatches] loses nothing at the batch boundaries: the
    map it returns has exactly the given texts as keys, each once, and
    the value of a text is the result of [findEntreeMatch] on it; a text
    that was not given has no entry. *)
Theorem findEntreeMatches_complete `{RT : Runtime} (db : Store)
    (texts : list jsstring) :
  (forall t, In t texts ->
     map_get (findEntreeMatches db texts) t = Some (findEntreeMatch db t))
  /\ (forall t, ~ In t texts -> map_get (findEntreeMatches db texts) t = None)
  /\ (forall t, In t (map fst (findEntreeMatches db texts)) <-> In t texts)
  /\ NoDup (map fst (findEntreeMatches db texts)).
Proof.
  unfold findEntreeMatches.
  rewrite batches_loop_set_each by lia. cbn [skipn].
  split; [|split; [|split]].
  - intros t Ht. rewrite set_each_get.
    replace (existsb (fun k => str_eqb k t) texts) with true; [reflexivity|].
    symmetry. apply existsb_exists. exists t. split; [exact Ht | apply str_eqb_refl].
  - intros t Ht. rewrite set_each_get.
    destruct (existsb (fun k => str_eqb k t) texts) eqn:E; [|reflexivity].
    apply existsb_exists in E as (x & Hx & Ex). apply str_eqb_eq in Ex. now subst.
  - intros t. rewrite set_each_keys. cbn [map In]. tauto.
  - apply set_each_NoDup. constructor.
Qed.
End BatchFacts.

(* ================================================================== *)
(** * The feature vector *)
(* ================================================================== *)

Module FeatureFacts.
Import RegexFacts TextUtils PriceRemoval Headers EntreeLookup Extract Monadic ClassFacts.

(** A boolean feature: 0 or 1. *)
Definition is_flag (q : Q) : Prop := q = 0%Q \/ q = 1%Q.

Lemma flag_is_flag b : is_flag (flag b).
Proof. destruct b; [right | left]; reflexivity. Qed.

Lemma calculateAverageTokenLength_nonneg text :
  (0 <= calculateAverageTokenLength text)%Q.
Proof.
  unfold calculateAverageTokenLength.
  destruct (Nat.eqb_spec (List.length (filter nonempty (split re_spaces text))) 0) as [E|E];
    [discriminate|].
  apply Qle_shift_div_l; [unfold Qnat, Qlt; simpl; lia|].
  rewrite Qmult_0_l. unfold Qnat, Qle. simpl. lia.
Qed.

Section WithRuntime.
Context {RT : Runtime}.

(** X16. The feature vector of [extractFeatures]: the eleven boolean
    features are 0 or 1; the punctuation density, the uppercase ratio and
    the letter ratio lie between 0 and 1; the token count is the number of
    meaningful words; the average token length is not negative; the
    same-line price flag repeats the currency flag; the digit flag is 0
    exactly on a text without digit; and the confidence slot is 0. This
    holds for every page and every state of the shared patterns. *)
Theorem extractFeatures_ranges (text : jsstring) (allLines : list jsstring)
    (lineIndex : nat) (sectionHeaders : list SectionHeader)
    (ocrLines : list OcrLine) (st : State) :
  Forall is_flag
    (map (fun get => get (fst (extractFeatures text allLines lineIndex sectionHeaders
                                 ocrLines st)))
         [hasDigits; hasCurrency; f_isAllCaps; f_isTitleCase; priceSameLine;
          priceNextLines1to3; underEntreeHeader; nextLineDescription;
          prevLineHeader; f_startsWithArticle; endsWithStop])
  /\ Forall (fun q => (0 <= q <= 1)%Q)
       (map (fun get => get (fst (extractFeatures text allLines lineIndex sectionHeaders
                                    ocrLines st)))
            [punctDensity; uppercaseRatio; lettersRatio])
  /\ tokenCount (fst (extractFeatures text allLines lineIndex sectionHeaders ocrLines st))
     = Qnat (countMeaningfulWords text)
  /\ (0 <= avgTokenLen (fst (extractFeatures text allLines lineIndex sectionHeaders
                               ocrLines st)))%Q
  /\ priceSameLine (fst (extractFeatures text allLines lineIndex sectionHeaders ocrLines st))
     = hasCurrency (fst (extractFeatures text allLines lineIndex sectionHeaders ocrLines st))
  /\ (hasDigits (fst (extractFeatures text allLines lineIndex sectionHeaders ocrLines st))
      = 0%Q <-> digit_free text)
  /\ f_confidence (fst (extractFeatures text allLines lineIndex sectionHeaders ocrLines st))
     = 0%Q.
Proof.
  unfold extractFeatures, bind, ret.
  destruct (containsAnyPrice text st) as [cur st1].
  destruct (checkPriceInNextLines allLines lineIndex 3 st1) as [next st2].
  cbn [fst map hasDigits hasCurrency f_isAllCaps f_isTitleCase priceSameLine
       priceNextLines1to3 underEntreeHeader nextLineDescription prevLineHeader
       f_startsWithArticle endsWithStop punctDensity uppercaseRatio lettersRatio
       tokenCount avgTokenLen f_confidence].
  split; [repeat (apply Forall_cons; [apply flag_is_flag|]); constructor|].
  split.
  { apply Forall_cons; [apply calculatePunctuationDensity_bounds|].
    apply Forall_cons; [apply calculateUppercaseRatio_bounds|].
    apply Forall_cons; [apply calculateLetterRatio_bounds|]. constructor. }
  split; [reflexivity|]. split; [apply calculateAverageTokenLength_nonneg|].
  split; [reflexivity|]. split; [|reflexivity].
  unfold Re.d, digit_free. split.
  - intros H. destruct (re_test (mk_re (Cls (cls r_digit))) text) eqn:E;
      [discriminate H|].
    apply re_test_cls_false in E. revert E. apply Forall_impl.
    intros c Hc. now rewrite class_digit in Hc.
  - intros H. replace (re_test (mk_re (Cls (cls r_digit))) text) with false;
      [reflexivity|].
    symmetry. apply re_test_cls_false. revert H. apply Forall_impl.
    intros c Hc. now rewrite class_digit.
Qed.
End WithRuntime.
End FeatureFacts.

(* ================================================================== *)
(** * Prices on the following lines *)
(* ================================================================== *)

Module LookaheadFacts.
Import RegexFacts TextUtils PriceRemoval PriceFacts Extract PatternStateFacts.

Lemma no_pattern_on_empty : some_pattern_matches [] = false.
Proof. vm_compute. reflexivity. Qed.

(** The lines examined by [checkPriceInNextLines]. *)
Definition next_line_priced (allLines : list jsstring) (lineIndex k : nat) : bool :=
  (lineIndex + k <? List.length allLines)
  && some_pattern_matches (trim (nth (lineIndex + k) allLines [])).

Lemma price_in_next_sound allLines lineIndex n : forall k st,
  fst (price_in_next allLines lineIndex k n st) = true ->
  exists j, k <= j < k + n /\ next_line_priced allLines lineIndex j = true.
Proof.
  induction n as [|n IH]; intros k st H; cbn [price_in_next] in H; [discriminate|].
  destruct (Nat.ltb_spec (lineIndex + k) (List.length allLines)) as [L|L];
    [|discriminate].
  unfold andM, bind, ret in H. cbv zeta in H.
  destruct (nonempty (trim (nth (lineIndex + k) allLines []))).
  - destruct (containsAnyPrice (trim (nth (lineIndex + k) allLines [])) st)
      as [found st1] eqn:E.
    destruct found.
    + exists k. split; [lia|]. unfold next_line_priced.
      replace (lineIndex + k <? List.length allLines) with true
        by (symmetry; now apply Nat.ltb_lt).
      apply (containsAnyPrice_sound _ st). now rewrite E.
    + apply IH in H as (j & Hj & Hp). exists j. split; [lia | exact Hp].
  - apply IH in H as (j & Hj & Hp). exists j. split; [lia | exact Hp].
Qed.

Lemma next_line_beyond allLines lineIndex n : forall k,
  List.length allLines <= lineIndex + k ->
  existsb (next_line_priced allLines lineIndex) (seq k n) = false.
Proof.
  induction n as [|n IH]; intros k L; cbn [seq existsb]; [reflexivity|].
  rewrite IH by lia. unfold next_line_priced.
  replace (lineIndex + k <? List.length allLines) with false
    by (symmetry; apply Nat.ltb_ge; lia).
  reflexivity.
Qed.

Lemma price_in_next_exact allLines lineIndex n : forall k st,
  patterns_reset st ->
  fst (price_in_next allLines lineIndex k n st)
  = existsb (next_line_priced allLines lineIndex) (seq k n).
Proof.
  induction n as [|n IH]; intros k st Hr; cbn [price_in_next seq existsb];
    [reflexivity|].
  destruct (Nat.ltb_spec (lineIndex + k) (List.length allLines)) as [L|L].
  - unfold next_line_priced at 1.
    replace (lineIndex + k <? List.length allLines) with true
      by (symmetry; now apply Nat.ltb_lt).
    cbn [andb]. unfold andM, bind, ret. cbv zeta.
    set (l := trim (nth (lineIndex + k) allLines [])).
    destruct (nonempty l) eqn:Ne.
    + pose proof (containsAnyPrice_exact l st Hr) as E.
      pose proof (containsAnyPrice_false_reset l st) as R.
      destruct (containsAnyPrice l st) as [found st1]. cbn [fst snd] in *.
      rewrite <- E. destruct found; [reflexivity|]. cbn [orb].
      apply IH. now apply R.
    + assert (El : l = []) by (destruct l; [reflexivity | discriminate]).
      rewrite El, no_pattern_on_empty. cbn [orb]. now apply IH.
  - cbn [ret fst]. symmetry. apply (next_line_beyond allLines lineIndex (S n) k L).
Qed.

(** X20. [checkPriceInNextLines] never invents a price: it answers true
    only if one of the lines at offsets 1 to [maxLines] below the line
    exists and its trimmed text matches a price pattern. When the shared
    patterns are reset it answers true exactly in that case. *)
Theorem checkPriceInNextLines_sound (allLines : list jsstring)
    (lineIndex maxLines : nat) (st : State) :
  (fst (checkPriceInNextLines allLines lineIndex maxLines st) = true ->
   exists k, 1 <= k <= maxLines
             /\ lineIndex + k < List.length allLines
             /\ some_pattern_matches (trim (nth (lineIndex + k) allLines [])) = true)
  /\ (patterns_reset st ->
      fst (checkPriceInNextLines allLines lineIndex maxLines st)
      = existsb (fun k => (lineIndex + k <? List.length allLines)
                          && some_pattern_matches
                               (trim (nth (lineIndex + k) allLines [])))
                (seq 1 maxLines)).
Proof.
  unfold checkPriceInNextLines. split.
  - intros H. apply price_in_next_sound in H as (j & Hj & Hp).
    unfold next_line_priced in Hp. apply andb_true_iff in Hp as [Hb Hp].
    apply Nat.ltb_lt in Hb. exists j. split; [lia|]. split; assumption.
  - intros Hr. apply (price_in_next_exact allLines lineIndex maxLines 1 st Hr).
Qed.
End LookaheadFacts.

(* ================================================================== *)
(** * Texts without price *)
(* ================================================================== *)

Module PriceFreeFacts.
Import RegexFacts TextUtils PriceRemoval PriceFacts Extract PatternStateFacts ClassFacts
       NameFacts.

Lemma digit_test_false text : re_test (mk_re Re.d) text = false -> digit_free text.
Proof.
  unfold Re.d. intros H. apply re_test_cls_false in H. revert H.
  unfold digit_free. apply Forall_impl. intros c Hc. now rewrite class_digit in Hc.
Qed.

Lemma removeAllPrices_quiet text st :
  digit_free text -> no_currency text -> re_test re_market_price text = false ->
  fst (removeAllPrices text st) = trim (collapse text).
Proof.
  intros Hd Hc Hm. rewrite removeAllPrices_eq.
  rewrite replace_each_id.
  - rewrite replace_all_none by (now apply exec_from_digit_free).
    rewrite outside_id; [reflexivity|].
    apply no_currency_test in Hc. unfold re_currency, Re.currency in Hc.
    now apply re_test_cls_false.
  - pose proof (comprehensive_quiet text Hd Hm) as Q. revert Q.
    apply Forall_impl. intros p Hp. apply Hp.
Qed.

(** X21. On a text without digit, without currency symbol and without the
    phrase [market price], [removeAllPrices] only normalises the white
    space: its result is the text with each run of white space collapsed
    into one space, trimmed. *)
Theorem removeAllPrices_price_free (text : jsstring) (st : State) :
  re_test (mk_re Re.d) text = false ->
  re_test re_currency text = false ->
  re_test re_market_price text = false ->
  fst (removeAllPrices text st) = trim (replace_all re_spaces (js " ") text).
Proof.
  intros Hd Hc Hm. rewrite replace_all_spaces.
  apply removeAllPrices_quiet; [now apply digit_test_false | | exact Hm].
  now apply no_currency_test.
Qed.

Lemma removeAllPrices_price_free_witness :
  fst (removeAllPrices (js "  Grilled   Salmon ") init_state)
  = trim (replace_all re_spaces (js " ") (js "  Grilled   Salmon ")).
Proof.
  apply (removeAllPrices_price_free (js "  Grilled   Salmon ") init_state);
    vm_compute; reflexivity.
Defined.

Lemma name_char_kept c :
  name_char c = true ->
  class_mem false (ncls (r_word ++ r_space
                         ++ [one (chr "-"); one (chr "'"); one (chr "&")])) c = false.
Proof.
  intros H. unfold class_mem, ncls. cbn [cc_neg cc_ranges].
  apply negb_false_iff. rewrite !existsb_app. cbn [existsb]. rewrite !range_one.
  change (chr "-") with 45%N. change (chr "'") with 39%N. change (chr "&") with 38%N.
  assert (Hw : existsb (range_mem false c) r_word
               = is_ascii_letter c || is_digit c || (c =? 95)%N).
  { unfold r_word. cbn [existsb].
    pose proof (range_one c 95) as H95. unfold one in H95. rewrite H95.
    unfold range_mem. cbn [fst snd andb]. rewrite !orb_false_r.
    fold (is_upper_ascii c). fold (is_lower_ascii c). fold (is_digit c).
    unfold is_ascii_letter. now rewrite !orb_assoc. }
  assert (Hsp : existsb (range_mem false c) r_space = is_space c)
    by (rewrite <- class_mem_cls; apply class_space).
  rewrite Hw, Hsp. unfold name_char in H.
  destruct (N.eqb_spec c 32) as [E32|N32]; [rewrite E32; reflexivity|].
  destruct (is_ascii_letter c), (c =? 95)%N, (c =? 45)%N, (c =? 39)%N, (c =? 38)%N,
    (is_digit c), (is_space c); try reflexivity; discriminate H.
Qed.

(** X22. [normalizeTextWithPriceRemoval] is idempotent on the outputs that
    do not contain the phrase [market price]: normalising such an output
    again, in any state of the shared patterns, gives it back. *)
Theorem normalizeTextWithPriceRemoval_idempotent (text : jsstring) (st st' : State) :
  re_test re_market_price (fst (normalizeTextWithPriceRemoval text st)) = false ->
  fst (normalizeTextWithPriceRemoval (fst (normalizeTextWithPriceRemoval text st)) st')
  = fst (normalizeTextWithPriceRemoval text st).
Proof.
  intros Hm.
  pose proof (normalized_chars text st) as Hc.
  assert (Hshape : exists x, fst (normalizeTextWithPriceRemoval text st)
                             = trim (collapse x))
    by (eexists; apply normalizeTextWithPriceRemoval_eq).
  set (out := fst (normalizeTextWithPriceRemoval text st)) in *.
  destruct Hshape as [x Hx].
  assert (Ht : trim out = out) by (rewrite Hx; apply trim_idem).
  assert (Hn : collapse out = out).
  { apply neat_collapse_id. rewrite Hx. apply neat_trim, neat_collapse. }
  assert (Hd : digit_free out)
    by (unfold digit_free; revert Hc; apply Forall_impl, name_char_not_digit).
  assert (Hcur : no_currency out)
    by (unfold no_currency; revert Hc; apply Forall_impl, name_char_not_currency).
  rewrite normalizeTextWithPriceRemoval_eq.
  rewrite (removeAllPrices_quiet out st' Hd Hcur Hm).
  rewrite Hn, Ht, Ht, Hn.
  rewrite (outside_id (ncls _) out)
    by (revert Hc; apply Forall_impl, name_char_kept).
  rewrite (outside_id (cls r_digit) out)
    by (revert Hd; apply Forall_impl; intros c E; now rewrite class_digit).
  now rewrite Hn, Ht.
Qed.

Lemma normalizeTextWithPriceRemoval_idempotent_witness :
  fst (normalizeTextWithPriceRemoval
         (fst (normalizeTextWithPriceRemoval (js "Fish & Chips (2 pcs) $12.50")
                 init_state)) init_state)
  = fst (normalizeTextWithPriceRemoval (js "Fish & Chips (2 pcs) $12.50") init_state).
Proof.
  apply (normalizeTextWithPriceRemoval_idempotent
           (js "Fish & Chips (2 pcs) $12.50") init_state init_state).
  vm_compute. reflexivity.
Defined.
End PriceFreeFacts.

(* ================================================================== *)
(** * Priced lines and the description filter *)
(* ================================================================== *)

Module DescriptionFacts.
Import RegexFacts TextUtils PriceRemoval PriceFacts Extract PatternStateFacts.

Section WithRuntime.
Context {RT : Runtime}.

Lemma isDescriptionText_priced text lineIndex allLines st :
  fst (containsAnyPrice text st) = true ->
  fst (isDescriptionText text lineIndex allLines st) = false.
Proof.
  intros H. unfold isDescriptionText, bind, ret. cbv zeta.
  destruct (containsAnyPrice text st) as [price st1]. cbn [fst] in H. subst price.
  destruct (containsAnyPrice _ st1) as [next st2]. reflexivity.
Qed.

(** X23. A line on which [containsAnyPrice] finds a price is never taken
    for a description by [isDescriptionText]; from reset patterns this
    covers every line that matches a price pattern. So only a stale
    [lastIndex] can make the description filter drop a priced line. *)
Theorem priced_line_is_not_description (text : jsstring) (lineIndex : nat)
    (allLines : list jsstring) (st : State) :
  (fst (containsAnyPrice text st) = true ->
   fst (isDescriptionText text lineIndex allLines st) = false)
  /\ (patterns_reset st -> some_pattern_matches text = true ->
      fst (isDescriptionText text lineIndex allLines st) = false).
Proof.
  split; [apply isDescriptionText_priced|].
  intros Hr Hm. apply isDescriptionText_priced.
  now rewrite (containsAnyPrice_exact text st Hr).
Qed.
End WithRuntime.
End DescriptionFacts.
